(** * TubeWEAVE: segment scheduling, import validation and droplet synthesis

    A shallow embedding of the numerical core of the TubeDrop display
    editor (the single-file React component) and the properties its
    specification states about it: the segment editor and the placement
    search, the segment-to-step compiler, the JSON step importer, the
    grayscale sampler, the PWM / AM / DITHER synthesis loops and the
    uniform resampling of a polyline.

    Numbers.  JavaScript numbers are modelled as exact rationals [Q]
    (rounding error is outside the model).  In the compiler and the
    importer, where a value that is not finite decides what the code does,
    the number is a [JsNumber], a rational or one of [NaN], [Infinity],
    [-Infinity]: the step durations, which divide by the feed speed, and
    the fields read by the import validator.  The zero of the rationals
    stands for [+0].  Elsewhere (the droplet fields of the synthesizer and
    of the manual schedule) quotients are rationals, and the scale, the
    feed speed and the sample step they divide by are taken not to be 0.
    Array indices and counts are integers
    ([nat] or [Z]).  The path geometry needs [Math.hypot], hence square
    roots, and is modelled over the reals in the module [Geometry] at the
    end of the definitions.

    State.  The React state of the editor is a record; an event handler is
    a function from the record and the event to the next record, the state
    updater being applied to the state the handler was created with. *)

From Stdlib Require Import QArith Qround Qabs Qminmax ZArith List Sorted Bool Lia Psatz.
From Stdlib Require Import Reals.
Import ListNotations.

Local Open Scope Q_scope.

(** ** Utility *)

Definition Qltb (x y : Q) : bool := negb (Qle_bool y x).
Definition Qgeb (x y : Q) : bool := Qle_bool y x.

(** [Math.round]: the nearest integer, halves rounded up; [Math_roundZ] is
    the same value as an integer, for use as an index or a count. *)
Definition Math_roundZ (x : Q) : Z := Qfloor (x + (1 # 2)).
Definition Math_round (x : Q) : Q := inject_Z (Math_roundZ x).

(** [Math.floor], as an integer. *)
Definition Math_floor (x : Q) : Z := Qfloor x.

(** [const clamp = (v, lo, hi) => Math.max(lo, Math.min(hi, v))] *)
Definition clamp (v lo hi : Q) : Q := Qmax lo (Qmin hi v).

(** [const lerp = (a, b, t) => a + (b - a) * t] *)
Definition lerp (a b t : Q) : Q := a + (b - a) * t.

(** ** JavaScript numbers *)

(** A JavaScript number where it may fail to be finite: a rational, or one
    of the non-finite values (a division by zero gives [Infinity],
    [-Infinity] or [NaN]; [1e999] parses to [Infinity]; a field that is not
    numeric becomes [NaN] in [Math.min]). *)
Inductive JsNumber : Type :=
| Finite (q : Q)
| NaN
| PosInfinity
| NegInfinity.

Definition Number_isFinite (v : JsNumber) : bool :=
  match v with Finite _ => true | _ => false end.

(** [a <= b] on JavaScript numbers; every comparison with [NaN] is false. *)
Definition js_le (a b : JsNumber) : bool :=
  match a, b with
  | NaN, _ | _, NaN => false
  | NegInfinity, _ => true
  | _, PosInfinity => true
  | Finite x, Finite y => Qle_bool x y
  | _, _ => false
  end.

Definition js_ge (a b : JsNumber) : bool := js_le b a.

Definition Math_min (a b : JsNumber) : JsNumber :=
  match a, b with
  | NaN, _ | _, NaN => NaN
  | NegInfinity, _ | _, NegInfinity => NegInfinity
  | PosInfinity, v | v, PosInfinity => v
  | Finite x, Finite y => Finite (Qmin x y)
  end.

Definition Math_max (a b : JsNumber) : JsNumber :=
  match a, b with
  | NaN, _ | _, NaN => NaN
  | PosInfinity, _ | _, PosInfinity => PosInfinity
  | NegInfinity, v | v, NegInfinity => v
  | Finite x, Finite y => Finite (Qmax x y)
  end.

Definition js_round (v : JsNumber) : JsNumber :=
  match v with Finite q => Finite (Math_round q) | _ => v end.

Definition js_clamp (v lo hi : JsNumber) : JsNumber := Math_max lo (Math_min hi v).

(** [a / b] for finite [a] and [b]: a division by zero gives [Infinity] or
    [-Infinity] by the sign of [a], and [0 / 0] is [NaN]. *)
Definition js_div (a b : Q) : JsNumber :=
  if Qeq_bool b 0 then
    if Qltb 0 a then PosInfinity
    else if Qltb a 0 then NegInfinity
    else NaN
  else Finite (a / b).

(** [v * k] for a finite [k]. *)
Definition js_mul (v : JsNumber) (k : Q) : JsNumber :=
  match v with
  | Finite q => Finite (q * k)
  | NaN => NaN
  | PosInfinity =>
      if Qltb 0 k then PosInfinity else if Qltb k 0 then NegInfinity else NaN
  | NegInfinity =>
      if Qltb 0 k then NegInfinity else if Qltb k 0 then PosInfinity else NaN
  end.

(** [arr.map((x, i) => f(x, i))] and [arr.some((x, i) => p(x, i))]. *)
Fixpoint mapi_from {A B : Type} (f : A -> nat -> B) (i : nat) (l : list A) : list B :=
  match l with
  | [] => []
  | x :: l' => f x i :: mapi_from f (S i) l'
  end.

Definition mapi {A B : Type} (f : A -> nat -> B) (l : list A) : list B :=
  mapi_from f 0 l.

Fixpoint somei_from {A : Type} (p : A -> nat -> bool) (i : nat) (l : list A) : bool :=
  match l with
  | [] => false
  | x :: l' => p x i || somei_from p (S i) l'
  end.

Definition somei {A : Type} (p : A -> nat -> bool) (l : list A) : bool :=
  somei_from p 0 l.

(** ** Segment model *)

(** An object carrying [startCm] and [endCm]; [segmentsOverlap] and the
    placement search only read these two fields. *)
Record Span : Type := mkSpan { startCm : Q; endCm : Q }.

(** [{ startCm, endCm, densityLevel }] *)
Record Segment : Type := mkSegment { span :> Span; densityLevel : Q }.

Definition segmentsOverlap (seg1 seg2 : Span) : bool :=
  Qltb (startCm seg1) (endCm seg2) && Qltb (startCm seg2) (endCm seg1).

(** [[...segments].sort((a, b) => a.startCm - b.startCm)]: a stable sort by
    start position, written as a stable insertion sort. *)
Fixpoint insertByStart (x : Segment) (l : list Segment) : list Segment :=
  match l with
  | [] => [x]
  | y :: l' =>
      if Qle_bool (startCm x) (startCm y) then x :: l else y :: insertByStart x l'
  end.

Definition sortByStart (segments : list Segment) : list Segment :=
  fold_right insertByStart [] segments.

(** The [for (const seg of sortedSegments)] loop of
    [findNextAvailablePosition]: returns the gap it found, or the cursor
    after the last segment. *)
Fixpoint scanGaps (sortedSegments : list Segment) (currentPos preferredLength : Q)
  : Span + Q :=
  match sortedSegments with
  | [] => inr currentPos
  | seg :: rest =>
      if Qle_bool (currentPos + preferredLength) (startCm seg)
      then inl (mkSpan currentPos (currentPos + preferredLength))
      else scanGaps rest (endCm seg) preferredLength
  end.

Definition findNextAvailablePosition
  (segments : list Segment) (preferredStart preferredLength tubeLength : Q)
  : option Span :=
  let sortedSegments := sortByStart segments in
  let preferredEnd := preferredStart + preferredLength in
  let newSegment := mkSpan preferredStart preferredEnd in
  if Qle_bool preferredEnd tubeLength
     && negb (existsb (fun seg : Segment => segmentsOverlap seg newSegment) sortedSegments)
  then Some (mkSpan preferredStart preferredEnd)
  else
    match scanGaps sortedSegments 0 preferredLength with
    | inl found => Some found
    | inr currentPos =>
        if Qle_bool (currentPos + preferredLength) tubeLength
        then Some (mkSpan currentPos (currentPos + preferredLength))
        else None
    end.

(** ** Segment editor *)

Inductive Handle : Type := HandleStart | HandleEnd.

(** Result of [hitTestManualSegment]; [segmentIdx = -1] when nothing is hit. *)
Record Hit : Type := mkHit { segmentIdx : Z; handle : option Handle }.

Record Editor : Type := mkEditor {
  manualSegments : list Segment;
  manualSelectedIdx : Z;
  manualDraggingIdx : Z;
  manualDraggingHandle : option Handle;
  manualTubeLengthCm : Q;
  manualEditorZoom : Q;
  snapToGrid : bool
}.

Definition withSegments (ed : Editor) (segs : list Segment) (sel drag : Z)
  (h : option Handle) : Editor :=
  mkEditor segs sel drag h (manualTubeLengthCm ed) (manualEditorZoom ed) (snapToGrid ed).

(** [onManualPointerDown], with the hit test result and the canvas abscissa
    [x] of the pointer as inputs. *)
Definition onManualPointerDown (ed : Editor) (hit : Hit) (x : Q) : Editor :=
  if (0 <=? segmentIdx hit)%Z then
    withSegments ed (manualSegments ed) (segmentIdx hit) (segmentIdx hit) (handle hit)
  else
    let pxPerCm := 40 * manualEditorZoom ed in
    let preferredStart0 := clamp (x / pxPerCm) 0 (manualTubeLengthCm ed) in
    let preferredLength := 1 in
    let preferredStart :=
      if snapToGrid ed then Math_round preferredStart0 else preferredStart0 in
    match findNextAvailablePosition (manualSegments ed) preferredStart preferredLength
            (manualTubeLengthCm ed) with
    | Some availablePosition =>
        let newSegment :=
          mkSegment (mkSpan (startCm availablePosition) (endCm availablePosition)) 5 in
        let n := Z.of_nat (length (manualSegments ed)) in
        withSegments ed (manualSegments ed ++ [newSegment]) n n None
    | None => ed
    end.

(** The candidate segment computed by [onManualPointerMove] for the dragged
    segment [seg] (the three branches on [manualDraggingHandle]). *)
Definition dragCandidate (ed : Editor) (newPosition : Q) (seg : Segment) : Segment :=
  let minGap := if snapToGrid ed then 1 else 1 # 10 in
  match manualDraggingHandle ed with
  | Some HandleStart =>
      let newStartCm := Qmin newPosition (endCm seg - minGap) in
      mkSegment (mkSpan newStartCm (endCm seg)) (densityLevel seg)
  | Some HandleEnd =>
      let maxEnd := manualTubeLengthCm ed in
      let newEndCm := Qmin (Qmax newPosition (startCm seg + minGap)) maxEnd in
      mkSegment (mkSpan (startCm seg) newEndCm) (densityLevel seg)
  | None =>
      let lengthCm := endCm seg - startCm seg in
      let newStartCm := Qmin newPosition (manualTubeLengthCm ed - lengthCm) in
      let newEndCm := newStartCm + lengthCm in
      mkSegment (mkSpan newStartCm newEndCm) (densityLevel seg)
  end.

(** [arr.some((otherSeg, otherIdx) => otherIdx !== i && segmentsOverlap(newSegment, otherSeg))] *)
Definition hasOverlap (arr : list Segment) (i : nat) (newSegment : Segment) : bool :=
  somei (fun (otherSeg : Segment) otherIdx =>
           negb (Nat.eqb otherIdx i) && segmentsOverlap newSegment otherSeg) arr.

Definition pointerPosition (ed : Editor) (x : Q) : Q :=
  let pxPerCm := 40 * manualEditorZoom ed in
  let newPosition := clamp (x / pxPerCm) 0 (manualTubeLengthCm ed) in
  if snapToGrid ed then Math_round newPosition else newPosition.

(** [onManualPointerMove], with the canvas abscissa [x] of the pointer as input. *)
Definition onManualPointerMove (ed : Editor) (x : Q) : Editor :=
  if (manualDraggingIdx ed <? 0)%Z then ed
  else
    let newPosition := pointerPosition ed x in
    let arr := manualSegments ed in
    let arr' :=
      mapi (fun seg i =>
              if negb (Z.of_nat i =? manualDraggingIdx ed)%Z then seg
              else
                let newSegment := dragCandidate ed newPosition seg in
                if negb (hasOverlap arr i newSegment) then newSegment else seg)
           arr in
    withSegments ed arr' (manualSelectedIdx ed) (manualDraggingIdx ed)
      (manualDraggingHandle ed).

(** ** Segment-to-step compiler *)

(** [{ ch0, ch1, ch2, duration_base, resistance_factor }] *)
Module Params.
Record t : Type := mk {
  ch0 : Q; ch1 : Q; ch2 : Q; duration_base : Q; resistance_factor : Q
}.
End Params.

(** The calibration object held by the component
    ([calibrationParams], also the [calibration] argument of the compiler). *)
Module Calibration.
Record t : Type := mk {
  denseCh0 : Q; denseDuration : Q; denseResistance : Q;
  sparseCh0 : Q; sparseDuration : Q; sparseResistance : Q;
  ch1 : Q; feedSpeed : Q
}.
End Calibration.

(** A hardware step [{ ch0, ch1, duration }]; the duration comes from a
    division by the feed speed and is a [JsNumber]. *)
Module Step.
Record t : Type := mk { ch0 : Q; ch1 : Q; duration : JsNumber }.
End Step.

Definition DENSE_PARAMS : Params.t := Params.mk 80 70 0 1500 (135 # 1000).
Definition SPARSE_PARAMS : Params.t := Params.mk 73 70 0 2000 (5 # 100).

Definition denseParamsOf (calibration : option Calibration.t) : Params.t :=
  match calibration with
  | Some c =>
      Params.mk (Calibration.denseCh0 c) (Calibration.ch1 c) 0
        (Calibration.denseDuration c) (Calibration.denseResistance c)
  | None => DENSE_PARAMS
  end.

Definition sparseParamsOf (calibration : option Calibration.t) : Params.t :=
  match calibration with
  | Some c =>
      Params.mk (Calibration.sparseCh0 c) (Calibration.ch1 c) 0
        (Calibration.sparseDuration c) (Calibration.sparseResistance c)
  | None => SPARSE_PARAMS
  end.

Definition densityLevelToEHDParams (densityLevel : Q) (calibration : option Calibration.t)
  : Params.t :=
  let level := clamp densityLevel 1 10 in
  let ratio := (level - 1) / 9 in
  let denseParams := denseParamsOf calibration in
  let sparseParams := sparseParamsOf calibration in
  Params.mk
    (Math_round (lerp (Params.ch0 sparseParams) (Params.ch0 denseParams) ratio))
    (Params.ch1 denseParams)
    (Params.ch2 denseParams)
    (Math_round (lerp (Params.duration_base sparseParams)
                      (Params.duration_base denseParams) ratio))
    (lerp (Params.resistance_factor sparseParams)
          (Params.resistance_factor denseParams) ratio).

(** The rest step pushed for a gap of [gapLengthCm]. *)
Definition gapStep (gapLengthCm feedSpeedMmPerSec : Q) : Step.t :=
  let gapDurationMs :=
    js_round (js_mul (js_div (gapLengthCm * 10) feedSpeedMmPerSec) 1000) in
  Step.mk 0 70 (Math_max (Finite 1000) gapDurationMs).

(** The step pushed for a segment. *)
Definition segmentStep (seg : Segment) (feedSpeedMmPerSec : Q)
  (calibration : option Calibration.t) : Step.t :=
  let ehdParams := densityLevelToEHDParams (densityLevel seg) calibration in
  let segmentLengthMm := (endCm seg - startCm seg) * 10 in
  let baseDurationMs := js_mul (js_div segmentLengthMm feedSpeedMmPerSec) 1000 in
  let adjustedDuration := js_round baseDurationMs in
  Step.mk (Params.ch0 ehdParams) (Params.ch1 ehdParams)
    (Math_max (Finite 1000) adjustedDuration).

(** The [for] loop of [segmentsToEHDSteps] over the sorted segments, with
    its state [(steps, currentPos)]; it stops at the first segment reached
    with [steps.length >= maxSteps]. *)
Fixpoint compileLoop (sortedSegments : list Segment) (feedSpeedMmPerSec : Q)
  (maxSteps : Z) (calibration : option Calibration.t)
  (steps : list Step.t) (currentPos : Q) : list Step.t * Q :=
  match sortedSegments with
  | [] => (steps, currentPos)
  | seg :: rest =>
      if (Z.of_nat (length steps) <? maxSteps)%Z then
        let steps1 :=
          if Qltb currentPos (startCm seg)
          then steps ++ [gapStep (startCm seg - currentPos) feedSpeedMmPerSec]
          else steps in
        let steps2 := steps1 ++ [segmentStep seg feedSpeedMmPerSec calibration] in
        compileLoop rest feedSpeedMmPerSec maxSteps calibration steps2 (endCm seg)
      else (steps, currentPos)
  end.

(** [segments] is [None] for an absent ([null]/[undefined]) argument. *)
Definition segmentsToEHDSteps (segments : option (list Segment))
  (feedSpeedMmPerSec : Q) (maxSteps : Z) (calibration : option Calibration.t)
  (tubeLengthCm : Q) : list Step.t :=
  match segments with
  | None | Some [] => [Step.mk 0 70 (Finite 1500)]
  | Some segs =>
      let sortedSegments := sortByStart segs in
      let '(steps, currentPos) :=
        compileLoop sortedSegments feedSpeedMmPerSec maxSteps calibration [] 0 in
      if Qltb currentPos tubeLengthCm
      then steps ++ [gapStep (tubeLengthCm - currentPos) feedSpeedMmPerSec]
      else steps
  end.

(** Length in mm that a step of [durationMs] milliseconds stands for at the
    given feed speed: [duration / 1000 * feedSpeed]. *)
Definition stepLengthMm (feedSpeedMmPerSec durationMs : Q) : Q :=
  durationMs / 1000 * feedSpeedMmPerSec.


Definition Qsum (l : list Q) : Q := fold_right Qplus 0 l.

(** ** Import validation *)

(** [a ?? b] on a field that may be [null] or missing. *)
Definition nullish {A : Type} (a : option A) (b : A) : A :=
  match a with Some v => v | None => b end.

(** A candidate step as read from a JSON file: each field may be missing. *)
Module JsonStep.
Record t : Type := mk {
  ch0 : option JsNumber; ch1 : option JsNumber; duration : option JsNumber
}.
End JsonStep.

(** A normalized step, as handed to [validateStep]. *)
Module NormStep.
Record t : Type := mk { ch0 : JsNumber; ch1 : JsNumber; duration : JsNumber }.
End NormStep.

(** The [calibration] object of an imported file: each field may be missing. *)
Module JsonCalibration.
Record t : Type := mk {
  denseCh0 : option Q; denseDuration : option Q; denseResistance : option Q;
  sparseCh0 : option Q; sparseDuration : option Q; sparseResistance : option Q;
  ch1 : option Q; feedSpeed : option Q
}.
End JsonCalibration.

(** The parts of an imported JSON document that the importer reads;
    [None] where the key is missing or is not of the expected kind. *)
Module Json.
Record t : Type := mk {
  steps : option (list JsonStep.t);
  generated_steps : option (list JsonStep.t);
  segments : option (list Segment);
  tubeLengthCm : option Q;
  calibration : option JsonCalibration.t
}.
End Json.

(** [validateStep]; [None] is a falsy [s]. *)
Definition validateStep (s : option NormStep.t) : bool :=
  match s with
  | None => false
  | Some s =>
      let ch0Ok := Number_isFinite (NormStep.ch0 s)
                   && js_ge (NormStep.ch0 s) (Finite 0)
                   && js_le (NormStep.ch0 s) (Finite 100) in
      let ch1Ok := Number_isFinite (NormStep.ch1 s)
                   && js_ge (NormStep.ch1 s) (Finite 0)
                   && js_le (NormStep.ch1 s) (Finite 100) in
      let durOk := Number_isFinite (NormStep.duration s)
                   && js_ge (NormStep.duration s) (Finite 1) in
      ch0Ok && ch1Ok && durOk
  end.

Definition stepToJson (s : Step.t) : JsonStep.t :=
  JsonStep.mk (Some (Finite (Step.ch0 s))) (Some (Finite (Step.ch1 s)))
    (Some (Step.duration s)).

(** [buildStepsFromSegments], given the component's [calibrationParams]. *)
Definition buildStepsFromSegments (calibrationParams : Calibration.t) (json : Json.t)
  : list JsonStep.t :=
  let segs := nullish (Json.segments json) [] in
  let tubeLength := nullish (Json.tubeLengthCm json) 30 in
  let get (f : JsonCalibration.t -> option Q) (d : Calibration.t -> Q) : Q :=
    match Json.calibration json with
    | Some c => nullish (f c) (d calibrationParams)
    | None => d calibrationParams
    end in
  let feed := get JsonCalibration.feedSpeed Calibration.feedSpeed in
  map stepToJson
    (segmentsToEHDSteps (Some segs) feed 100
       (Some (Calibration.mk
                (get JsonCalibration.denseCh0 Calibration.denseCh0)
                (get JsonCalibration.denseDuration Calibration.denseDuration)
                (get JsonCalibration.denseResistance Calibration.denseResistance)
                (get JsonCalibration.sparseCh0 Calibration.sparseCh0)
                (get JsonCalibration.sparseDuration Calibration.sparseDuration)
                (get JsonCalibration.sparseResistance Calibration.sparseResistance)
                (get JsonCalibration.ch1 Calibration.ch1)
                feed))
       tubeLength).

(** The normalization applied to each candidate before validation. *)
Definition normalizeStep (calibrationParams : Calibration.t) (s : JsonStep.t) : NormStep.t :=
  NormStep.mk
    (js_round (js_clamp (nullish (JsonStep.ch0 s) (Finite 0)) (Finite 0) (Finite 100)))
    (js_round (js_clamp (nullish (JsonStep.ch1 s) (Finite (Calibration.ch1 calibrationParams)))
                 (Finite 0) (Finite 100)))
    (js_round (Math_max (Finite 1) (nullish (JsonStep.duration s) (Finite 0)))).

(** The candidate list that [extractStepsFromJson] works on:
    [direct || generated || []], replaced by the steps built from the
    embedded segments when it is empty. *)
Definition candidateSteps (calibrationParams : Calibration.t) (json : Json.t)
  : list JsonStep.t :=
  let steps :=
    match Json.steps json, Json.generated_steps json with
    | Some direct, _ => direct
    | None, Some generated => generated
    | None, None => []
    end in
  match steps with
  | [] => buildStepsFromSegments calibrationParams json
  | _ => steps
  end.

Definition extractStepsFromJson (calibrationParams : Calibration.t) (json : Json.t)
  : list NormStep.t :=
  filter (fun s => validateStep (Some s))
    (map (normalizeStep calibrationParams) (candidateSteps calibrationParams json)).

(** What the interface contract says of a candidate: all three fields are
    present, finite and in range. *)
Definition inContract (s : JsonStep.t) : Prop :=
  exists c0 c1 d,
    JsonStep.ch0 s = Some (Finite c0) /\ JsonStep.ch1 s = Some (Finite c1) /\
    JsonStep.duration s = Some (Finite d) /\
    0 <= c0 <= 100 /\ 0 <= c1 <= 100 /\ 1 <= d.

(** ** Intensity sampler *)

(** An [ImageData]: [data] holds four bytes (R, G, B, A) per pixel, row by row. *)
Module ImageData.
Record t : Type := mk { width : Z; height : Z; data : list Z }.
End ImageData.

(** [data[idx]]: [None] is [undefined], the result of indexing out of bounds. *)
Definition dataAt (data : list Z) (idx : Z) : option Z :=
  if (idx <? 0)%Z then None else nth_error data (Z.to_nat idx).

Definition pixelIndex (imageData : ImageData.t) (x y : Q) : Z :=
  let width := ImageData.width imageData in
  let xi := Math_floor (clamp x 0 (inject_Z (width - 1))) in
  let yi := Math_floor (clamp y 0 (inject_Z (ImageData.height imageData - 1))) in
  ((yi * width + xi) * 4)%Z.

(** [grayscaleAt]; the result is [None] when a channel read is [undefined]
    (the JavaScript arithmetic then yields [NaN]). *)
Definition grayscaleAt (imageData : ImageData.t) (x y : Q) : option Q :=
  let data := ImageData.data imageData in
  let idx := pixelIndex imageData x y in
  match dataAt data idx, dataAt data (idx + 1), dataAt data (idx + 2) with
  | Some r, Some g, Some b =>
      Some (((299 # 1000) * inject_Z r + (587 # 1000) * inject_Z g
             + (114 # 1000) * inject_Z b) / 255)
  | _, _, _ => None
  end.

(** ** Continuous schedule synthesizer *)

Inductive Mode : Type := PWM | AM | DITHER.

(** The rendering parameters read by [recompute]. *)
Module Synth.
Record t : Type := mk {
  mode : Mode;
  mmPerPixel : Q;
  feedSpeed : Q;
  minSpacingMm : Q;
  widthMinMm : Q;
  widthMaxMm : Q;
  sampleStepPx : Q;
  threshold : Q
}.
End Synth.

(** [{ s_px, s_mm, t_ms, width_mm, amplitude }] *)
Module Drop.
Record t : Type := mk { s_px : Q; s_mm : Q; t_ms : Q; width_mm : Q; amplitude : Q }.
End Drop.

Definition minSpacingPx (P : Synth.t) : Q := Synth.minSpacingMm P / Synth.mmPerPixel P.
Definition widthMinPx (P : Synth.t) : Q := Synth.widthMinMm P / Synth.mmPerPixel P.
Definition widthMaxPx (P : Synth.t) : Q := Synth.widthMaxMm P / Synth.mmPerPixel P.

(** [Math.max(1, Math.round(stepPx / sampleStepPx))] with
    [stepPx = Math.max(minSpacingPx, sampleStepPx)]. *)
Definition stepIdx (P : Synth.t) : nat :=
  let stepPx := Qmax (minSpacingPx P) (Synth.sampleStepPx P) in
  Z.to_nat (Z.max 1 (Math_roundZ (stepPx / Synth.sampleStepPx P))).

(** [arr[i] = v]; nothing is written past the end (the loops below only
    write inside the array). *)
Fixpoint setNth {A : Type} (i : nat) (v : A) (l : list A) : list A :=
  match l, i with
  | [], _ => []
  | _ :: l', O => v :: l'
  | x :: l', S i' => x :: setNth i' v l'
  end.

(** [for (let i = i0; i < n; i += step) st = body(i, st)]; the loop runs at
    most [fuel] times, and [n] rounds are enough when [step >= 1]. *)
Fixpoint strideLoop {St : Type} (fuel n step i : nat) (body : nat -> St -> St) (st : St)
  : St :=
  match fuel with
  | O => st
  | S fuel' =>
      if (i <? n)%nat then strideLoop fuel' n step (i + step) body (body i st) else st
  end.

(** The position fields of the droplet emitted at sample [i]. *)
Definition dropAt (P : Synth.t) (i : nat) (width_mm amplitude : Q) : Drop.t :=
  let s_px := inject_Z (Z.of_nat i) * Synth.sampleStepPx P in
  let s_mm := s_px * Synth.mmPerPixel P in
  let t_ms := (s_mm / Synth.feedSpeed P) * 1000 in
  Drop.mk s_px s_mm t_ms width_mm amplitude.

(** Loop state of the synthesis: the droplets pushed so far and the signal [g]. *)
Definition SynthState : Type := (list Drop.t * list Q)%type.

Definition pwmBody (P : Synth.t) (f : list Q) (i : nat) (st : SynthState) : SynthState :=
  let '(drops, g) := st in
  let widthRangePx := Qmax 0 (widthMaxPx P - widthMinPx P) in
  let v := clamp (nth i f 0) 0 1 in
  let wpx := widthMinPx P + v * widthRangePx in
  let wmm := wpx * Synth.mmPerPixel P in
  (drops ++ [dropAt P i wmm 1],
   setNth i (if Qltb 0 widthRangePx then (wpx - widthMinPx P) / widthRangePx else 0) g).

Definition amBody (P : Synth.t) (f : list Q) (i : nat) (st : SynthState) : SynthState :=
  let '(drops, g) := st in
  let w0mm := (1 # 2) * (Synth.widthMinMm P + Synth.widthMaxMm P) in
  let v := clamp (nth i f 0) 0 1 in
  (drops ++ [dropAt P i w0mm v], setNth i v g).

Definition weights : list Q := [7 # 16; 5 # 16; 3 # 16; 1 # 16].

(** [if (i + k < fCopy.length) fCopy[i + k] += err * weights[k - 1]] *)
Definition diffuseTo (i : nat) (err : Q) (fCopy : list Q) (k : nat) : list Q :=
  if (i + k <? length fCopy)%nat
  then setNth (i + k) (nth (i + k) fCopy 0 + err * nth (k - 1) weights 0) fCopy
  else fCopy.

(** [for (let k = 1; k <= 4; k++) ...] *)
Definition diffuse (i : nat) (err : Q) (fCopy : list Q) : list Q :=
  fold_left (diffuseTo i err) [1; 2; 3; 4]%nat fCopy.

(** One round of the DITHER loop on the state [(fCopy, (drops, g))]. *)
Definition ditherBody (P : Synth.t) (i : nat) (st : list Q * SynthState)
  : list Q * SynthState :=
  let '(fCopy, (drops, g)) := st in
  let w0mm := (1 # 2) * (Synth.widthMinMm P + Synth.widthMaxMm P) in
  let v := clamp (nth i fCopy 0) 0 1 in
  let out := if Qgeb v (Synth.threshold P) then 1 else 0 in
  let err := v - out in
  let g' := setNth i out g in
  let fCopy' := diffuse i err fCopy in
  let drops' :=
    if ((i mod stepIdx P =? 0)%nat && Qltb 0 out)%bool
    then drops ++ [dropAt P i w0mm 1]
    else drops in
  (fCopy', (drops', g')).

(** Step 3 of [recompute]: from the intensity sequence [f] to the droplets
    and the synthesized signal [g]. *)
Definition synthesize (P : Synth.t) (f : list Q) : SynthState :=
  let n := length f in
  let g := repeat 0 n in
  match Synth.mode P with
  | PWM => strideLoop n n (stepIdx P) 0 (pwmBody P f) ([], g)
  | AM => strideLoop n n (stepIdx P) 0 (amBody P f) ([], g)
  | DITHER => snd (strideLoop n n 1 0 (ditherBody P) (f, ([], g)))
  end.

(** The quantization of one sample value, as in the DITHER loop: the
    binarized output and the error left over. *)
Definition quantOut (threshold raw : Q) : Q :=
  if Qgeb (clamp raw 0 1) threshold then 1 else 0.

Definition quantErr (threshold raw : Q) : Q :=
  clamp raw 0 1 - quantOut threshold raw.

(** The value of a sample once the errors of the samples before it,
    [prev] (nearest first), have been added with the weights 7/16, 5/16,
    3/16, 1/16 for distances 1 to 4. *)
Definition diffusedValue (x : Q) (prev : list Q) : Q :=
  fold_right (fun c acc => acc + c) x
    (map (fun ew => fst ew * snd ew) (combine prev weights)).

(** Errors of the samples [i - 1, ..., 0] (nearest first), each computed
    from the diffused value of its sample. *)
Fixpoint errorsBefore (threshold : Q) (f : list Q) (i : nat) : list Q :=
  match i with
  | O => []
  | S i' =>
      let prev := errorsBefore threshold f i' in
      quantErr threshold (diffusedValue (nth i' f 0) prev) :: prev
  end.

(** Quantized output of sample [i]. *)
Definition quantizedAt (threshold : Q) (f : list Q) (i : nat) : Q :=
  quantOut threshold (diffusedValue (nth i f 0) (errorsBefore threshold f i)).

(** ** Path geometry (over the reals) *)

Module Geometry.
Local Open Scope R_scope.

(** [{ x, y }] *)
Module Point.
Record t : Type := mk { x : R; y : R }.
End Point.

(** [Math.hypot(a.x - b.x, a.y - b.y)] *)
Definition dist (a b : Point.t) : R :=
  sqrt ((Point.x a - Point.x b) * (Point.x a - Point.x b)
        + (Point.y a - Point.y b) * (Point.y a - Point.y b)).

Definition lerp (a b t : R) : R := a + (b - a) * t.

(** The integer part of a real, towards zero. *)
Definition trunc (q : R) : Z :=
  if Rle_dec 0 q then Int_part q else (- Int_part (- q))%Z.

(** The JavaScript remainder [x % y]: the sign of the dividend. *)
Definition fmod (x y : R) : R := x - y * IZR (trunc (x / y)).

(** The [while (t <= segLen)] loop: the points pushed on the segment
    from [a] to [b], starting at distance [t] from [a]. *)
Fixpoint emitLoop (fuel : nat) (a b : Point.t) (segLen stepPx t : R) : list Point.t :=
  match fuel with
  | O => []
  | S fuel' =>
      if Rle_dec t segLen then
        let u := t / segLen in
        Point.mk (lerp (Point.x a) (Point.x b) u) (lerp (Point.y a) (Point.y b) u)
        :: emitLoop fuel' a b segLen stepPx (t + stepPx)
      else []
  end.

(** Rounds that the [while] loop can need when [stepPx > 0]: it leaves
    after at most [(segLen - t) / stepPx + 1] of them. *)
Definition emitFuel (segLen stepPx t : R) : nat :=
  S (Z.to_nat (up ((segLen - t) / stepPx))).

(** The [for] loop over the polyline, from the previous point [a], with
    the remainder [acc] carried across segments. *)
Fixpoint walk (a : Point.t) (rest : list Point.t) (stepPx acc : R) : list Point.t :=
  match rest with
  | [] => []
  | b :: rest' =>
      let segLen := dist a b in
      let t := stepPx - acc in
      emitLoop (emitFuel segLen stepPx t) a b segLen stepPx t
      ++ walk b rest' stepPx (fmod (segLen + acc) stepPx)
  end.

Definition resampleUniform (pts : list Point.t) (stepPx : R) : list Point.t :=
  match pts with
  | [] => []
  | p0 :: rest => p0 :: walk p0 rest stepPx 0
  end.

(** The point at arc length [s] from [a] on the straight segment from [a]
    to [b]. *)
Definition pointAt (a b : Point.t) (s : R) : Point.t :=
  let u := s / dist a b in
  Point.mk (lerp (Point.x a) (Point.x b) u) (lerp (Point.y a) (Point.y b) u).

(** [floor(L / s)] as a count. *)
Definition wholeSteps (L s : R) : nat := Z.to_nat (Int_part (L / s)).

(** A horizontal segment of length 5. *)
Definition origin : Point.t := Point.mk 0 0.
Definition fiveRight : Point.t := Point.mk 5 0.
End Geometry.

(** ** Invariants of the segment set *)

(** A segment of the data model: [startCm < endCm]. *)
Definition wellFormed (s : Span) : Prop := startCm s < endCm s.

(** No two segments (at distinct positions of the array) overlap. *)
Definition noOverlap (segs : list Segment) : Prop :=
  forall (i j : nat) (a b : Segment),
    i <> j -> nth_error segs i = Some a -> nth_error segs j = Some b ->
    segmentsOverlap a b = false.

(** [a] lies entirely before [b]. *)
Definition before (a b : Segment) : Prop := endCm a <= startCm b.

(** A list in which every segment lies before all later ones. *)
Definition chain (l : list Segment) : Prop := StronglySorted before l.

(** A well-formed segment that ends inside the tube. *)
Definition segmentOk (tubeLength : Q) (s : Span) : Prop :=
  startCm s < endCm s /\ endCm s <= tubeLength.

(** An editor with two segments on a 10 cm tube, the first one selected and
    being dragged as a whole. *)
Definition exampleEditor : Editor :=
  mkEditor [mkSegment (mkSpan 0 2) 5; mkSegment (mkSpan 3 4) 5] 0 0 None 10 1 true.



(** The segments lie inside the tube [[0, tubeLengthCm]]. *)
Definition insideTube (tubeLengthCm : Q) (s : Span) : Prop :=
  0 <= startCm s /\ endCm s <= tubeLengthCm.

(** The calibration the component starts with. *)
Definition defaultCalibration : Calibration.t :=
  Calibration.mk 80 1500 (135 # 1000) 73 2000 (5 # 100) 70 80.

(** The candidates that survive normalization and validation: no field is
    [NaN] and the duration is not [Infinity]. *)
Definition survives (s : JsonStep.t) : bool :=
  match JsonStep.ch0 s with Some NaN => false | _ => true end
  && match JsonStep.ch1 s with Some NaN => false | _ => true end
  && match JsonStep.duration s with Some NaN | Some PosInfinity => false | _ => true end.

(** A raster as the canvas produces it: at least one pixel each way and
    four bytes per pixel. *)
Definition rasterOk (imageData : ImageData.t) : Prop :=
  (1 <= ImageData.width imageData)%Z /\ (1 <= ImageData.height imageData)%Z
  /\ Z.of_nat (length (ImageData.data imageData))
     = (4 * ImageData.width imageData * ImageData.height imageData)%Z.

(** A raster of two pixels side by side: red, then blue. *)
Definition exampleRaster : ImageData.t :=
  ImageData.mk 2 1 [255; 0; 0; 255; 0; 0; 255; 255]%Z.

(** ** Emission grid and pulse width *)

(** The indices [i, i + step, ...], [count] of them. *)
Fixpoint strides (count step i : nat) : list nat :=
  match count with
  | O => []
  | S c => i :: strides c step (i + step)
  end.

(** Number of multiples of [step] below [n]. *)
Definition emissionCount (n step : nat) : nat := ((n + step - 1) / step)%nat.

(** The sample indices [0, step, 2 step, ...] below [n]. *)
Definition emissionIndices (n step : nat) : list nat :=
  map (fun k => (k * step)%nat) (seq 0 (emissionCount n step)).

(** The PWM pulse width in mm for the clamped intensity [v], as [recompute]
    computes it. *)
Definition pwmWidthMm (P : Synth.t) (v : Q) : Q :=
  (widthMinPx P + v * Qmax 0 (widthMaxPx P - widthMinPx P)) * Synth.mmPerPixel P.

(** The rendering parameters the component starts with, in PWM mode. *)
Definition defaultSynth : Synth.t :=
  Synth.mk PWM (2 # 10) 80 (3 # 10) (2 # 10) 1 2 (1 # 2).

(** Quantization error of sample [i]. *)
Definition errAt (threshold : Q) (f : list Q) (i : nat) : Q :=
  quantErr threshold (diffusedValue (nth i f 0) (errorsBefore threshold f i)).

(** Value held for sample [j] once the first [i] samples have been
    processed: the errors of the processed samples at distance at most 4
    have been added, the farthest first. *)
Definition pendingValue (threshold : Q) (f : list Q) (j i : nat) : Q :=
  fold_right (fun c acc => acc + c) (nth j f 0)
    (map (fun ew => fst ew * snd ew)
       (skipn (j - i) (combine (errorsBefore threshold f j) weights))).

(** Where DITHER emits: the quantized output is 1 and the index is on the
    emission grid. *)
Definition ditherEmits (P : Synth.t) (f : list Q) (i : nat) : bool :=
  (i mod stepIdx P =? 0)%nat && Qeq_bool (quantizedAt (Synth.threshold P) f i) 1.

(** The fixed pulse width of AM and DITHER. *)
Definition midWidthMm (P : Synth.t) : Q :=
  (1 # 2) * (Synth.widthMinMm P + Synth.widthMaxMm P).

(** The default parameters in DITHER mode with a minimum spacing of 1 mm
    (an emission grid of every third sample). *)
Definition ditherSynth : Synth.t :=
  Synth.mk DITHER (2 # 10) 80 1 (2 # 10) 1 2 (1 # 2).

(** ** More of the segment editor *)

(** [arr.filter((x, i) => p(x, i))] *)
Fixpoint filteri_from {A : Type} (p : A -> nat -> bool) (i : nat) (l : list A) : list A :=
  match l with
  | [] => []
  | x :: l' => if p x i then x :: filteri_from p (S i) l' else filteri_from p (S i) l'
  end.

Definition filteri {A : Type} (p : A -> nat -> bool) (l : list A) : list A :=
  filteri_from p 0 l.

(** The body of the [for (let i = n - 1; i >= 0; i--)] loop of
    [hitTestManualSegment], over the segments paired with their indices,
    last first; [x], [y] are the canvas coordinates of the pointer. *)
Fixpoint hitScan (ed : Editor) (x y : Q) (l : list (nat * Segment)) : Hit :=
  match l with
  | [] => mkHit (-1) None
  | (i, seg) :: rest =>
      let pxPerCm := 40 * manualEditorZoom ed in
      let tubeY := 120 / 2 in
      let tubeRadius := 8 in
      let handleSize := 6 in
      let tolerance := 10 in
      let startX := clamp (startCm seg) 0 (manualTubeLengthCm ed) * pxPerCm in
      let endX := clamp (endCm seg) (startCm seg) (manualTubeLengthCm ed) * pxPerCm in
      let handleRow :=
        Qle_bool (tubeY - tubeRadius - 5 - tolerance) y
        && Qle_bool y (tubeY - tubeRadius - 5 + 10 + tolerance) in
      if (Z.of_nat i =? manualSelectedIdx ed)%Z
         && (Qle_bool (startX - handleSize / 2 - tolerance) x
             && Qle_bool x (startX + handleSize / 2 + tolerance) && handleRow)
      then mkHit (Z.of_nat i) (Some HandleStart)
      else if (Z.of_nat i =? manualSelectedIdx ed)%Z
              && (Qle_bool (endX - handleSize / 2 - tolerance) x
                  && Qle_bool x (endX + handleSize / 2 + tolerance) && handleRow)
      then mkHit (Z.of_nat i) (Some HandleEnd)
      else if Qle_bool (startX - tolerance) x && Qle_bool x (endX + tolerance)
              && Qle_bool (tubeY - tubeRadius - tolerance) y
              && Qle_bool y (tubeY + tubeRadius + tolerance)
      then mkHit (Z.of_nat i) None
      else hitScan ed x y rest
  end.

Definition hitTestManualSegment (ed : Editor) (x y : Q) : Hit :=
  hitScan ed x y
    (rev (combine (seq 0 (length (manualSegments ed))) (manualSegments ed))).


(** [onManualContextMenu], with the hit test result as input. *)
Definition onManualContextMenu (ed : Editor) (hit : Hit) : Editor :=
  if (0 <=? segmentIdx hit)%Z then
    withSegments ed
      (filteri (fun _ i => negb (Z.of_nat i =? segmentIdx hit)%Z) (manualSegments ed))
      (-1) (-1) None
  else ed.

(** The [keydown] handler for Delete and Backspace (outside numeric fields). *)
Definition onDeleteKey (ed : Editor) : Editor :=
  if (0 <=? manualSelectedIdx ed)%Z then
    withSegments ed
      (filteri (fun _ i => negb (Z.of_nat i =? manualSelectedIdx ed)%Z) (manualSegments ed))
      (-1) (-1) None
  else ed.

(** The selected segment, when the numeric fields are rendered
    ([manualSelectedIdx >= 0 && manualSegments[manualSelectedIdx]]). *)
Definition selectedSegment (ed : Editor) : option Segment :=
  if (manualSelectedIdx ed <? 0)%Z then None
  else nth_error (manualSegments ed) (Z.to_nat (manualSelectedIdx ed)).

(** [onChange] of the Start Position field, for a parsed number [numValue]. *)
Definition onStartChange (ed : Editor) (numValue : Q) : Editor :=
  match selectedSegment ed with
  | None => ed
  | Some sel =>
      let currentEnd := endCm sel in
      let minGap := if snapToGrid ed then 1 else 1 # 10 in
      let clampedStart := Qmin numValue (currentEnd - minGap) in
      let newSegment := mkSegment (mkSpan clampedStart currentEnd) (densityLevel sel) in
      let hasOverlap :=
        somei (fun (seg : Segment) i =>
                 negb (Z.of_nat i =? manualSelectedIdx ed)%Z
                 && segmentsOverlap newSegment seg) (manualSegments ed) in
      if negb hasOverlap then
        withSegments ed
          (mapi (fun (seg : Segment) i =>
                   if (Z.of_nat i =? manualSelectedIdx ed)%Z
                   then mkSegment (mkSpan clampedStart (endCm seg)) (densityLevel seg)
                   else seg) (manualSegments ed))
          (manualSelectedIdx ed) (manualDraggingIdx ed) (manualDraggingHandle ed)
      else ed
  end.

(** [onChange] of the End Position field, for a parsed number [numValue]. *)
Definition onEndChange (ed : Editor) (numValue : Q) : Editor :=
  match selectedSegment ed with
  | None => ed
  | Some sel =>
      let currentStart := startCm sel in
      let minGap := if snapToGrid ed then 1 else 1 # 10 in
      let maxEnd := manualTubeLengthCm ed in
      let clampedEnd := Qmin (Qmax numValue (currentStart + minGap)) maxEnd in
      let newSegment := mkSegment (mkSpan currentStart clampedEnd) (densityLevel sel) in
      let hasOverlap :=
        somei (fun (seg : Segment) i =>
                 negb (Z.of_nat i =? manualSelectedIdx ed)%Z
                 && segmentsOverlap newSegment seg) (manualSegments ed) in
      if negb hasOverlap then
        withSegments ed
          (mapi (fun (seg : Segment) i =>
                   if (Z.of_nat i =? manualSelectedIdx ed)%Z
                   then mkSegment (mkSpan (startCm seg) clampedEnd) (densityLevel seg)
                   else seg) (manualSegments ed))
          (manualSelectedIdx ed) (manualDraggingIdx ed) (manualDraggingHandle ed)
      else ed
  end.

(** ** Manual schedule as droplets *)

(** [const mmToPx = (mm, mmPerPixel) => mm / mmPerPixel] and its inverse. *)
Definition mmToPx (mm mmPerPixel : Q) : Q := mm / mmPerPixel.
Definition pxToMm (px mmPerPixel : Q) : Q := px * mmPerPixel.

(** The effect that maps the manual segments to [dropSchedule]: one
    droplet per segment, at its middle, as wide as the segment. *)
Definition manualDrop (tubeLengthCm mmPerPixel feedSpeed : Q) (seg : Segment) : Drop.t :=
  let startMm := clamp (startCm seg * 10) 0 (Qmax 0 (tubeLengthCm * 10)) in
  let endMm := clamp (endCm seg * 10) startMm (Qmax 0 (tubeLengthCm * 10)) in
  let s_mm := (startMm + endMm) / 2 in
  let s_px := s_mm / mmPerPixel in
  let width_mm := endMm - startMm in
  let amplitude := clamp (densityLevel seg / 10) 0 1 in
  let t_ms := (s_mm / feedSpeed) * 1000 in
  Drop.mk s_px s_mm t_ms width_mm amplitude.

Definition manualDropSchedule (segments : list Segment)
  (tubeLengthCm mmPerPixel feedSpeed : Q) : list Drop.t :=
  map (manualDrop tubeLengthCm mmPerPixel feedSpeed) (sortByStart segments).

(** ** Export of the manual pattern *)





(** ** Path construction (over the reals) *)

Module PathOps.
Import Geometry.
Local Open Scope R_scope.

(** [catmullRom(p0, p1, p2, p3, t)] *)
Definition catmullRom (p0 p1 p2 p3 : Point.t) (t : R) : Point.t :=
  let t2 := t * t in
  let t3 := t2 * t in
  Point.mk
    (0.5 *
     ((2 * Point.x p1) +
      (- Point.x p0 + Point.x p2) * t +
      (2 * Point.x p0 - 5 * Point.x p1 + 4 * Point.x p2 - Point.x p3) * t2 +
      (- Point.x p0 + 3 * Point.x p1 - 3 * Point.x p2 + Point.x p3) * t3))
    (0.5 *
     ((2 * Point.y p1) +
      (- Point.y p0 + Point.y p2) * t +
      (2 * Point.y p0 - 5 * Point.y p1 + 4 * Point.y p2 - Point.y p3) * t2 +
      (- Point.y p0 + 3 * Point.y p1 - 3 * Point.y p2 + Point.y p3) * t3)).

(** [points[i]]; the loops below only read inside the array. *)
Definition pointAtIndex (points : list Point.t) (i : nat) : Point.t :=
  nth i points (Point.mk 0 0).

(** The samples pushed for the [i]-th span of the control polygon. *)
Definition spanSamples (points : list Point.t) (samplesPerSegment i : nat) : list Point.t :=
  let n := length points in
  let p0 := if (i =? 0)%nat then pointAtIndex points 0 else pointAtIndex points (i - 1) in
  let p1 := pointAtIndex points i in
  let p2 := pointAtIndex points (i + 1) in
  let p3 := if (i + 2 <? n)%nat then pointAtIndex points (i + 2)
            else pointAtIndex points (n - 1) in
  map (fun j => catmullRom p0 p1 p2 p3 (INR j / INR samplesPerSegment))
    (seq 0 samplesPerSegment).

(** [sampleCatmullRom(points, samplesPerSegment)] *)
Definition sampleCatmullRom (points : list Point.t) (samplesPerSegment : nat)
  : list Point.t :=
  if (length points <? 2)%nat then points
  else
    flat_map (spanSamples points samplesPerSegment) (seq 0 (length points - 1))
    ++ [pointAtIndex points (length points - 1)].

(** The loop of [polylineLength] from the previous point [a], with the
    length [L] summed so far. *)
Fixpoint polylineLoop (a : Point.t) (rest : list Point.t) (L : R) : R :=
  match rest with
  | [] => L
  | b :: rest' => polylineLoop b rest' (L + dist a b)
  end.

(** [polylineLength(pts)] *)
Definition polylineLength (pts : list Point.t) : R :=
  match pts with
  | [] => 0
  | a :: rest => polylineLoop a rest 0
  end.

(** [generateParallelPattern(startPoint, endPoint, { topFolds })] *)
Definition generateParallelPattern (startPoint endPoint : Point.t) (topFolds : nat)
  : list Point.t :=
  let startX := Point.x startPoint in
  let startY := Point.y startPoint in
  let endX := Point.x endPoint in
  let endY := Point.y endPoint in
  let width := endX - startX in
  let foldCount := topFolds in
  let totalPoints := (foldCount * 2)%nat in
  map (fun i =>
         Point.mk (startX + (width * INR i) / INR totalPoints)
           (if (i mod 2 =? 0)%nat then startY else endY))
    (seq 0 (S totalPoints)).
End PathOps.



(** A candidate step and an imported step with the whole-number fields
    [(ch0, ch1, duration)]. *)
Definition jsonStepOf (t : Z * Z * Z) : JsonStep.t :=
  let '(c0, c1, d) := t in
  JsonStep.mk (Some (Finite (inject_Z c0))) (Some (Finite (inject_Z c1)))
    (Some (Finite (inject_Z d))).

Definition normStepOf (t : Z * Z * Z) : NormStep.t :=
  let '(c0, c1, d) := t in
  NormStep.mk (Finite (inject_Z c0)) (Finite (inject_Z c1)) (Finite (inject_Z d)).

Definition tripleInContract (t : Z * Z * Z) : Prop :=
  let '(c0, c1, d) := t in
  (0 <= c0 <= 100)%Z /\ (0 <= c1 <= 100)%Z /\ (1 <= d)%Z.

(** The default parameters in AM mode. *)
Definition amSynth : Synth.t :=
  Synth.mk AM (2 # 10) 80 (3 # 10) (2 # 10) 1 2 (1 # 2).

(** Parameters with a minimum spacing of 0.56 mm, that is 2.8 px, on
    samples 2 px apart. *)
Definition tightSynth : Synth.t :=
  Synth.mk PWM (2 # 10) 80 (56 # 100) (2 # 10) 1 2 (1 # 2).

(** ** The tube length field and a shortened tube *)





(** ** Clamping, in the words of the specification *)

(** [v] is [x] clamped into [[lo, hi]]: the bound that [x] lies beyond, or
    [x] itself when it lies between the bounds. *)
Definition clampedTo (lo hi x v : Q) : Prop :=
  (x < lo -> v == lo) /\ (hi < x -> v == hi) /\ (lo <= x <= hi -> v == x).

(** The pixel nearest to the coordinate [v] on an axis of [n] pixels: the
    first pixel for a coordinate before the raster, the last one for a
    coordinate past its last pixel, and otherwise the pixel [k] whose cell
    [[k, k + 1)] holds [v]. *)
Definition nearestPixel (n : Z) (v : Q) : Z :=
  if Qltb v 0 then 0%Z
  else if Qltb (inject_Z (n - 1)) v then (n - 1)%Z
  else Qfloor v.

(** * Properties *)

(** ** Comparisons and rounding *)

Lemma Qltb_lt (x y : Q) : Qltb x y = true <-> x < y.
Proof.
  unfold Qltb. rewrite negb_true_iff. split; intro H.
  - apply Qnot_le_lt. intro Hle. apply Qle_bool_iff in Hle. congruence.
  - destruct (Qle_bool y x) eqn:E; [|reflexivity].
    apply Qle_bool_iff in E. exfalso. exact (Qlt_not_le _ _ H E).
Qed.

Lemma Qltb_ge (x y : Q) : Qltb x y = false <-> y <= x.
Proof.
  unfold Qltb. rewrite negb_false_iff. apply Qle_bool_iff.
Qed.

Lemma Qle_bool_false (x y : Q) : Qle_bool x y = false <-> y < x.
Proof.
  rewrite <- Qltb_lt. unfold Qltb. rewrite negb_true_iff. tauto.
Qed.


Lemma Qfloor_lt_Z (x : Q) (z : Z) : x < inject_Z z -> (Qfloor x < z)%Z.
Proof.
  intro H. rewrite Zlt_Qlt. apply Qle_lt_trans with x; [apply Qfloor_le|exact H].
Qed.

Lemma Qfloor_ge_Z (x : Q) (z : Z) : inject_Z z <= x -> (z <= Qfloor x)%Z.
Proof.
  intro H. rewrite <- (Qfloor_Z z). apply Qfloor_resp_le. exact H.
Qed.

Lemma Math_roundZ_inject (z : Z) : Math_roundZ (inject_Z z) = z.
Proof.
  unfold Math_roundZ.
  assert (H1 : (z <= Qfloor (inject_Z z + (1 # 2)))%Z).
  { apply Qfloor_ge_Z. lra. }
  assert (H2 : (Qfloor (inject_Z z + (1 # 2)) < z + 1)%Z).
  { apply Qfloor_lt_Z. rewrite inject_Z_plus. change (inject_Z 1) with 1. lra. }
  lia.
Qed.

Lemma Math_round_eq (x : Q) (z : Z) : x == inject_Z z -> Math_round x = inject_Z z.
Proof.
  intro H. unfold Math_round. f_equal.
  unfold Math_roundZ. rewrite (Qfloor_comp _ (inject_Z z + (1 # 2))) by (rewrite H; reflexivity).
  apply Math_roundZ_inject.
Qed.

(** ** The compiler: fixed outputs *)

(** C3: compiling an empty or absent segment list returns exactly the one
    step [{ch0: 0, ch1: 70, duration: 1500}], whatever the feed speed, the
    step cap, the calibration and the tube length; the result is then never
    the empty list. *)
Theorem empty_segments_single_step :
  forall (feedSpeedMmPerSec : Q) (maxSteps : Z) (calibration : option Calibration.t)
         (tubeLengthCm : Q),
    segmentsToEHDSteps None feedSpeedMmPerSec maxSteps calibration tubeLengthCm
      = [Step.mk 0 70 (Finite 1500)]
    /\ segmentsToEHDSteps (Some []) feedSpeedMmPerSec maxSteps calibration tubeLengthCm
      = [Step.mk 0 70 (Finite 1500)]
    /\ segmentsToEHDSteps None feedSpeedMmPerSec maxSteps calibration tubeLengthCm <> []
    /\ segmentsToEHDSteps (Some []) feedSpeedMmPerSec maxSteps calibration tubeLengthCm <> [].
Proof.
  intros. cbn. repeat split; discriminate.
Qed.

(** C4: the segment [{startCm: 0, endCm: 5, densityLevel: 10}] at feed speed
    10 mm/s with a Dense preset of ch0 = 80 (shared ch1 = 70) on a 15 cm tube
    compiles to the segment step [{80, 70, 5000}] followed by the trailing
    rest step [{0, 70, 10000}]. *)
Theorem single_dense_segment_steps :
  forall calibration : option Calibration.t,
    Params.ch0 (denseParamsOf calibration) == 80 ->
    Params.ch1 (denseParamsOf calibration) = 70 ->
    segmentsToEHDSteps (Some [mkSegment (mkSpan 0 5) 10]) 10 50 calibration 15
      = [Step.mk 80 70 (Finite 5000); Step.mk 0 70 (Finite 10000)].
Proof.
  intros calibration Hch0 Hch1.
  unfold segmentsToEHDSteps, sortByStart, fold_right, insertByStart, compileLoop.
  cbn [length Z.of_nat Z.ltb Z.compare app startCm endCm span densityLevel].
  replace (Qltb 0 0) with false by reflexivity.
  replace (Qltb 5 15) with true by reflexivity.
  unfold segmentStep, gapStep, densityLevelToEHDParams.
  cbn [Params.ch0 Params.ch1 startCm endCm span densityLevel app].
  rewrite Hch1.
  rewrite (Math_round_eq _ 80).
  2:{ unfold lerp. rewrite Hch0.
      assert (E : (clamp 10 1 10 - 1) / 9 == 1) by reflexivity.
      rewrite E. change (inject_Z 80) with 80. ring. }
  reflexivity.
Qed.

(** The statement above applies to the built-in presets. *)
Lemma single_dense_segment_steps_witness :
  segmentsToEHDSteps (Some [mkSegment (mkSpan 0 5) 10]) 10 50 None 15
    = [Step.mk 80 70 (Finite 5000); Step.mk 0 70 (Finite 10000)].
Proof.
  apply (single_dense_segment_steps None); reflexivity.
Defined.

(** ** The segment editor keeps segments apart *)

Lemma segmentsOverlap_sym (a b : Span) : segmentsOverlap a b = segmentsOverlap b a.
Proof. unfold segmentsOverlap. apply andb_comm. Qed.

Lemma segmentsOverlap_false (a b : Span) :
  segmentsOverlap a b = false <-> endCm b <= startCm a \/ endCm a <= startCm b.
Proof.
  unfold segmentsOverlap. rewrite andb_false_iff, !Qltb_ge. tauto.
Qed.

Lemma nth_error_mapi_from {A B : Type} (f : A -> nat -> B) (l : list A) :
  forall i k, nth_error (mapi_from f i l) k = option_map (fun x => f x (i + k)%nat) (nth_error l k).
Proof.
  induction l as [|x l IH]; intros i k.
  - destruct k; reflexivity.
  - destruct k as [|k]; cbn.
    + rewrite Nat.add_0_r. reflexivity.
    + rewrite IH. rewrite Nat.add_succ_r. reflexivity.
Qed.

Lemma somei_from_false {A : Type} (p : A -> nat -> bool) (l : list A) :
  forall i, somei_from p i l = false ->
            forall k x, nth_error l k = Some x -> p x (i + k)%nat = false.
Proof.
  induction l as [|y l IH]; intros i H k x Hk.
  - destruct k; discriminate.
  - cbn in H. apply orb_false_iff in H. destruct H as [H1 H2].
    destruct k as [|k]; cbn in Hk.
    + inversion Hk; subst. rewrite Nat.add_0_r. exact H1.
    + rewrite Nat.add_succ_r. apply (IH (S i) H2 k x Hk).
Qed.


(** The array after a pointer move, position by position. *)
Lemma pointerMove_nth (ed : Editor) (x : Q) (k : nat) :
  (0 <= manualDraggingIdx ed)%Z ->
  nth_error (manualSegments (onManualPointerMove ed x)) k =
  option_map
    (fun seg : Segment =>
       if negb (Z.of_nat k =? manualDraggingIdx ed)%Z then seg
       else if negb (hasOverlap (manualSegments ed) k (dragCandidate ed (pointerPosition ed x) seg))
            then dragCandidate ed (pointerPosition ed x) seg else seg)
    (nth_error (manualSegments ed) k).
Proof.
  intro Hd. unfold onManualPointerMove.
  destruct (manualDraggingIdx ed <? 0)%Z eqn:E; [apply Z.ltb_lt in E; lia|].
  cbn [manualSegments withSegments]. unfold mapi. rewrite nth_error_mapi_from.
  reflexivity.
Qed.



(** *** Sorting by start position *)

Lemma insertByStart_In (x y : Segment) (l : list Segment) :
  In y (insertByStart x l) <-> y = x \/ In y l.
Proof.
  induction l as [|z l IH]; cbn.
  - intuition congruence.
  - destruct (Qle_bool (startCm x) (startCm z)); cbn; [intuition congruence|].
    rewrite IH. intuition congruence.
Qed.

Lemma sortByStart_In (y : Segment) (l : list Segment) :
  In y (sortByStart l) <-> In y l.
Proof.
  induction l as [|x l IH]; cbn; [tauto|].
  rewrite insertByStart_In, IH. intuition congruence.
Qed.

Lemma insertByStart_Forall (P : Segment -> Prop) (x : Segment) (l : list Segment) :
  Forall P (insertByStart x l) <-> P x /\ Forall P l.
Proof.
  rewrite !Forall_forall. split.
  - intro H. split; [apply H; apply insertByStart_In; now left|].
    intros y Hy. apply H. apply insertByStart_In. now right.
  - intros [Hx Hl] y Hy. apply insertByStart_In in Hy. destruct Hy as [->|Hy]; auto.
Qed.

Lemma sortByStart_Forall (P : Segment -> Prop) (l : list Segment) :
  Forall P (sortByStart l) <-> Forall P l.
Proof.
  rewrite !Forall_forall. split; intros H y Hy; apply H; apply sortByStart_In; exact Hy.
Qed.

Lemma insertByStart_length (x : Segment) (s : list Segment) :
  length (insertByStart x s) = S (length s).
Proof.
  induction s as [|y s IHs]; cbn; [reflexivity|].
  destruct (Qle_bool (startCm x) (startCm y)); cbn; [reflexivity|]. now rewrite IHs.
Qed.

Lemma sortByStart_length (l : list Segment) : length (sortByStart l) = length l.
Proof.
  induction l as [|x l IH]; cbn; [reflexivity|].
  rewrite insertByStart_length. f_equal. exact IH.
Qed.

Lemma chain_cons_inv (a : Segment) (l : list Segment) :
  chain (a :: l) -> chain l /\ Forall (before a) l.
Proof. intro H. apply StronglySorted_inv in H. exact H. Qed.

Lemma insertByStart_chain (x : Segment) (s : list Segment) :
  chain s -> Forall (fun a : Segment => wellFormed a) s -> wellFormed x ->
  Forall (fun a : Segment => segmentsOverlap x a = false) s ->
  chain (insertByStart x s).
Proof.
  unfold wellFormed. induction s as [|y s IH]; intros Hc Hwf Hx Hno; cbn.
  - constructor; constructor.
  - apply chain_cons_inv in Hc. destruct Hc as [Hc Hy].
    inversion Hwf as [|? ? Hwy Hwf']; subst.
    inversion Hno as [|? ? Hny Hno']; subst.
    apply segmentsOverlap_false in Hny.
    destruct (Qle_bool (startCm x) (startCm y)) eqn:E.
    + apply Qle_bool_iff in E.
      constructor; [constructor; assumption|].
      constructor; [unfold before; destruct Hny; lra|].
      rewrite Forall_forall in *. intros a Ha. unfold before in *.
      specialize (Hy a Ha). specialize (Hwf' a Ha). specialize (Hno' a Ha).
      apply segmentsOverlap_false in Hno'. destruct Hno'; lra.
    + apply Qle_bool_false in E.
      constructor; [apply IH; assumption|].
      apply insertByStart_Forall. split; [|exact Hy].
      unfold before. destruct Hny; lra.
Qed.

Lemma noOverlap_cons_inv (a : Segment) (l : list Segment) :
  noOverlap (a :: l) ->
  noOverlap l /\ Forall (fun b : Segment => segmentsOverlap a b = false) l.
Proof.
  intro H. split.
  - intros i j x y Hij Hx Hy. apply (H (S i) (S j) x y); [lia|exact Hx|exact Hy].
  - apply Forall_forall. intros b Hb. apply In_nth_error in Hb. destruct Hb as [k Hk].
    apply (H 0%nat (S k) a b); [lia|reflexivity|exact Hk].
Qed.

Lemma sortByStart_chain (l : list Segment) :
  Forall (fun a : Segment => wellFormed a) l -> noOverlap l -> chain (sortByStart l).
Proof.
  induction l as [|x l IH]; intros Hwf Hno; cbn.
  - constructor.
  - inversion Hwf as [|? ? Hx Hwf']; subst.
    apply noOverlap_cons_inv in Hno. destruct Hno as [Hno Hx'].
    apply insertByStart_chain.
    + apply IH; assumption.
    + apply sortByStart_Forall. exact Hwf'.
    + exact Hx.
    + apply sortByStart_Forall. exact Hx'.
Qed.

(** *** The placement search *)

Lemma scanGaps_inl_shape (l : list Segment) (len : Q) :
  forall c sp, scanGaps l c len = inl sp ->
    endCm sp = startCm sp + len
    /\ (startCm sp = c \/ Exists (fun a : Segment => startCm sp = endCm a) l).
Proof.
  induction l as [|seg rest IH]; intros c sp H; cbn in H; [discriminate|].
  destruct (Qle_bool (c + len) (startCm seg)).
  - inversion H; subst. cbn. auto.
  - destruct (IH _ _ H) as [He [Hs|Hs]]; (split; [exact He|right]).
    + apply Exists_cons_hd. exact Hs.
    + apply Exists_cons_tl. exact Hs.
Qed.

Lemma scanGaps_inl_apart (l : list Segment) (len : Q) :
  chain l -> Forall (fun a : Segment => wellFormed a) l ->
  forall c sp, scanGaps l c len = inl sp ->
    Forall (fun a : Segment => segmentsOverlap a sp = false) l.
Proof.
  unfold wellFormed.
  induction l as [|seg rest IH]; intros Hc Hwf c sp H; [constructor|].
  apply chain_cons_inv in Hc. destruct Hc as [Hc Hseg].
  inversion Hwf as [|? ? Hw Hwf']; subst.
  cbn in H. destruct (Qle_bool (c + len) (startCm seg)) eqn:E.
  - apply Qle_bool_iff in E. inversion H; subst.
    constructor.
    + apply segmentsOverlap_false. cbn. left. exact E.
    + rewrite Forall_forall in *. intros a Ha. apply segmentsOverlap_false. cbn. left.
      specialize (Hseg a Ha). unfold before in Hseg. lra.
  - constructor; [|apply (IH Hc Hwf' _ _ H)].
    apply segmentsOverlap_false. right.
    destruct (scanGaps_inl_shape _ _ _ _ H) as [_ [Hs|Hs]]; [rewrite Hs; apply Qle_refl|].
    apply Exists_exists in Hs. destruct Hs as [a [Ha Hs]]. rewrite Hs.
    rewrite Forall_forall in Hseg, Hwf'.
    specialize (Hseg a Ha). specialize (Hwf' a Ha). unfold before in Hseg. lra.
Qed.

Lemma scanGaps_inr_after (l : list Segment) (len : Q) :
  chain l -> Forall (fun a : Segment => wellFormed a) l ->
  forall c c', Forall (fun a : Segment => c <= startCm a) l ->
    scanGaps l c len = inr c' ->
    c <= c' /\ Forall (fun a : Segment => endCm a <= c') l.
Proof.
  unfold wellFormed.
  induction l as [|seg rest IH]; intros Hc Hwf c c' Hlo H; cbn in H.
  - inversion H; subst. split; [apply Qle_refl|constructor].
  - apply chain_cons_inv in Hc. destruct Hc as [Hc Hseg].
    inversion Hwf as [|? ? Hw Hwf']; subst.
    inversion Hlo as [|? ? Hl Hlo']; subst.
    destruct (Qle_bool (c + len) (startCm seg)); [discriminate|].
    destruct (IH Hc Hwf' (endCm seg) c' Hseg H) as [H1 H2].
    split; [lra|]. constructor; assumption.
Qed.

Lemma scanGaps_inr_apart (l : list Segment) (len : Q) :
  chain l -> Forall (fun a : Segment => wellFormed a) l ->
  forall c c', scanGaps l c len = inr c' ->
    Forall (fun a : Segment => segmentsOverlap a (mkSpan c' (c' + len)) = false) l.
Proof.
  intros Hc Hwf c c' H.
  assert (Hend : Forall (fun a : Segment => endCm a <= c') l).
  { destruct l as [|seg rest]; [constructor|].
    apply chain_cons_inv in Hc. destruct Hc as [Hc Hseg].
    inversion Hwf as [|? ? Hw Hwf']; subst.
    cbn in H. destruct (Qle_bool (c + len) (startCm seg)); [discriminate|].
    destruct (scanGaps_inr_after rest len Hc Hwf' (endCm seg) c' Hseg H) as [H1 H2].
    constructor; assumption. }
  rewrite Forall_forall in *. intros a Ha. apply segmentsOverlap_false. cbn.
  right. apply Hend. exact Ha.
Qed.

Lemma existsb_false_Forall {A : Type} (p : A -> bool) (l : list A) :
  existsb p l = false -> Forall (fun a => p a = false) l.
Proof.
  induction l as [|a l IH]; cbn; intro H; [constructor|].
  apply orb_false_iff in H. destruct H. constructor; auto.
Qed.

(** A position returned by [findNextAvailablePosition] overlaps none of the
    segments, when these are well formed and pairwise apart. *)
Lemma findNextAvailablePosition_apart
  (segments : list Segment) (preferredStart preferredLength tubeLength : Q) (sp : Span) :
  Forall (fun a : Segment => wellFormed a) segments -> noOverlap segments ->
  findNextAvailablePosition segments preferredStart preferredLength tubeLength = Some sp ->
  Forall (fun a : Segment => segmentsOverlap a sp = false) segments.
Proof.
  intros Hwf Hno H.
  apply sortByStart_Forall.
  pose proof (sortByStart_chain _ Hwf Hno) as Hc.
  apply sortByStart_Forall in Hwf.
  unfold findNextAvailablePosition in H.
  destruct (Qle_bool (preferredStart + preferredLength) tubeLength
            && negb (existsb _ (sortByStart segments))) eqn:E.
  - inversion H; subst. apply andb_true_iff in E. destruct E as [_ E].
    apply negb_true_iff in E. apply existsb_false_Forall in E. exact E.
  - destruct (scanGaps (sortByStart segments) 0 preferredLength) as [found|c'] eqn:Es.
    + inversion H; subst. apply (scanGaps_inl_apart _ _ Hc Hwf _ _ Es).
    + destruct (Qle_bool (c' + preferredLength) tubeLength); [|discriminate].
      inversion H; subst. apply (scanGaps_inr_apart _ _ Hc Hwf _ _ Es).
Qed.





Example exampleEditor_add :
  manualSegments (onManualPointerDown exampleEditor (mkHit (-1) None) 100)
  = [mkSegment (mkSpan 0 2) 5; mkSegment (mkSpan 3 4) 5; mkSegment (mkSpan 2 (2 + 1)) 5].
Proof. reflexivity. Qed.

Example exampleEditor_drag_rejected :
  manualSegments (onManualPointerMove exampleEditor 100) = manualSegments exampleEditor.
Proof. reflexivity. Qed.

Example exampleEditor_drag_accepted :
  manualSegments (onManualPointerMove exampleEditor 240)
  = [mkSegment (mkSpan (inject_Z 6) (inject_Z 6 + (2 - 0))) 5; mkSegment (mkSpan 3 4) 5].
Proof. reflexivity. Qed.

Lemma exampleEditor_wellFormed :
  Forall (fun a : Segment => wellFormed a) (manualSegments exampleEditor).
Proof. repeat constructor. Qed.

Lemma exampleEditor_noOverlap : noOverlap (manualSegments exampleEditor).
Proof.
  intros i j a b Hij Ha Hb.
  destruct i as [|[|i]]; destruct j as [|[|j]]; cbn in Ha, Hb;
    try lia; try (destruct i; discriminate); try (destruct j; discriminate);
    inversion Ha; inversion Hb; subst; reflexivity.
Qed.



(** *** Well-formedness is itself kept by the editor *)

Lemma Forall_nth_error {A : Type} (P : A -> Prop) (l : list A) :
  Forall P l <-> forall k x, nth_error l k = Some x -> P x.
Proof.
  rewrite Forall_forall. split.
  - intros H k x Hk. apply H. apply nth_error_In with k. exact Hk.
  - intros H x Hx. apply In_nth_error in Hx. destruct Hx as [k Hk]. apply (H k x Hk).
Qed.

Lemma dragCandidate_ok (ed : Editor) (pos : Q) (seg : Segment) :
  segmentOk (manualTubeLengthCm ed) seg ->
  segmentOk (manualTubeLengthCm ed) (dragCandidate ed pos seg).
Proof.
  unfold segmentOk, dragCandidate. intros [Hw Ht].
  assert (Hgap : 0 < (if snapToGrid ed then 1 else 1 # 10)) by (destruct (snapToGrid ed); lra).
  set (minGap := if snapToGrid ed then 1 else 1 # 10) in *.
  destruct (manualDraggingHandle ed) as [[|]|]; cbn [startCm endCm span].
  - split; [|exact Ht].
    apply Qle_lt_trans with (endCm seg - minGap); [apply Q.le_min_r|lra].
  - split; [|apply Q.le_min_r].
    apply Q.min_glb_lt; [|lra].
    apply Qlt_le_trans with (startCm seg + minGap); [lra|apply Q.le_max_r].
  - split; [lra|].
    assert (H := Q.le_min_r pos (manualTubeLengthCm ed - (endCm seg - startCm seg))). lra.
Qed.

Lemma pointerMove_keeps_ok (ed : Editor) (x : Q) :
  Forall (fun a : Segment => segmentOk (manualTubeLengthCm ed) a) (manualSegments ed) ->
  Forall (fun a : Segment => segmentOk (manualTubeLengthCm ed) a)
    (manualSegments (onManualPointerMove ed x)).
Proof.
  intro H.
  destruct (Z.ltb_spec (manualDraggingIdx ed) 0) as [Hneg|Hpos].
  { unfold onManualPointerMove. apply Z.ltb_lt in Hneg. rewrite Hneg. exact H. }
  rewrite Forall_nth_error in *. intros k s Hk.
  rewrite pointerMove_nth in Hk by exact Hpos.
  destruct (nth_error (manualSegments ed) k) as [seg|] eqn:E; [|discriminate].
  cbn in Hk. inversion Hk as [Hs]. specialize (H k seg E).
  destruct (negb (Z.of_nat k =? manualDraggingIdx ed)%Z); [exact H|].
  destruct (negb (hasOverlap _ _ _)); [|exact H].
  apply dragCandidate_ok. exact H.
Qed.

Lemma scanGaps_inl_fits (l : list Segment) (len : Q) :
  forall c sp, scanGaps l c len = inl sp ->
    Exists (fun a : Segment => endCm sp <= startCm a) l.
Proof.
  induction l as [|seg rest IH]; intros c sp H; cbn in H; [discriminate|].
  destruct (Qle_bool (c + len) (startCm seg)) eqn:E.
  - inversion H; subst. apply Exists_cons_hd. cbn. apply Qle_bool_iff. exact E.
  - apply Exists_cons_tl. apply (IH _ _ H).
Qed.

Lemma findNextAvailablePosition_fits
  (segments : list Segment) (preferredStart preferredLength tubeLength : Q) (sp : Span) :
  Forall (fun a : Segment => segmentOk tubeLength a) segments ->
  findNextAvailablePosition segments preferredStart preferredLength tubeLength = Some sp ->
  endCm sp = startCm sp + preferredLength /\ endCm sp <= tubeLength.
Proof.
  intros Hok H. unfold findNextAvailablePosition in H.
  destruct (Qle_bool (preferredStart + preferredLength) tubeLength
            && negb (existsb _ (sortByStart segments))) eqn:E.
  - inversion H; subst. apply andb_true_iff in E. destruct E as [E _].
    apply Qle_bool_iff in E. cbn. auto.
  - destruct (scanGaps (sortByStart segments) 0 preferredLength) as [found|c'] eqn:Es.
    + inversion H; subst. split; [apply (scanGaps_inl_shape _ _ _ _ Es)|].
      pose proof (scanGaps_inl_fits _ _ _ _ Es) as Hex.
      apply Exists_exists in Hex. destruct Hex as [a [Ha Hle]].
      apply (proj1 (sortByStart_In _ _)) in Ha. rewrite Forall_forall in Hok.
      destruct (Hok a Ha) as [H1 H2]. lra.
    + destruct (Qle_bool (c' + preferredLength) tubeLength) eqn:E2; [|discriminate].
      inversion H; subst. apply Qle_bool_iff in E2. cbn. auto.
Qed.

(** X5: the hypothesis of the theorem on the segment editor is kept by the
    editor: pressing the pointer (which may add a segment) and moving it
    (which may move or resize one) leave each segment with
    [startCm < endCm] and ending inside the tube. *)
Lemma segment_mutations_keep_segments_ok (ed : Editor) (hit : Hit) (x : Q) :
  Forall (fun a : Segment => segmentOk (manualTubeLengthCm ed) a) (manualSegments ed) ->
  Forall (fun a : Segment => segmentOk (manualTubeLengthCm ed) a)
    (manualSegments (onManualPointerDown ed hit x))
  /\ Forall (fun a : Segment => segmentOk (manualTubeLengthCm ed) a)
       (manualSegments (onManualPointerMove ed x)).
Proof.
  intro H. split; [|apply pointerMove_keeps_ok; exact H].
  unfold onManualPointerDown.
  destruct (0 <=? segmentIdx hit)%Z; [exact H|]. cbv zeta.
  destruct (findNextAvailablePosition _ _ _ _) as [sp|] eqn:E; [|exact H].
  cbn [manualSegments withSegments]. apply Forall_app. split; [exact H|].
  constructor; [|constructor].
  destruct (findNextAvailablePosition_fits _ _ _ _ _ H E) as [H1 H2].
  unfold segmentOk. cbn. rewrite H1 in *. split; lra.
Qed.

(** ** The compiler: the one-second floor *)











(** ** The compiler: tiling of the tube *)













(** The zero-segment schedule does not tile the tube either: its single
    1500 ms step stands for 15 mm at 10 mm/s, whatever the tube length. *)
Example empty_schedule_length :
  map Step.duration (segmentsToEHDSteps (Some []) 10 50 None 30) = map Finite [1500]
  /\ Qsum (map (stepLengthMm 10) [1500]) == 15.
Proof. split; reflexivity. Qed.

(** ** Import validation *)

Lemma Math_round_bounds (lo hi : Z) (x : Q) :
  inject_Z lo <= x <= inject_Z hi ->
  inject_Z lo <= Math_round x <= inject_Z hi.
Proof.
  intros [H1 H2]. unfold Math_round, Math_roundZ. rewrite <- !Zle_Qle.
  split.
  - apply Qfloor_ge_Z. lra.
  - assert (H : (Qfloor (x + (1 # 2)) < hi + 1)%Z).
    { apply Qfloor_lt_Z. rewrite inject_Z_plus. change (inject_Z 1) with 1. lra. }
    lia.
Qed.

Lemma Math_round_ge (lo : Z) (x : Q) : inject_Z lo <= x -> inject_Z lo <= Math_round x.
Proof.
  intro H. unfold Math_round, Math_roundZ. rewrite <- Zle_Qle. apply Qfloor_ge_Z. lra.
Qed.

Lemma clamp_bounds (v lo hi : Q) : lo <= hi -> lo <= clamp v lo hi <= hi.
Proof.
  intro H. unfold clamp. split; [apply Q.le_max_l|].
  apply Q.max_lub; [exact H|apply Q.le_min_l].
Qed.

Lemma validateStep_spec (n : NormStep.t) :
  validateStep (Some n) = true <->
  exists c0 c1 d,
    n = NormStep.mk (Finite c0) (Finite c1) (Finite d)
    /\ 0 <= c0 <= 100 /\ 0 <= c1 <= 100 /\ 1 <= d.
Proof.
  destruct n as [c0 c1 d]. unfold validateStep. cbn [NormStep.ch0 NormStep.ch1 NormStep.duration].
  split.
  - intro H. rewrite !andb_true_iff in H.
    destruct H as [[[[F0 A1] A2] [[F1 B1] B2]] [Fd D]].
    destruct c0 as [c0| | |]; try discriminate.
    destruct c1 as [c1| | |]; try discriminate.
    destruct d as [d| | |]; try discriminate.
    unfold js_ge, js_le in *.
    apply Qle_bool_iff in A1, A2, B1, B2, D.
    exists c0, c1, d. repeat split; assumption.
  - intros [q0 [q1 [qd [E [[A1 A2] [[B1 B2] D]]]]]]. inversion E; subst.
    unfold js_ge, js_le, Number_isFinite.
    apply Qle_bool_iff in A1, A2, B1, B2, D.
    rewrite A1, A2, B1, B2, D. reflexivity.
Qed.

Lemma normalized_channel_valid (v : JsNumber) :
  v <> NaN ->
  exists c, js_round (js_clamp v (Finite 0) (Finite 100)) = Finite c /\ 0 <= c <= 100.
Proof.
  intro Hv. destruct v as [q| | |]; try congruence; cbn.
  - exists (Math_round (Qmax 0 (Qmin 100 q))). split; [reflexivity|].
    apply (Math_round_bounds 0 100). apply (clamp_bounds q 0 100). lra.
  - eexists. split; [reflexivity|]. apply (Math_round_bounds 0 100).
    split; apply Qle_bool_iff; reflexivity.
  - eexists. split; [reflexivity|]. apply (Math_round_bounds 0 100).
    split; apply Qle_bool_iff; reflexivity.
Qed.

Lemma normalized_channel_NaN :
  js_round (js_clamp NaN (Finite 0) (Finite 100)) = NaN.
Proof. reflexivity. Qed.

Lemma normalizeStep_valid (cal : Calibration.t) (s : JsonStep.t) :
  validateStep (Some (normalizeStep cal s)) = survives s.
Proof.
  destruct (survives s) eqn:E.
  - apply validateStep_spec. unfold survives in E.
    apply andb_true_iff in E. destruct E as [E Ed].
    apply andb_true_iff in E. destruct E as [E0 E1].
    destruct s as [c0 c1 d]. cbn [JsonStep.ch0 JsonStep.ch1 JsonStep.duration] in *.
    unfold normalizeStep. cbn [JsonStep.ch0 JsonStep.ch1 JsonStep.duration].
    destruct (normalized_channel_valid (nullish c0 (Finite 0))) as [q0 [R0 B0]].
    { destruct c0 as [[| | |]|]; cbn; congruence. }
    destruct (normalized_channel_valid (nullish c1 (Finite (Calibration.ch1 cal))))
      as [q1 [R1 B1]].
    { destruct c1 as [[| | |]|]; cbn; congruence. }
    rewrite R0, R1.
    assert (Hd : exists qd, js_round (Math_max (Finite 1) (nullish d (Finite 0))) = Finite qd
                            /\ 1 <= qd).
    { destruct d as [[q| | |]|]; try discriminate; cbn;
        (eexists; split; [reflexivity|]; apply (Math_round_ge 1);
         first [apply Q.le_max_l | apply Qle_bool_iff; reflexivity]). }
    destruct Hd as [qd [Rd Bd]]. rewrite Rd.
    exists q0, q1, qd. repeat split; tauto.
  - destruct (validateStep (Some (normalizeStep cal s))) eqn:V; [|reflexivity].
    apply validateStep_spec in V. destruct V as [q0 [q1 [qd [En _]]]].
    destruct s as [c0 c1 d]. unfold normalizeStep in En.
    cbn [JsonStep.ch0 JsonStep.ch1 JsonStep.duration] in En.
    unfold survives in E. cbn [JsonStep.ch0 JsonStep.ch1 JsonStep.duration] in E.
    inversion En as [[H0 H1 Hd]].
    destruct c0 as [[| | |]|]; try discriminate;
      destruct c1 as [[| | |]|]; try discriminate;
      destruct d as [[| | |]|]; try discriminate.
Qed.

Lemma filter_map_comm {A B : Type} (f : A -> B) (p : B -> bool) (l : list A) :
  filter p (map f l) = map f (filter (fun a => p (f a)) l).
Proof.
  induction l as [|a l IH]; cbn; [reflexivity|].
  destruct (p (f a)); cbn; now rewrite IH.
Qed.

(** C6, as the importer has it: [validateStep] accepts exactly the steps
    whose three fields are finite with ch0 and ch1 in [[0, 100]] and
    duration at least 1, but it is applied after normalization, which clamps
    and rounds: a candidate is kept if and only if none of its fields is
    [NaN] and its duration is not [Infinity]; the candidates that fail this
    are dropped without failing the import, and the others are kept, in
    order, in their normalized form. *)
Theorem import_keeps_normalized_steps :
  forall (calibrationParams : Calibration.t),
    (forall n : NormStep.t,
        validateStep (Some n) = true <->
        exists c0 c1 d,
          n = NormStep.mk (Finite c0) (Finite c1) (Finite d)
          /\ 0 <= c0 <= 100 /\ 0 <= c1 <= 100 /\ 1 <= d)
    /\ (forall s : JsonStep.t,
          validateStep (Some (normalizeStep calibrationParams s)) = survives s)
    /\ (forall json : Json.t,
          extractStepsFromJson calibrationParams json
          = map (normalizeStep calibrationParams)
              (filter survives (candidateSteps calibrationParams json)))
    /\ (forall (json : Json.t) (n : NormStep.t),
          In n (extractStepsFromJson calibrationParams json) ->
          validateStep (Some n) = true).
Proof.
  intro cal. split; [apply validateStep_spec|]. split; [apply normalizeStep_valid|].
  split.
  - intro json. unfold extractStepsFromJson. rewrite filter_map_comm.
    f_equal. apply filter_ext. intro s. apply normalizeStep_valid.
  - intros json n Hn. unfold extractStepsFromJson in Hn.
    apply filter_In in Hn. tauto.
Qed.

(** C6 as stated fails: the candidate [{ch0: 150, ch1: 70, duration: 100}]
    is outside the contract (ch0 > 100), yet the import keeps it, clamped to
    [{100, 70, 100}]. *)
Lemma out_of_range_step_is_kept :
  let s := JsonStep.mk (Some (Finite 150)) (Some (Finite 70)) (Some (Finite 100)) in
  let json := Json.mk (Some [s]) None None None None in
  ~ inContract s
  /\ extractStepsFromJson defaultCalibration json
     = [NormStep.mk (Finite 100) (Finite 70) (Finite 100)].
Proof.
  cbv zeta. split; [|reflexivity].
  intros [c0 [c1 [d [E0 [_ [_ [[_ H] _]]]]]]]. cbn in E0. inversion E0; subst.
  revert H. apply Qlt_not_le. reflexivity.
Qed.

(** A candidate whose duration is not finite is dropped and the rest of the
    file is kept. *)
Example non_finite_step_is_dropped :
  extractStepsFromJson defaultCalibration
    (Json.mk (Some [JsonStep.mk (Some (Finite 50)) None (Some PosInfinity);
                    JsonStep.mk (Some (Finite 50)) None (Some (Finite 2000))])
       None None None None)
  = [NormStep.mk (Finite 50) (Finite 70) (Finite 2000)].
Proof. reflexivity. Qed.

(** ** Intensity sampler *)

Lemma clamp_floor_bounds (v : Q) (n : Z) :
  (1 <= n)%Z ->
  (0 <= Math_floor (clamp v 0 (inject_Z (n - 1))) <= n - 1)%Z.
Proof.
  intro Hn. unfold Math_floor.
  assert (H0 : 0 <= inject_Z (n - 1)).
  { change 0 with (inject_Z 0). rewrite <- Zle_Qle. lia. }
  destruct (clamp_bounds v 0 (inject_Z (n - 1)) H0) as [H1 H2].
  split.
  - apply Qfloor_ge_Z. exact H1.
  - apply Z.le_trans with (Qfloor (inject_Z (n - 1))).
    + apply Qfloor_resp_le. exact H2.
    + rewrite Qfloor_Z. apply Z.le_refl.
Qed.

Lemma clamp_idem (v lo hi : Q) : lo <= hi -> clamp (clamp v lo hi) lo hi == clamp v lo hi.
Proof.
  intro H. destruct (clamp_bounds v lo hi H) as [H1 H2].
  unfold clamp at 1. rewrite (Q.min_r _ _ H2). apply Q.max_r. exact H1.
Qed.

Lemma clamp_inject_floor (v : Q) (n : Z) :
  (1 <= n)%Z ->
  Math_floor (clamp (inject_Z (Math_floor (clamp v 0 (inject_Z (n - 1))))) 0 (inject_Z (n - 1)))
  = Math_floor (clamp v 0 (inject_Z (n - 1))).
Proof.
  intro Hn. destruct (clamp_floor_bounds v n Hn) as [H1 H2].
  set (k := Math_floor (clamp v 0 (inject_Z (n - 1)))) in *.
  unfold Math_floor at 1.
  rewrite (Qfloor_comp _ (inject_Z k)); [apply Qfloor_Z|].
  unfold clamp. rewrite Q.min_r by (rewrite <- Zle_Qle; exact H2).
  apply Q.max_r. change 0 with (inject_Z 0). rewrite <- Zle_Qle. exact H1.
Qed.

Lemma dataAt_inside (data : list Z) (idx : Z) :
  (0 <= idx < Z.of_nat (length data))%Z -> exists v, dataAt data idx = Some v.
Proof.
  intros [H0 H1]. unfold dataAt.
  destruct (Z.ltb_spec idx 0) as [Hn|_]; [lia|].
  destruct (nth_error data (Z.to_nat idx)) as [v|] eqn:E; [now exists v|].
  apply nth_error_None in E. lia.
Qed.

Lemma pixelIndex_inside (imageData : ImageData.t) (x y : Q) :
  rasterOk imageData ->
  (0 <= pixelIndex imageData x y
   /\ pixelIndex imageData x y + 3 < Z.of_nat (length (ImageData.data imageData)))%Z.
Proof.
  intros [Hw [Hh Hlen]]. unfold pixelIndex. rewrite Hlen.
  pose proof (clamp_floor_bounds x _ Hw) as Hx.
  pose proof (clamp_floor_bounds y _ Hh) as Hy.
  set (xi := Math_floor (clamp x 0 (inject_Z (ImageData.width imageData - 1)))) in *.
  set (yi := Math_floor (clamp y 0 (inject_Z (ImageData.height imageData - 1)))) in *.
  nia.
Qed.

Lemma clamp_floor_nearest (v : Q) (n : Z) :
  (1 <= n)%Z -> Math_floor (clamp v 0 (inject_Z (n - 1))) = nearestPixel n v.
Proof.
  intro Hn. unfold Math_floor, nearestPixel, clamp.
  assert (H0 : 0 <= inject_Z (n - 1)).
  { change 0 with (inject_Z 0). rewrite <- Zle_Qle. lia. }
  destruct (Qltb v 0) eqn:E1.
  - apply Qltb_lt in E1. rewrite (Qfloor_comp _ 0); [reflexivity|].
    rewrite (Q.min_r (inject_Z (n - 1)) v) by lra. apply Q.max_l. lra.
  - apply Qltb_ge in E1. destruct (Qltb (inject_Z (n - 1)) v) eqn:E2.
    + apply Qltb_lt in E2. rewrite (Qfloor_comp _ (inject_Z (n - 1))); [apply Qfloor_Z|].
      rewrite (Q.min_l (inject_Z (n - 1)) v) by lra. apply Q.max_r. exact H0.
    + apply Qltb_ge in E2. apply Qfloor_comp.
      rewrite (Q.min_r (inject_Z (n - 1)) v) by lra. apply Q.max_r. exact E1.
Qed.

Lemma nearestPixel_inject (n k : Z) :
  (0 <= k <= n - 1)%Z -> nearestPixel n (inject_Z k) = k.
Proof.
  intros [H0 H1]. unfold nearestPixel.
  assert (E1 : Qltb (inject_Z k) 0 = false).
  { apply Qltb_ge. change 0 with (inject_Z 0). rewrite <- Zle_Qle. exact H0. }
  assert (E2 : Qltb (inject_Z (n - 1)) (inject_Z k) = false).
  { apply Qltb_ge. rewrite <- Zle_Qle. exact H1. }
  rewrite E1, E2. apply Qfloor_Z.
Qed.

Lemma nearestPixel_spec (n : Z) (v : Q) :
  (v < 0 -> nearestPixel n v = 0%Z)
  /\ (0 <= v -> inject_Z (n - 1) < v -> nearestPixel n v = (n - 1)%Z)
  /\ (0 <= v <= inject_Z (n - 1) ->
      inject_Z (nearestPixel n v) <= v < inject_Z (nearestPixel n v) + 1).
Proof.
  unfold nearestPixel. split; [|split].
  - intro H. apply Qltb_lt in H. rewrite H. reflexivity.
  - intros H0 H1. apply Qltb_ge in H0. apply Qltb_lt in H1. rewrite H0, H1. reflexivity.
  - intros [H0 H1]. apply Qltb_ge in H0. apply Qltb_ge in H1. rewrite H0, H1.
    split; [apply Qfloor_le|].
    pose proof (Qlt_floor v) as H. rewrite inject_Z_plus in H. exact H.
Qed.

Lemma dataAt_nth_error (data : list Z) (idx : Z) :
  (0 <= idx)%Z -> dataAt data idx = nth_error data (Z.to_nat idx).
Proof.
  intro H. unfold dataAt. destruct (Z.ltb_spec idx 0); [lia|reflexivity].
Qed.

(** C9: on a raster with at least one pixel each way and four bytes per
    pixel, for every coordinate pair [(x, y)], also outside the raster,
    [grayscaleAt] reads the pixel [(xi, yi)] nearest to [(x, y)]: column 0
    for [x < 0], column [width - 1] for [x > width - 1], the column [xi]
    with [xi <= x < xi + 1] in between, and likewise for the rows.  The
    three channel bytes are read
    inside the array, at offsets [4 (yi width + xi)], [+ 1] and [+ 2], the
    result is [(0.299 R + 0.587 G + 0.114 B) / 255], and it is the sample at
    the pixel [(xi, yi)] itself, that is, at the nearest edge pixel when
    [(x, y)] lies outside. *)
Theorem grayscaleAt_clamps_in_bounds :
  forall (imageData : ImageData.t) (x y : Q),
    rasterOk imageData ->
    let width := ImageData.width imageData in
    let height := ImageData.height imageData in
    let data := ImageData.data imageData in
    let xi := nearestPixel width x in
    let yi := nearestPixel height y in
    let idx := ((yi * width + xi) * 4)%Z in
    ((x < 0 -> xi = 0%Z)
     /\ (inject_Z (width - 1) < x -> xi = (width - 1)%Z)
     /\ (0 <= x <= inject_Z (width - 1) -> inject_Z xi <= x < inject_Z xi + 1))
    /\ ((y < 0 -> yi = 0%Z)
        /\ (inject_Z (height - 1) < y -> yi = (height - 1)%Z)
        /\ (0 <= y <= inject_Z (height - 1) -> inject_Z yi <= y < inject_Z yi + 1))
    /\ (0 <= xi <= width - 1)%Z /\ (0 <= yi <= height - 1)%Z
    /\ (0 <= idx /\ idx + 2 < Z.of_nat (length data))%Z
    /\ (exists r g b : Z,
          nth_error data (Z.to_nat idx) = Some r
          /\ nth_error data (Z.to_nat (idx + 1)) = Some g
          /\ nth_error data (Z.to_nat (idx + 2)) = Some b
          /\ grayscaleAt imageData x y
             = Some (((299 # 1000) * inject_Z r + (587 # 1000) * inject_Z g
                      + (114 # 1000) * inject_Z b) / 255))
    /\ grayscaleAt imageData x y = grayscaleAt imageData (inject_Z xi) (inject_Z yi).
Proof.
  intros imageData x y Hok width height data xi yi idx.
  pose proof Hok as [Hw [Hh Hlen]].
  pose proof (pixelIndex_inside imageData x y Hok) as [Hi0 Hi3].
  assert (Eidx : pixelIndex imageData x y = idx).
  { unfold pixelIndex. fold width height.
    rewrite (clamp_floor_nearest x width Hw), (clamp_floor_nearest y height Hh).
    reflexivity. }
  rewrite Eidx in Hi0, Hi3. fold data in Hi3.
  assert (Hxi : (0 <= xi <= width - 1)%Z).
  { unfold xi. rewrite <- (clamp_floor_nearest x width Hw).
    apply clamp_floor_bounds. exact Hw. }
  assert (Hyi : (0 <= yi <= height - 1)%Z).
  { unfold yi. rewrite <- (clamp_floor_nearest y height Hh).
    apply clamp_floor_bounds. exact Hh. }
  assert (Hnear : forall (n : Z) (v : Q), (1 <= n)%Z ->
             (v < 0 -> nearestPixel n v = 0%Z)
             /\ (inject_Z (n - 1) < v -> nearestPixel n v = (n - 1)%Z)
             /\ (0 <= v <= inject_Z (n - 1) ->
                 inject_Z (nearestPixel n v) <= v < inject_Z (nearestPixel n v) + 1)).
  { intros n v Hn. destruct (nearestPixel_spec n v) as [N1 [N2 N3]].
    split; [exact N1|]. split; [|exact N3].
    intro Hv. apply N2; [|exact Hv].
    assert (H0 : 0 <= inject_Z (n - 1)).
    { change 0 with (inject_Z 0). rewrite <- Zle_Qle. lia. }
    lra. }
  split; [exact (Hnear width x Hw)|]. split; [exact (Hnear height y Hh)|].
  split; [exact Hxi|]. split; [exact Hyi|]. split; [lia|].
  split.
  - destruct (dataAt_inside data idx) as [r Hr]; [lia|].
    destruct (dataAt_inside data (idx + 1)) as [g Hg]; [lia|].
    destruct (dataAt_inside data (idx + 2)) as [b Hb]; [lia|].
    exists r, g, b.
    rewrite <- !dataAt_nth_error by lia.
    repeat split; try assumption.
    unfold grayscaleAt. fold data. rewrite Eidx, Hr, Hg, Hb. reflexivity.
  - assert (E2 : pixelIndex imageData (inject_Z xi) (inject_Z yi) = idx).
    { unfold pixelIndex. fold width height.
      rewrite (clamp_floor_nearest _ width Hw), (clamp_floor_nearest _ height Hh).
      rewrite (nearestPixel_inject width xi Hxi), (nearestPixel_inject height yi Hyi).
      reflexivity. }
    unfold grayscaleAt. rewrite Eidx, E2. reflexivity.
Qed.

(** The theorem applies to the two-pixel raster, sampled far to the right
    of it and above it. *)
Lemma grayscaleAt_clamps_in_bounds_witness :
  grayscaleAt exampleRaster 5 (-3) = grayscaleAt exampleRaster (inject_Z 1) (inject_Z 0).
Proof.
  refine (proj2 (proj2 (proj2 (proj2 (proj2 (proj2
            (grayscaleAt_clamps_in_bounds exampleRaster 5 (-3) _))))))).
  unfold rasterOk. cbn. lia.
Defined.

Example grayscaleAt_outside_is_edge_pixel :
  match grayscaleAt exampleRaster 5 (-3) with
  | Some v => v == 114 # 1000
  | None => False
  end
  /\ match grayscaleAt exampleRaster (-7 # 2) 9 with
     | Some v => v == 299 # 1000
     | None => False
     end.
Proof. split; vm_compute; reflexivity. Qed.

(** ** Continuous synthesizer: the emission loop *)

Lemma strideLoop_strides {St : Type} (n step : nat) (body : nat -> St -> St) :
  (1 <= step)%nat ->
  forall (fuel i : nat) (st : St),
    (emissionCount (n - i) step <= fuel)%nat ->
    strideLoop fuel n step i body st
    = fold_left (fun st j => body j st) (strides (emissionCount (n - i) step) step i) st.
Proof.
  intros Hstep. unfold emissionCount.
  assert (Hc0 : forall m, (m = 0 -> (m + step - 1) / step = 0)%nat).
  { intros m ->. apply Nat.div_small. lia. }
  assert (HcS : forall m, (0 < m -> (m + step - 1) / step
                                    = S ((m - step + step - 1) / step))%nat).
  { intros m Hm. destruct (Nat.le_gt_cases step m) as [Hle|Hgt].
    - replace (m + step - 1)%nat with ((m - step + step - 1) + 1 * step)%nat by lia.
      rewrite Nat.div_add by lia. lia.
    - replace (m - step)%nat with 0%nat by lia.
      rewrite (Nat.div_small (0 + step - 1)) by lia.
      symmetry. apply (Nat.div_unique _ _ 1 (m - 1)); lia. }
  induction fuel as [|fuel IH]; intros i st Hfuel.
  - cbn. replace ((n - i + step - 1) / step)%nat with 0%nat by lia. reflexivity.
  - cbn [strideLoop]. destruct (Nat.ltb_spec i n) as [Hlt|Hge].
    + rewrite (HcS (n - i)%nat) in * by lia.
      replace (n - i - step)%nat with (n - (i + step))%nat in * by lia.
      cbn [strides fold_left]. apply IH. lia.
    + rewrite (Hc0 (n - i)%nat) by lia. reflexivity.
Qed.

Lemma emissionCount_le (n step : nat) : (1 <= step -> emissionCount n step <= n)%nat.
Proof.
  intro H. unfold emissionCount.
  destruct n as [|n]; [rewrite Nat.div_small; lia|].
  apply Nat.Div0.div_le_upper_bound. nia.
Qed.

Lemma strides_from_zero (count step : nat) :
  forall i, strides count step i = map (fun k => (i + k * step)%nat) (seq 0 count).
Proof.
  induction count as [|c IH]; intro i; cbn [strides seq map]; [reflexivity|].
  rewrite Nat.add_0_r. f_equal. rewrite IH. rewrite <- seq_shift, map_map.
  apply map_ext. intro k. lia.
Qed.

Lemma strides_one (count : nat) : forall i, strides count 1 i = seq i count.
Proof.
  induction count as [|c IH]; intro i; cbn [strides seq]; [reflexivity|].
  rewrite IH. replace (i + 1)%nat with (S i) by lia. reflexivity.
Qed.

Lemma strideLoop_emission {St : Type} (n step : nat) (body : nat -> St -> St) (st : St) :
  (1 <= step)%nat ->
  strideLoop n n step 0 body st
  = fold_left (fun st j => body j st) (emissionIndices n step) st.
Proof.
  intro Hstep. rewrite strideLoop_strides by
    (try exact Hstep; rewrite Nat.sub_0_r; apply emissionCount_le; exact Hstep).
  rewrite Nat.sub_0_r. rewrite strides_from_zero. reflexivity.
Qed.

Lemma strideLoop_every {St : Type} (n : nat) (body : nat -> St -> St) (st : St) :
  strideLoop n n 1 0 body st = fold_left (fun st j => body j st) (seq 0 n) st.
Proof.
  rewrite strideLoop_strides.
  - rewrite Nat.sub_0_r. rewrite strides_one.
    unfold emissionCount. replace (n + 1 - 1)%nat with n by lia.
    rewrite Nat.div_1_r. reflexivity.
  - lia.
  - rewrite Nat.sub_0_r. apply emissionCount_le. lia.
Qed.

Lemma stepIdx_pos (P : Synth.t) : (1 <= stepIdx P)%nat.
Proof. unfold stepIdx. lia. Qed.

(** ** PWM *)

Lemma pwm_fold_drops (P : Synth.t) (f : list Q) (idxs : list nat) :
  forall (drops : list Drop.t) (g : list Q),
    fst (fold_left (fun st j => pwmBody P f j st) idxs (drops, g))
    = drops ++ map (fun i => dropAt P i (pwmWidthMm P (clamp (nth i f 0) 0 1)) 1) idxs.
Proof.
  induction idxs as [|i idxs IH]; intros drops g; cbn [fold_left map].
  - now rewrite app_nil_r.
  - unfold pwmBody at 2. rewrite IH. rewrite <- app_assoc. reflexivity.
Qed.

Lemma pwmWidthMm_formula (P : Synth.t) (v : Q) :
  0 < Synth.mmPerPixel P -> Synth.widthMinMm P <= Synth.widthMaxMm P ->
  pwmWidthMm P v
  == Synth.widthMinMm P + v * (Synth.widthMaxMm P - Synth.widthMinMm P).
Proof.
  intros Hm Hw. unfold pwmWidthMm, widthMinPx, widthMaxPx.
  set (m := Synth.mmPerPixel P) in *.
  set (a := Synth.widthMinMm P) in *. set (b := Synth.widthMaxMm P) in *.
  assert (Hr : 0 <= b / m - a / m).
  { setoid_replace (b / m - a / m) with ((b - a) * / m) by (field; lra).
    apply Qmult_le_0_compat; [lra|]. apply Qlt_le_weak. apply Qinv_lt_0_compat. exact Hm. }
  rewrite (Q.max_r _ _ Hr). field. lra.
Qed.

Lemma clamp_clampedTo (lo hi x : Q) : lo <= hi -> clampedTo lo hi x (clamp x lo hi).
Proof.
  intro H. unfold clampedTo, clamp. split; [|split].
  - intro Hx. apply Q.max_l. apply Qle_trans with x; [apply Q.le_min_r|lra].
  - intro Hx. rewrite (Q.min_l hi x) by lra. apply Q.max_r. exact H.
  - intros [H1 H2]. rewrite (Q.min_r hi x) by exact H2. apply Q.max_r. exact H1.
Qed.

Lemma clamp_mono (lo hi x1 x2 : Q) : x1 <= x2 -> clamp x1 lo hi <= clamp x2 lo hi.
Proof.
  intro H. unfold clamp. apply Q.max_le_compat_l. apply Q.min_le_compat_l. exact H.
Qed.

Lemma Forall2_map_r {A B : Type} (R : A -> B -> Prop) (g : A -> B) (l : list A) :
  (forall a, In a l -> R a (g a)) -> Forall2 R l (map g l).
Proof.
  induction l as [|a l IH]; intro H; cbn [map]; constructor.
  - apply H. left. reflexivity.
  - apply IH. intros b Hb. apply H. right. exact Hb.
Qed.

Lemma In_combine_map {A B : Type} (g : A -> B) (l : list A) (a : A) (b : B) :
  In (a, b) (combine l (map g l)) -> b = g a.
Proof.
  induction l as [|x l IH]; cbn [map combine]; intro H; [destruct H|].
  destruct H as [H|H]; [inversion H; reflexivity|apply IH; exact H].
Qed.

(** C8: in PWM mode one droplet is emitted for every [stepIdx]-th sample.
    For parameters with [mmPerPixel > 0] and [widthMin <= widthMax], the
    droplet of sample [i] has amplitude 1 and width
    [widthMin + v (widthMax - widthMin)], where [v] is the intensity of
    sample [i] clamped into [[0, 1]]; and of two emitted droplets the one of
    the sample with the larger intensity is at least as wide. *)
Theorem pwm_amplitude_and_width :
  forall (P : Synth.t) (f : list Q),
    Synth.mode P = PWM ->
    0 < Synth.mmPerPixel P ->
    Synth.widthMinMm P <= Synth.widthMaxMm P ->
    let drops := fst (synthesize P f) in
    let idxs := emissionIndices (length f) (stepIdx P) in
    Forall2 (fun i d =>
               Drop.s_px d = inject_Z (Z.of_nat i) * Synth.sampleStepPx P
               /\ Drop.amplitude d = 1
               /\ exists v : Q,
                    clampedTo 0 1 (nth i f 0) v
                    /\ Drop.width_mm d
                       == Synth.widthMinMm P
                          + v * (Synth.widthMaxMm P - Synth.widthMinMm P))
      idxs drops
    /\ (forall (i1 i2 : nat) (d1 d2 : Drop.t),
          In (i1, d1) (combine idxs drops) -> In (i2, d2) (combine idxs drops) ->
          nth i1 f 0 <= nth i2 f 0 ->
          Drop.width_mm d1 <= Drop.width_mm d2).
Proof.
  intros P f Hmode Hm Hw drops idxs.
  assert (Hdrops : drops
                   = map (fun i => dropAt P i (pwmWidthMm P (clamp (nth i f 0) 0 1)) 1) idxs).
  { unfold drops, idxs, synthesize. rewrite Hmode.
    rewrite strideLoop_emission by apply stepIdx_pos.
    rewrite pwm_fold_drops. reflexivity. }
  rewrite Hdrops. split.
  - apply Forall2_map_r. intros i _. cbn [dropAt Drop.s_px Drop.amplitude Drop.width_mm].
    split; [reflexivity|]. split; [reflexivity|].
    exists (clamp (nth i f 0) 0 1). split; [apply clamp_clampedTo; lra|].
    apply pwmWidthMm_formula; assumption.
  - intros i1 i2 d1 d2 H1 H2 Hle.
    apply In_combine_map in H1. apply In_combine_map in H2. subst d1 d2.
    cbn [dropAt Drop.width_mm]. rewrite !pwmWidthMm_formula by assumption.
    pose proof (clamp_mono 0 1 _ _ Hle) as Hc.
    assert (H : 0 <= (clamp (nth i2 f 0) 0 1 - clamp (nth i1 f 0) 0 1)
                     * (Synth.widthMaxMm P - Synth.widthMinMm P))
      by (apply Qmult_le_0_compat; lra).
    lra.
Qed.

(** The theorem applies to the parameters the component starts with: the
    droplet of the first sample (intensity 1/4) is not wider than that of
    the second one (intensity 1/2). *)
Lemma pwm_amplitude_and_width_witness :
  Drop.width_mm (nth 0 (fst (synthesize defaultSynth [1 # 4; 1 # 2; 3 # 4; 2; 0; 1 # 3]))
                   (Drop.mk 0 0 0 0 0))
  <= Drop.width_mm (nth 1 (fst (synthesize defaultSynth [1 # 4; 1 # 2; 3 # 4; 2; 0; 1 # 3]))
                      (Drop.mk 0 0 0 0 0)).
Proof.
  refine (proj2 (pwm_amplitude_and_width defaultSynth
                   [1 # 4; 1 # 2; 3 # 4; 2; 0; 1 # 3] _ _ _) 0%nat 1%nat _ _ _ _ _).
  - reflexivity.
  - reflexivity.
  - discriminate.
  - vm_compute. left. reflexivity.
  - vm_compute. right. left. reflexivity.
  - discriminate.
Defined.

Example pwm_example_widths :
  map Drop.width_mm (fst (synthesize defaultSynth [1 # 4; 1 # 2; 3 # 4; 2; 0; 1 # 3]))
  = map (pwmWidthMm defaultSynth) [1 # 4; 1 # 2; 3 # 4; 1; 0; 1 # 3]
  /\ stepIdx defaultSynth = 1%nat.
Proof. split; reflexivity. Qed.

(** ** DITHER *)

Lemma setNth_length {A : Type} (i : nat) (v : A) (l : list A) :
  length (setNth i v l) = length l.
Proof.
  revert i. induction l as [|x l IH]; intros [|i]; cbn; auto.
Qed.

Lemma setNth_nth {A : Type} (i j : nat) (v d : A) (l : list A) :
  nth j (setNth i v l) d
  = if ((j =? i) && (i <? length l))%nat then v else nth j l d.
Proof.
  revert i j. induction l as [|x l IH]; intros i j.
  - cbn. rewrite andb_false_r. destruct i; reflexivity.
  - destruct i as [|i]; destruct j as [|j]; cbn [setNth nth length]; try reflexivity.
    rewrite IH. reflexivity.
Qed.

Lemma setNth_at_end {A : Type} (i : nat) (a : list A) (v x : A) (b : list A) :
  length a = i -> setNth i v (a ++ x :: b) = a ++ v :: b.
Proof.
  intros <-. induction a as [|y a IH]; cbn; [reflexivity|]. now rewrite IH.
Qed.

(** One write of the diffusion. *)
Lemma diffuseTo_length (i k : nat) (err : Q) (fc : list Q) :
  length (diffuseTo i err fc k) = length fc.
Proof.
  unfold diffuseTo. destruct (i + k <? length fc)%nat; [apply setNth_length|reflexivity].
Qed.

Lemma diffuseTo_nth (i k j : nat) (err : Q) (fc : list Q) :
  nth j (diffuseTo i err fc k) 0
  = if ((j =? i + k) && (j <? length fc))%nat
    then nth j fc 0 + err * nth (k - 1) weights 0
    else nth j fc 0.
Proof.
  unfold diffuseTo.
  destruct (Nat.ltb_spec (i + k) (length fc)) as [Hlt|Hge].
  - rewrite setNth_nth. destruct (Nat.eqb_spec j (i + k)) as [->|Hne]; cbn [andb].
    + apply Nat.ltb_lt in Hlt. rewrite Hlt. reflexivity.
    + reflexivity.
  - destruct (Nat.eqb_spec j (i + k)) as [->|Hne]; cbn [andb]; [|reflexivity].
    destruct (Nat.ltb_spec (i + k) (length fc)); [lia|reflexivity].
Qed.

Lemma diffuse_fold_length (i : nat) (err : Q) (ks : list nat) :
  forall fc, length (fold_left (diffuseTo i err) ks fc) = length fc.
Proof.
  induction ks as [|k ks IH]; intro fc; cbn [fold_left]; [reflexivity|].
  rewrite IH. apply diffuseTo_length.
Qed.

Lemma diffuse_fold_nth (i j : nat) (err : Q) (ks : list nat) :
  NoDup ks -> Forall (fun k => 1 <= k)%nat ks ->
  forall fc,
    nth j (fold_left (diffuseTo i err) ks fc) 0
    = if (existsb (fun k => j =? i + k)%nat ks && (j <? length fc))%nat
      then nth j fc 0 + err * nth (j - i - 1) weights 0
      else nth j fc 0.
Proof.
  induction ks as [|k ks IH]; intros Hnd Hpos fc; cbn [fold_left existsb].
  - reflexivity.
  - inversion Hnd as [|? ? Hnotin Hnd']; subst. inversion Hpos as [|? ? Hk Hpos']; subst.
    rewrite (IH Hnd' Hpos'). rewrite diffuseTo_length, diffuseTo_nth.
    destruct (Nat.eqb_spec j (i + k)) as [->|Hne]; cbn [orb andb]; [|reflexivity].
    assert (Hex : existsb (fun k0 => (i + k =? i + k0)%nat) ks = false).
    { destruct (existsb _ ks) eqn:E; [|reflexivity].
      apply existsb_exists in E. destruct E as [k0 [Hin E]].
      apply Nat.eqb_eq in E. replace k0 with k in Hin by lia. contradiction. }
    rewrite Hex. cbn [andb].
    replace (i + k - i - 1)%nat with (k - 1)%nat by lia. reflexivity.
Qed.

Lemma diffuse_length (i : nat) (err : Q) (fc : list Q) :
  length (diffuse i err fc) = length fc.
Proof. apply diffuse_fold_length. Qed.

Lemma diffuse_nth (i j : nat) (err : Q) (fc : list Q) :
  nth j (diffuse i err fc) 0
  = if ((i <? j) && (j <=? i + 4) && (j <? length fc))%nat
    then nth j fc 0 + err * nth (j - i - 1) weights 0
    else nth j fc 0.
Proof.
  unfold diffuse. rewrite diffuse_fold_nth.
  - assert (E : existsb (fun k => (j =? i + k)%nat) [1; 2; 3; 4]%nat
                = ((i <? j) && (j <=? i + 4))%nat).
    { cbn [existsb].
      destruct (Nat.ltb_spec i j); destruct (Nat.leb_spec j (i + 4));
        destruct (Nat.eqb_spec j (i + 1)); destruct (Nat.eqb_spec j (i + 2));
        destruct (Nat.eqb_spec j (i + 3)); destruct (Nat.eqb_spec j (i + 4));
        cbn; try reflexivity; lia. }
    rewrite E. reflexivity.
  - repeat constructor; cbn; lia.
  - repeat constructor.
Qed.

Lemma errorsBefore_length (thr : Q) (f : list Q) (i : nat) :
  length (errorsBefore thr f i) = i.
Proof. induction i as [|i IH]; cbn; [reflexivity|]. now rewrite IH. Qed.

Lemma errorsBefore_nth (thr : Q) (f : list Q) (j : nat) :
  forall m, (m < j)%nat -> nth m (errorsBefore thr f j) 0 = errAt thr f (j - 1 - m).
Proof.
  induction j as [|j IH]; intros m Hm; [lia|].
  cbn [errorsBefore]. destruct m as [|m]; cbn [nth].
  - replace (S j - 1 - 0)%nat with j by lia. reflexivity.
  - rewrite IH by lia. f_equal. lia.
Qed.

Lemma skipn_cons_nth {A : Type} (d : A) (l : list A) :
  forall n, (n < length l)%nat -> skipn n l = nth n l d :: skipn (S n) l.
Proof.
  induction l as [|x l IH]; intros n Hn; cbn in Hn; [lia|].
  destruct n as [|n]; [reflexivity|].
  cbn [skipn nth]. rewrite (IH n) by lia. reflexivity.
Qed.

Lemma combine_nth_lt {A B : Type} (da : A) (db : B) (la : list A) (lb : list B) :
  forall n, (n < length la)%nat -> (n < length lb)%nat ->
            nth n (combine la lb) (da, db) = (nth n la da, nth n lb db).
Proof.
  revert lb. induction la as [|a la IH]; intros [|b lb] n Ha Hb; cbn in *; try lia.
  destruct n as [|n]; [reflexivity|]. apply IH; lia.
Qed.

Lemma pending_start (thr : Q) (f : list Q) (j : nat) : pendingValue thr f j 0 = nth j f 0.
Proof.
  unfold pendingValue. rewrite Nat.sub_0_r.
  rewrite skipn_all2; [reflexivity|].
  rewrite length_combine, errorsBefore_length. lia.
Qed.

Lemma pending_done (thr : Q) (f : list Q) (j i : nat) :
  (j <= i)%nat ->
  pendingValue thr f j i = diffusedValue (nth j f 0) (errorsBefore thr f j).
Proof.
  intro H. unfold pendingValue, diffusedValue.
  replace (j - i)%nat with 0%nat by lia. reflexivity.
Qed.

Lemma pending_same (thr : Q) (f : list Q) (j i : nat) :
  (j <= i \/ i + 4 < j)%nat -> pendingValue thr f j (S i) = pendingValue thr f j i.
Proof.
  intros [H|H].
  - rewrite !pending_done by lia. reflexivity.
  - unfold pendingValue.
    rewrite !skipn_all2; [reflexivity| |];
      rewrite length_combine, errorsBefore_length; cbn [weights length]; lia.
Qed.

Lemma pending_step (thr : Q) (f : list Q) (j i : nat) :
  (i < j <= i + 4)%nat ->
  pendingValue thr f j (S i)
  = pendingValue thr f j i + errAt thr f i * nth (j - i - 1) weights 0.
Proof.
  intros H. unfold pendingValue.
  assert (Hlen : (j - S i < length (combine (errorsBefore thr f j) weights))%nat).
  { rewrite length_combine, errorsBefore_length. cbn [weights length]. lia. }
  rewrite (skipn_cons_nth (0, 0) _ _ Hlen).
  replace (S (j - S i)) with (j - i)%nat by lia.
  cbn [map fold_right].
  rewrite combine_nth_lt by (rewrite ?errorsBefore_length; cbn [weights length]; lia).
  cbn [fst snd]. rewrite errorsBefore_nth by lia.
  replace (j - 1 - (j - S i))%nat with i by lia.
  replace (j - S i)%nat with (j - i - 1)%nat by lia. reflexivity.
Qed.

Lemma quantOut_cases (thr raw : Q) : quantOut thr raw = 1 \/ quantOut thr raw = 0.
Proof. unfold quantOut. destruct (Qgeb _ _); auto. Qed.

Lemma quantOut_gate (thr raw : Q) :
  Qltb 0 (quantOut thr raw) = Qeq_bool (quantOut thr raw) 1.
Proof. destruct (quantOut_cases thr raw) as [-> | ->]; reflexivity. Qed.

(** The state of the DITHER loop after its first [i] rounds. *)
Lemma dither_rounds (P : Synth.t) (f : list Q) :
  forall i, (i <= length f)%nat ->
    exists fc : list Q,
      fold_left (fun st j => ditherBody P j st) (seq 0 i)
        (f, ([], repeat 0 (length f)))
      = (fc,
         (map (fun j => dropAt P j (midWidthMm P) 1) (filter (ditherEmits P f) (seq 0 i)),
          map (quantizedAt (Synth.threshold P) f) (seq 0 i) ++ repeat 0 (length f - i)))
      /\ length fc = length f
      /\ forall j, (j < length f)%nat ->
                   nth j fc 0 = pendingValue (Synth.threshold P) f j i.
Proof.
  set (thr := Synth.threshold P). set (n := length f).
  induction i as [|i IH]; intro Hi.
  - exists f. cbn [seq fold_left filter map app]. rewrite Nat.sub_0_r.
    split; [reflexivity|]. split; [reflexivity|].
    intros j _. symmetry. apply pending_start.
  - destruct (IH ltac:(lia)) as [fc [Hst [Hlen Hval]]].
    exists (diffuse i (errAt thr f i) fc).
    rewrite seq_S, fold_left_app, Hst. cbn [Nat.add fold_left].
    assert (Hraw : nth i fc 0 = diffusedValue (nth i f 0) (errorsBefore thr f i)).
    { rewrite Hval by lia. apply pending_done. lia. }
    split; [|split].
    + unfold ditherBody. rewrite Hraw. fold thr.
      change (if Qgeb (clamp (diffusedValue (nth i f 0) (errorsBefore thr f i)) 0 1) thr
              then 1 else 0)
        with (quantizedAt thr f i).
      change (clamp (diffusedValue (nth i f 0) (errorsBefore thr f i)) 0 1
              - quantizedAt thr f i)
        with (errAt thr f i).
      f_equal. f_equal.
      * rewrite filter_app, map_app. cbn [filter].
        assert (Hgate : ((i mod stepIdx P =? 0)%nat && Qltb 0 (quantizedAt thr f i))%bool
                        = ditherEmits P f i).
        { unfold ditherEmits, quantizedAt. fold thr. now rewrite quantOut_gate. }
        rewrite Hgate.
        destruct (ditherEmits P f i); cbn [map];
          [reflexivity|now rewrite app_nil_r].
      * replace (n - i)%nat with (S (n - S i)) by lia. cbn [repeat].
        rewrite map_app. cbn [map]. rewrite <- app_assoc. cbn [app].
        apply setNth_at_end. rewrite length_map, length_seq. reflexivity.
    + rewrite diffuse_length. exact Hlen.
    + intros j Hj. rewrite diffuse_nth. rewrite Hlen. fold n.
      apply Nat.ltb_lt in Hj. rewrite Hj. rewrite andb_true_r.
      apply Nat.ltb_lt in Hj.
      destruct (Nat.ltb_spec i j) as [Hij|Hij]; cbn [andb].
      * destruct (Nat.leb_spec j (i + 4)) as [Hj4|Hj4].
        -- rewrite pending_step by lia. rewrite Hval by exact Hj. reflexivity.
        -- rewrite pending_same by lia. apply Hval. exact Hj.
      * rewrite pending_same by lia. apply Hval. exact Hj.
Qed.

Lemma diffusedValue_four (x e1 e2 e3 e4 : Q) (rest : list Q) :
  diffusedValue x (e1 :: e2 :: e3 :: e4 :: rest)
  == x + (7 # 16) * e1 + (5 # 16) * e2 + (3 # 16) * e3 + (1 # 16) * e4.
Proof.
  unfold diffusedValue, weights. cbn [combine]. rewrite combine_nil.
  cbn [map fold_right fst snd]. ring.
Qed.

(** C7: in DITHER mode every sample is quantized, whether or not it lies on
    the emission grid: the signal [g] holds, at every index [i], the
    threshold decision (0 or 1) on the clamped value of sample [i] after the
    errors (clamped value minus decision) of the four samples before it
    were added with the weights 7/16, 5/16, 3/16 and 1/16 for distances 1 to
    4; a droplet is emitted at index [i] exactly when that decision is 1 and
    [i] is a multiple of [stepIdx]. *)
Theorem dither_diffusion_and_gating :
  forall (P : Synth.t) (f : list Q),
    Synth.mode P = DITHER ->
    let thr := Synth.threshold P in
    synthesize P f
    = (map (fun i => dropAt P i (midWidthMm P) 1)
         (filter (fun i => (i mod stepIdx P =? 0)%nat && Qeq_bool (quantizedAt thr f i) 1)
            (seq 0 (length f))),
       map (quantizedAt thr f) (seq 0 (length f)))
    /\ (forall i : nat, quantizedAt thr f i = 1 \/ quantizedAt thr f i = 0)
    /\ (forall i : nat,
          errAt thr f i
          = clamp (diffusedValue (nth i f 0) (errorsBefore thr f i)) 0 1
            - quantizedAt thr f i)
    /\ (forall i : nat,
          diffusedValue (nth (4 + i) f 0) (errorsBefore thr f (4 + i))
          == nth (4 + i) f 0
             + (7 # 16) * errAt thr f (3 + i) + (5 # 16) * errAt thr f (2 + i)
             + (3 # 16) * errAt thr f (1 + i) + (1 # 16) * errAt thr f i).
Proof.
  intros P f Hmode thr. split; [|split; [|split]].
  - unfold synthesize. rewrite Hmode. rewrite strideLoop_every.
    destruct (dither_rounds P f (length f) (Nat.le_refl _)) as [fc [Hst _]].
    rewrite Hst. cbn [snd]. rewrite Nat.sub_diag. cbn [repeat]. rewrite app_nil_r.
    reflexivity.
  - intro i. apply quantOut_cases.
  - intro i. reflexivity.
  - intro i. cbn [Nat.add errorsBefore]. rewrite diffusedValue_four. reflexivity.
Qed.

(** The theorem applies to a constant half-intensity signal on an emission
    grid of every third sample. *)
Lemma dither_diffusion_and_gating_witness :
  synthesize ditherSynth [1 # 2; 1 # 2; 1 # 2; 1 # 2; 1 # 2; 1 # 2; 1 # 2]
  = (map (fun i => dropAt ditherSynth i (midWidthMm ditherSynth) 1)
       (filter (fun i => (i mod stepIdx ditherSynth =? 0)%nat
                         && Qeq_bool
                              (quantizedAt (1 # 2)
                                 [1 # 2; 1 # 2; 1 # 2; 1 # 2; 1 # 2; 1 # 2; 1 # 2] i) 1)
          (seq 0 7)),
     map (quantizedAt (1 # 2) [1 # 2; 1 # 2; 1 # 2; 1 # 2; 1 # 2; 1 # 2; 1 # 2])
       (seq 0 7)).
Proof.
  exact (proj1 (dither_diffusion_and_gating ditherSynth
                  [1 # 2; 1 # 2; 1 # 2; 1 # 2; 1 # 2; 1 # 2; 1 # 2]
                  eq_refl)).
Defined.

(** On that signal the decisions are 1, 0, 0, 1, 1, 0, 0; of the three
    "on" samples only those at indices 0 and 3 lie on the grid, and the one
    at index 4 emits nothing. *)
Example dither_example :
  stepIdx ditherSynth = 3%nat
  /\ snd (synthesize ditherSynth [1 # 2; 1 # 2; 1 # 2; 1 # 2; 1 # 2; 1 # 2; 1 # 2])
     = [1; 0; 0; 1; 1; 0; 0]
  /\ map Drop.s_px
       (fst (synthesize ditherSynth [1 # 2; 1 # 2; 1 # 2; 1 # 2; 1 # 2; 1 # 2; 1 # 2]))
     = [0 * 2; 3 * 2].
Proof. repeat split; vm_compute; reflexivity. Qed.

(** ** Uniform resampling of a straight segment *)

Section PathGeometry.
Local Open Scope R_scope.
Import Geometry.

Lemma dist_nonneg (a b : Point.t) : 0 <= dist a b.
Proof. unfold dist. apply sqrt_pos. Qed.

Lemma dist_sqr (a b : Point.t) :
  dist a b * dist a b
  = (Point.x a - Point.x b) * (Point.x a - Point.x b)
    + (Point.y a - Point.y b) * (Point.y a - Point.y b).
Proof.
  unfold dist. apply sqrt_sqrt.
  set (u := Point.x a - Point.x b). set (v := Point.y a - Point.y b). nra.
Qed.

Lemma wholeSteps_spec (L s : R) :
  0 <= L -> 0 < s ->
  INR (wholeSteps L s) * s <= L < (INR (wholeSteps L s) + 1) * s.
Proof.
  intros HL Hs. unfold wholeSteps.
  destruct (base_Int_part (L / s)) as [H1 H2].
  assert (Hq : 0 <= L / s) by (apply Rmult_le_pos; [lra|left; apply Rinv_0_lt_compat; lra]).
  assert (Hz : (0 <= Int_part (L / s))%Z).
  { assert (H3 : IZR (-1) < IZR (Int_part (L / s))) by lra.
    apply lt_IZR in H3. lia. }
  rewrite INR_IZR_INZ, Z2Nat.id by exact Hz.
  set (z := IZR (Int_part (L / s))) in *.
  split.
  - apply Rle_trans with (L / s * s); [apply Rmult_le_compat_r; lra|].
    right. field. lra.
  - apply Rle_lt_trans with (L / s * s); [right; field; lra|].
    apply Rmult_lt_compat_r; lra.
Qed.

Lemma emitFuel_first (L s : R) :
  0 <= L -> 0 < s -> emitFuel L s (s - 0) = S (wholeSteps L s).
Proof.
  intros HL Hs. unfold emitFuel, wholeSteps. f_equal. f_equal.
  symmetry. apply tech_up.
  - destruct (base_Int_part (L / s)) as [H1 H2].
    replace ((L - (s - 0)) / s) with (L / s - 1) by (field; lra). lra.
  - destruct (base_Int_part (L / s)) as [H1 H2].
    replace ((L - (s - 0)) / s) with (L / s - 1) by (field; lra). lra.
Qed.

(** The [while] loop from the [(k+1)]-th multiple of the step on. *)
Lemma emitLoop_points (a b : Point.t) (s : R) :
  0 < s ->
  forall (fuel k : nat),
    (wholeSteps (dist a b) s - k <= fuel)%nat ->
    emitLoop fuel a b (dist a b) s (INR (S k) * s)
    = map (fun j => pointAt a b (INR j * s)) (seq (S k) (wholeSteps (dist a b) s - k)).
Proof.
  intro Hs.
  pose proof (wholeSteps_spec (dist a b) s (dist_nonneg a b) Hs) as [Hlo Hhi].
  set (n := wholeSteps (dist a b) s) in *.
  induction fuel as [|fuel IH]; intros k Hfuel.
  - replace (n - k)%nat with 0%nat by lia. reflexivity.
  - cbn [emitLoop]. destruct (Rle_dec (INR (S k) * s) (dist a b)) as [Hle|Hgt].
    + assert (Hk : (S k <= n)%nat).
      { assert (H : INR (S k) < INR (S n)).
        { rewrite (S_INR n). apply Rmult_lt_reg_r with s; [exact Hs|]. lra. }
        apply INR_lt in H. lia. }
      replace (n - k)%nat with (S (n - S k)) by lia. cbn [seq map].
      f_equal.
      replace (INR (S k) * s + s) with (INR (S (S k)) * s)
        by (rewrite (S_INR (S k)); ring).
      apply IH. lia.
    + assert (Hk : (n <= k)%nat).
      { assert (H : INR n < INR (S k)).
        { apply Rmult_lt_reg_r with s; [exact Hs|]. lra. }
        apply INR_lt in H. lia. }
      replace (n - k)%nat with 0%nat by lia. reflexivity.
Qed.

(** What [resampleUniform] returns on a two-point polyline. *)
Lemma resampleUniform_two_points (a b : Point.t) (s : R) :
  0 < s ->
  resampleUniform [a; b] s
  = a :: map (fun k => pointAt a b (INR k * s)) (seq 1 (wholeSteps (dist a b) s)).
Proof.
  intro Hs. unfold resampleUniform, walk. rewrite app_nil_r. f_equal.
  rewrite (emitFuel_first _ _ (dist_nonneg a b) Hs).
  replace (s - 0) with (INR 1 * s) by (cbn; ring).
  rewrite (emitLoop_points a b s Hs (S (wholeSteps (dist a b) s)) 0) by lia.
  rewrite Nat.sub_0_r. reflexivity.
Qed.

Lemma pointAt_zero (a b : Point.t) : pointAt a b 0 = a.
Proof.
  unfold pointAt, lerp. destruct a as [ax ay]. cbn. f_equal; unfold Rdiv; ring.
Qed.

Lemma pointAt_full (a b : Point.t) : 0 < dist a b -> pointAt a b (dist a b) = b.
Proof.
  intro H. unfold pointAt, lerp. destruct b as [bx by']. cbn [Point.x Point.y].
  f_equal; field; lra.
Qed.

Lemma dist_pointAt (a b : Point.t) (d1 d2 : R) :
  0 < dist a b -> dist (pointAt a b d1) (pointAt a b d2) = Rabs (d1 - d2).
Proof.
  intro HL. pose proof (dist_sqr a b) as Hsq.
  set (L := dist a b) in *.
  unfold dist at 1. unfold pointAt, lerp. cbn [Point.x Point.y]. fold L.
  rewrite <- sqrt_Rsqr_abs. f_equal. unfold Rsqr.
  set (dx := Point.x a - Point.x b) in *. set (dy := Point.y a - Point.y b) in *.
  replace (Point.x a + (Point.x b - Point.x a) * (d1 / L)
           - (Point.x a + (Point.x b - Point.x a) * (d2 / L)))
    with (- dx * ((d1 - d2) / L)) by (unfold dx; field; lra).
  replace (Point.y a + (Point.y b - Point.y a) * (d1 / L)
           - (Point.y a + (Point.y b - Point.y a) * (d2 / L)))
    with (- dy * ((d1 - d2) / L)) by (unfold dy; field; lra).
  replace (- dx * ((d1 - d2) / L) * (- dx * ((d1 - d2) / L))
           + - dy * ((d1 - d2) / L) * (- dy * ((d1 - d2) / L)))
    with ((dx * dx + dy * dy) * (((d1 - d2) / L) * ((d1 - d2) / L))) by ring.
  rewrite <- Hsq. field. lra.
Qed.

(** C5, as the code has it: on a straight two-point polyline from [a] to
    [b] of length [L], with a step [s > 0], [resampleUniform] returns the
    first point [a] followed by [floor(L / s)] points, the [k]-th at arc
    length [k s] from [a]; consecutive points are exactly [s] apart.  The
    far end [b] is not appended: the last point returned lies
    [L - floor(L / s) s < s] before [b], so [b] is in the result only when
    [L] is a multiple of [s] (or [b = a]). *)
Theorem resampleUniform_straight_segment :
  forall (a b : Point.t) (s : R),
    0 < s ->
    let L := dist a b in
    let n := wholeSteps L s in
    resampleUniform [a; b] s = a :: map (fun k => pointAt a b (INR k * s)) (seq 1 n)
    /\ length (resampleUniform [a; b] s) = S n
    /\ INR n * s <= L < (INR n + 1) * s
    /\ pointAt a b 0 = a
    /\ (forall k : nat, (k < n)%nat ->
          dist (pointAt a b (INR k * s)) (pointAt a b (INR (S k) * s)) = s)
    /\ dist (pointAt a b (INR n * s)) b = L - INR n * s
    /\ (In b (resampleUniform [a; b] s) -> b = a \/ L = INR n * s).
Proof.
  intros a b s Hs L n.
  pose proof (resampleUniform_two_points a b s Hs) as Hres. fold L n in Hres.
  pose proof (wholeSteps_spec L s (dist_nonneg a b) Hs) as Hn. fold n in Hn.
  assert (Hlast : dist (pointAt a b (INR n * s)) b = L - INR n * s).
  { destruct (Rle_lt_or_eq_dec 0 L (dist_nonneg a b)) as [Hpos|Hzero].
    - rewrite <- (pointAt_full a b Hpos) at 2. fold L.
      rewrite dist_pointAt by exact Hpos.
      rewrite Rabs_left1 by lra. ring.
    - assert (Hn0 : n = 0%nat).
      { destruct n as [|n']; [reflexivity|]. exfalso.
        rewrite S_INR in Hn. pose proof (pos_INR n'). nra. }
      rewrite Hn0. cbn [INR]. rewrite Rmult_0_l, pointAt_zero. fold L. lra. }
  split; [exact Hres|]. split; [|split; [exact Hn|split; [apply pointAt_zero|split; [|split]]]].
  - rewrite Hres. cbn [length]. rewrite length_map, length_seq. reflexivity.
  - intros k Hk.
    assert (Hpos : 0 < dist a b).
    { fold L. assert (H1 : 1 <= INR n).
      { change 1 with (INR 1). apply le_INR. lia. }
      nra. }
    rewrite dist_pointAt by exact Hpos. rewrite S_INR.
    replace (INR k * s - (INR k + 1) * s) with (- s) by ring.
    rewrite Rabs_Ropp. apply Rabs_pos_eq. lra.
  - exact Hlast.
  - intro Hin. rewrite Hres in Hin. destruct Hin as [Ha|Hin]; [left; now symmetry|].
    right. apply in_map_iff in Hin. destruct Hin as [k [Hk Hin]].
    apply in_seq in Hin.
    assert (Hd : dist (pointAt a b (INR k * s)) b = 0).
    { rewrite Hk. unfold dist. rewrite !Rminus_diag, !Rmult_0_l, Rplus_0_r. apply sqrt_0. }
    assert (Hpos : 0 < dist a b).
    { fold L. assert (H1 : 1 <= INR n).
      { change 1 with (INR 1). apply le_INR. lia. }
      nra. }
    rewrite <- (pointAt_full a b Hpos) in Hd at 2.
    rewrite dist_pointAt in Hd by exact Hpos. fold L in Hd.
    assert (Hkn : INR k <= INR n) by (apply le_INR; lia).
    assert (HkL : INR k * s = L).
    { destruct (Rcase_abs (INR k * s - L)) as [Hneg|Hnn].
      - rewrite Rabs_left in Hd by exact Hneg. lra.
      - rewrite Rabs_right in Hd by exact Hnn. lra. }
    nra.
Qed.

Lemma dist_origin_fiveRight : dist origin fiveRight = 5.
Proof.
  unfold dist, origin, fiveRight. cbn [Point.x Point.y].
  replace ((0 - 5) * (0 - 5) + (0 - 0) * (0 - 0)) with (5 * 5) by ring.
  apply sqrt_square. lra.
Qed.

Lemma wholeSteps_five_two : wholeSteps 5 2 = 2%nat.
Proof.
  unfold wholeSteps. rewrite <- (Int_part_spec (5 / 2) 2); [reflexivity|]. lra.
Qed.

Lemma resampleUniform_five_two :
  resampleUniform [origin; fiveRight] 2 = [origin; Point.mk 2 0; Point.mk 4 0].
Proof.
  rewrite resampleUniform_two_points by lra.
  rewrite dist_origin_fiveRight, wholeSteps_five_two. cbn [seq map].
  unfold pointAt. rewrite dist_origin_fiveRight.
  unfold lerp, origin, fiveRight. cbn [Point.x Point.y INR].
  repeat f_equal; field.
Qed.

(** The theorem applies to the segment of length 5 resampled every 2. *)
Lemma resampleUniform_straight_segment_witness :
  length (resampleUniform [origin; fiveRight] 2)
  = S (wholeSteps (dist origin fiveRight) 2).
Proof.
  refine (proj1 (proj2 (resampleUniform_straight_segment origin fiveRight 2 _))).
  lra.
Defined.

(** C5 as stated fails: resampling the segment from (0,0) to (5,0) every 2
    gives the three points (0,0), (2,0), (4,0): the first point and
    [floor(5/2) = 2] more, not four points, and the far end (5,0) is not
    among them. *)
Lemma far_endpoint_not_returned :
  resampleUniform [origin; fiveRight] 2 = [origin; Point.mk 2 0; Point.mk 4 0]
  /\ ~ In fiveRight (resampleUniform [origin; fiveRight] 2)
  /\ length (resampleUniform [origin; fiveRight] 2)
     <> (wholeSteps (dist origin fiveRight) 2 + 2)%nat.
Proof.
  split; [exact resampleUniform_five_two|]. rewrite resampleUniform_five_two. split.
  - unfold fiveRight, origin. intros [H|[H|[H|[]]]];
      apply (f_equal Point.x) in H; cbn in H; lra.
  - rewrite dist_origin_fiveRight, wholeSteps_five_two. cbn. discriminate.
Qed.
End PathGeometry.

(** ** Further checks on concrete inputs *)

(** Touching segments do not overlap; segments sharing an interior do. *)
Example segmentsOverlap_touching :
  segmentsOverlap (mkSpan 0 5) (mkSpan 5 10) = false
  /\ segmentsOverlap (mkSpan 0 5) (mkSpan 4 10) = true.
Proof. split; reflexivity. Qed.

(** The placement search: the preferred slot when it is free, else the
    first gap that fits, else the space after the last segment, else
    nothing. *)
Example findNextAvailablePosition_cases :
  let segs := [mkSegment (mkSpan 3 4) 5; mkSegment (mkSpan 0 2) 5] in
  findNextAvailablePosition segs 6 1 10 = Some (mkSpan 6 (6 + 1))
  /\ findNextAvailablePosition segs 3 1 10 = Some (mkSpan 2 (2 + 1))
  /\ findNextAvailablePosition segs 0 2 10 = Some (mkSpan 4 (4 + 2))
  /\ findNextAvailablePosition segs 0 7 10 = None.
Proof. repeat split; reflexivity. Qed.

(** The hypothesis [startCm < endCm] of the theorem on the segment editor is
    used by the add path: with an inverted segment, which is not a segment
    of the data model, in the array, the space "after the last segment" can
    lie inside an earlier one. *)
Example inverted_segment_misleads_placement :
  let segs := [mkSegment (mkSpan 0 5) 5; mkSegment (mkSpan (11 # 2) 3) 5] in
  segmentsOverlap (mkSpan 0 5) (mkSpan (11 # 2) 3) = false
  /\ findNextAvailablePosition segs 0 1 10 = Some (mkSpan 3 (3 + 1))
  /\ segmentsOverlap (mkSpan 0 5) (mkSpan 3 (3 + 1)) = true.
Proof. repeat split; reflexivity. Qed.

(** Once [maxSteps] steps have been pushed the remaining segments are left
    out; the trailing rest step is still added, from the last compiled
    segment on. *)
Example step_cap_drops_segments :
  segmentsToEHDSteps
    (Some [mkSegment (mkSpan 0 5) 10; mkSegment (mkSpan 5 10) 1]) 10 1 None 15
  = [Step.mk 80 70 (Finite 5000); Step.mk 0 70 (Finite 10000)].
Proof. reflexivity. Qed.

(** Levels 1 and 10 give the Sparse and the Dense preset; levels outside
    [[1, 10]] are clamped. *)
Example densityLevelToEHDParams_ends :
  Params.ch0 (densityLevelToEHDParams 1 None) = 73
  /\ Params.duration_base (densityLevelToEHDParams 1 None) = 2000
  /\ Params.ch0 (densityLevelToEHDParams 10 None) = 80
  /\ Params.duration_base (densityLevelToEHDParams 10 None) = 1500
  /\ Params.ch0 (densityLevelToEHDParams 42 None) = 80
  /\ Params.ch0 (densityLevelToEHDParams 5 None) = 76.
Proof. repeat split; reflexivity. Qed.

(** An import without a step list derives its steps from the embedded
    segments. *)
Example import_from_segments :
  extractStepsFromJson defaultCalibration
    (Json.mk None None (Some [mkSegment (mkSpan 0 5) 10]) (Some 15)
       (Some (JsonCalibration.mk None None None None None None None (Some 10))))
  = [NormStep.mk (Finite 80) (Finite 70) (Finite 5000);
     NormStep.mk (Finite 0) (Finite 70) (Finite 10000)].
Proof. reflexivity. Qed.

(** * Further properties of the code *)

(** ** The placement search is sound and complete *)

Lemma scanGaps_inr_shape (l : list Segment) (len : Q) :
  forall c c', scanGaps l c len = inr c' ->
    c' = c \/ Exists (fun a : Segment => c' = endCm a) l.
Proof.
  induction l as [|seg rest IH]; intros c c' H; cbn in H.
  - inversion H. now left.
  - destruct (Qle_bool (c + len) (startCm seg)); [discriminate|].
    right. destruct (IH _ _ H) as [Hs|Hs].
    + apply Exists_cons_hd. exact Hs.
    + apply Exists_cons_tl. exact Hs.
Qed.

Lemma scanGaps_inr_blocked (l : list Segment) (len tube : Q) :
  forall c c', scanGaps l c len = inr c' -> tube < c' + len ->
    forall p, c <= p -> p + len <= tube ->
      Exists (fun seg : Segment => segmentsOverlap seg (mkSpan p (p + len)) = true) l.
Proof.
  induction l as [|seg rest IH]; intros c c' H Hfull p Hcp Hfit; cbn in H.
  - inversion H; subst. lra.
  - destruct (Qle_bool (c + len) (startCm seg)) eqn:E; [discriminate|].
    apply Qle_bool_false in E.
    destruct (Qlt_le_dec p (endCm seg)) as [Hlt|Hge].
    + apply Exists_cons_hd. unfold segmentsOverlap. cbn [startCm endCm].
      apply andb_true_iff. split; apply Qltb_lt; lra.
    + apply Exists_cons_tl. apply (IH (endCm seg) c' H Hfull p Hge Hfit).
Qed.

(** X1: when [findNextAvailablePosition] reports no space, there is none:
    every slot of the requested length inside [[0, tubeLength]] overlaps
    one of the segments. *)
Theorem no_space_means_no_free_slot :
  forall (segments : list Segment) (preferredStart preferredLength tubeLength p : Q),
    findNextAvailablePosition segments preferredStart preferredLength tubeLength = None ->
    0 <= p -> p + preferredLength <= tubeLength ->
    exists seg : Segment,
      In seg segments
      /\ segmentsOverlap seg (mkSpan p (p + preferredLength)) = true.
Proof.
  intros segments ps len tube p H Hp Hfit. unfold findNextAvailablePosition in H.
  destruct (Qle_bool (ps + len) tube && negb (existsb _ (sortByStart segments)));
    [discriminate|].
  destruct (scanGaps (sortByStart segments) 0 len) as [found|c'] eqn:Es; [discriminate|].
  destruct (Qle_bool (c' + len) tube) eqn:E; [discriminate|].
  apply Qle_bool_false in E.
  pose proof (scanGaps_inr_blocked _ _ _ _ _ Es E p Hp Hfit) as Hex.
  apply Exists_exists in Hex. destruct Hex as [seg [Hin Hov]].
  exists seg. split; [apply sortByStart_In; exact Hin|exact Hov].
Qed.

Lemma no_space_means_no_free_slot_witness :
  exists seg : Segment,
    In seg [mkSegment (mkSpan 3 4) 5; mkSegment (mkSpan 0 2) 5]
    /\ segmentsOverlap seg (mkSpan 1 (1 + 7)) = true.
Proof.
  apply (no_space_means_no_free_slot
           [mkSegment (mkSpan 3 4) 5; mkSegment (mkSpan 0 2) 5] 0 7 10 1).
  - reflexivity.
  - discriminate.
  - discriminate.
Defined.

(** X2: a position returned by [findNextAvailablePosition] has the
    requested length, lies inside [[0, tubeLength]] and overlaps none of the
    segments, for well-formed, pairwise apart segments inside the tube and a
    preferred start that is not negative. *)
Theorem found_position_is_free_and_inside :
  forall (segments : list Segment) (preferredStart preferredLength tubeLength : Q)
         (sp : Span),
    Forall (fun a : Segment => wellFormed a) segments ->
    noOverlap segments ->
    Forall (fun a : Segment => insideTube tubeLength a) segments ->
    0 <= preferredStart ->
    findNextAvailablePosition segments preferredStart preferredLength tubeLength = Some sp ->
    endCm sp = startCm sp + preferredLength
    /\ 0 <= startCm sp /\ endCm sp <= tubeLength
    /\ Forall (fun a : Segment => segmentsOverlap a sp = false) segments.
Proof.
  intros segments ps len tube sp Hwf Hno Hin Hps H.
  assert (Hok : Forall (fun a : Segment => segmentOk tube a) segments).
  { rewrite Forall_forall in *. intros a Ha. split; [apply Hwf; exact Ha|].
    apply (Hin a Ha). }
  destruct (findNextAvailablePosition_fits _ _ _ _ _ Hok H) as [Hlen Hend].
  split; [exact Hlen|]. split; [|split; [exact Hend|]].
  - assert (Hends : forall a : Segment, In a (sortByStart segments) -> 0 <= endCm a).
    { intros a Ha. apply (proj1 (sortByStart_In _ _)) in Ha.
      rewrite Forall_forall in Hwf, Hin. specialize (Hwf a Ha). destruct (Hin a Ha).
      unfold wellFormed in Hwf. lra. }
    unfold findNextAvailablePosition in H.
    destruct (Qle_bool (ps + len) tube && negb (existsb _ (sortByStart segments))).
    + inversion H; subst. exact Hps.
    + destruct (scanGaps (sortByStart segments) 0 len) as [found|c'] eqn:Es.
      * inversion H; subst.
        destruct (scanGaps_inl_shape _ _ _ _ Es) as [_ [Hs|Hs]]; [rewrite Hs; lra|].
        apply Exists_exists in Hs. destruct Hs as [a [Ha Hs]]. rewrite Hs. auto.
      * destruct (Qle_bool (c' + len) tube); [|discriminate]. inversion H; subst.
        cbn [startCm].
        destruct (scanGaps_inr_shape _ _ _ _ Es) as [Hs|Hs]; [rewrite Hs; lra|].
        apply Exists_exists in Hs. destruct Hs as [a [Ha Hs]]. rewrite Hs. auto.
  - apply (findNextAvailablePosition_apart _ _ _ _ _ Hwf Hno H).
Qed.

Lemma found_position_is_free_and_inside_witness :
  endCm (mkSpan 2 (2 + 1)) = startCm (mkSpan 2 (2 + 1)) + 1
  /\ 0 <= startCm (mkSpan 2 (2 + 1)) /\ endCm (mkSpan 2 (2 + 1)) <= 10
  /\ Forall (fun a : Segment => segmentsOverlap a (mkSpan 2 (2 + 1)) = false)
       (manualSegments exampleEditor).
Proof.
  apply (found_position_is_free_and_inside (manualSegments exampleEditor) 3 1 10).
  - exact exampleEditor_wellFormed.
  - exact exampleEditor_noOverlap.
  - repeat constructor; cbn; discriminate.
  - discriminate.
  - reflexivity.
Defined.

(** ** Deleting a segment *)

Lemma filteri_from_all {A : Type} (p : A -> nat -> bool) (l : list A) :
  forall j, (forall i x, (j <= i)%nat -> p x i = true) -> filteri_from p j l = l.
Proof.
  induction l as [|x l IH]; intros j H; cbn; [reflexivity|].
  rewrite (H j x (Nat.le_refl j)). f_equal. apply IH.
  intros i y Hi. apply H. lia.
Qed.

Lemma filteri_remove (l : list Segment) (k : nat) :
  forall j, (j <= k)%nat ->
    filteri_from (fun _ i => negb (Z.of_nat i =? Z.of_nat k)%Z) j l
    = firstn (k - j) l ++ skipn (S (k - j)) l.
Proof.
  induction l as [|x l IH]; intros j Hj.
  - cbn. now rewrite firstn_nil.
  - cbn [filteri_from]. destruct (Z.eqb_spec (Z.of_nat j) (Z.of_nat k)) as [E|E]; cbn [negb].
    + replace (k - j)%nat with 0%nat by lia. cbn [firstn skipn app].
      apply filteri_from_all. intros i y Hi.
      destruct (Z.eqb_spec (Z.of_nat i) (Z.of_nat k)); [lia|reflexivity].
    + replace (k - j)%nat with (S (k - S j)) by lia. cbn [firstn skipn app].
      f_equal. apply IH. lia.
Qed.

Lemma nth_error_remove {A : Type} (l : list A) :
  forall k i,
    nth_error (firstn k l ++ skipn (S k) l) i
    = nth_error l (if (i <? k)%nat then i else S i).
Proof.
  induction l as [|x l IH]; intros k i.
  - rewrite firstn_nil, skipn_nil. cbn [app].
    destruct (i <? k)%nat; destruct i; reflexivity.
  - destruct k as [|k]; [reflexivity|].
    cbn [firstn skipn app]. destruct i as [|i]; [reflexivity|].
    cbn [nth_error]. rewrite IH.
    change (S i <? S k)%nat with (i <? k)%nat.
    destruct (i <? k)%nat; reflexivity.
Qed.

Lemma noOverlap_remove (l : list Segment) (k : nat) :
  noOverlap l -> noOverlap (firstn k l ++ skipn (S k) l).
Proof.
  intros H i j a b Hij Ha Hb. rewrite nth_error_remove in Ha, Hb.
  refine (H _ _ a b _ Ha Hb).
  destruct (Nat.ltb_spec i k); destruct (Nat.ltb_spec j k); lia.
Qed.

Lemma Forall_remove {A : Type} (P : A -> Prop) (l : list A) (k : nat) :
  Forall P l -> Forall P (firstn k l ++ skipn (S k) l).
Proof.
  rewrite !Forall_nth_error. intros H i x Hi. rewrite nth_error_remove in Hi.
  apply (H _ _ Hi).
Qed.

Lemma length_remove {A : Type} (l : list A) (k : nat) :
  (k < length l)%nat -> S (length (firstn k l ++ skipn (S k) l)) = length l.
Proof.
  intro H. rewrite length_app, length_firstn, length_skipn. lia.
Qed.

Lemma deleteAt_spec (segs : list Segment) (k : Z) :
  (0 <= k)%Z ->
  filteri (fun _ i => negb (Z.of_nat i =? k)%Z) segs
  = firstn (Z.to_nat k) segs ++ skipn (S (Z.to_nat k)) segs.
Proof.
  intro Hk. unfold filteri.
  assert (E : k = Z.of_nat (Z.to_nat k)) by lia.
  revert E. generalize (Z.to_nat k). intros n ->.
  rewrite filteri_remove by lia. rewrite Nat.sub_0_r. reflexivity.
Qed.

(** X3: deleting a segment, by the context menu (the segment under the
    pointer) or by the Delete key (the selected segment), removes exactly
    the segment at that index (nothing when the index is past the end, and
    nothing at all when no segment is hit or selected), keeps the others in
    order, and so keeps the segments pairwise apart and keeps every property
    that held of each segment. *)
Theorem deletion_removes_one_segment :
  forall (ed : Editor) (hit : Hit),
    noOverlap (manualSegments ed) ->
    let byMenu := manualSegments (onManualContextMenu ed hit) in
    let byKey := manualSegments (onDeleteKey ed) in
    noOverlap byMenu /\ noOverlap byKey
    /\ (forall P : Segment -> Prop,
          Forall P (manualSegments ed) -> Forall P byMenu /\ Forall P byKey)
    /\ ((0 <= segmentIdx hit)%Z ->
        forall i : nat,
          nth_error byMenu i
          = nth_error (manualSegments ed)
              (if (i <? Z.to_nat (segmentIdx hit))%nat then i else S i))
    /\ ((0 <= segmentIdx hit < Z.of_nat (length (manualSegments ed)))%Z ->
        S (length byMenu) = length (manualSegments ed))
    /\ ((segmentIdx hit < 0)%Z -> onManualContextMenu ed hit = ed)
    /\ ((0 <= manualSelectedIdx ed)%Z ->
        forall i : nat,
          nth_error byKey i
          = nth_error (manualSegments ed)
              (if (i <? Z.to_nat (manualSelectedIdx ed))%nat then i else S i))
    /\ ((0 <= manualSelectedIdx ed < Z.of_nat (length (manualSegments ed)))%Z ->
        S (length byKey) = length (manualSegments ed))
    /\ ((manualSelectedIdx ed < 0)%Z -> onDeleteKey ed = ed).
Proof.
  intros ed hit Hno byMenu byKey.
  assert (Hmenu : (0 <= segmentIdx hit)%Z ->
                  byMenu = firstn (Z.to_nat (segmentIdx hit)) (manualSegments ed)
                           ++ skipn (S (Z.to_nat (segmentIdx hit))) (manualSegments ed)).
  { intro H. unfold byMenu, onManualContextMenu.
    apply Z.leb_le in H. rewrite H. cbn [manualSegments withSegments].
    apply deleteAt_spec. apply Z.leb_le. exact H. }
  assert (Hmenu' : (segmentIdx hit < 0)%Z -> onManualContextMenu ed hit = ed).
  { intro H. unfold onManualContextMenu.
    destruct (Z.leb_spec 0 (segmentIdx hit)); [lia|reflexivity]. }
  assert (Hkey1 : (0 <= manualSelectedIdx ed)%Z ->
                   byKey = firstn (Z.to_nat (manualSelectedIdx ed)) (manualSegments ed)
                           ++ skipn (S (Z.to_nat (manualSelectedIdx ed))) (manualSegments ed)).
  { intro H. unfold byKey, onDeleteKey.
    destruct (Z.leb_spec 0 (manualSelectedIdx ed)) as [_|H']; [|lia].
    cbn [manualSegments withSegments]. apply deleteAt_spec. exact H. }
  assert (Hkey' : (manualSelectedIdx ed < 0)%Z -> onDeleteKey ed = ed).
  { intro H. unfold onDeleteKey.
    destruct (Z.leb_spec 0 (manualSelectedIdx ed)); [lia|reflexivity]. }
  assert (Hkey : byKey = manualSegments ed
                 \/ byKey = firstn (Z.to_nat (manualSelectedIdx ed)) (manualSegments ed)
                            ++ skipn (S (Z.to_nat (manualSelectedIdx ed))) (manualSegments ed)).
  { destruct (Z_lt_le_dec (manualSelectedIdx ed) 0) as [H|H].
    - left. unfold byKey. now rewrite Hkey'.
    - right. apply Hkey1. exact H. }
  assert (HmenuCases : byMenu = manualSegments ed
                       \/ byMenu = firstn (Z.to_nat (segmentIdx hit)) (manualSegments ed)
                            ++ skipn (S (Z.to_nat (segmentIdx hit))) (manualSegments ed)).
  { destruct (Z_lt_le_dec (segmentIdx hit) 0) as [H|H].
    - left. unfold byMenu. now rewrite Hmenu'.
    - right. apply Hmenu. exact H. }
  split; [|split; [|split; [|split; [|split; [|split; [|split; [|split]]]]]]].
  - destruct HmenuCases as [-> | ->]; [exact Hno|apply noOverlap_remove; exact Hno].
  - destruct Hkey as [-> | ->]; [exact Hno|apply noOverlap_remove; exact Hno].
  - intros P HP. split.
    + destruct HmenuCases as [-> | ->]; [exact HP|apply Forall_remove; exact HP].
    + destruct Hkey as [-> | ->]; [exact HP|apply Forall_remove; exact HP].
  - intros H i. rewrite (Hmenu H). apply nth_error_remove.
  - intros [H1 H2]. rewrite (Hmenu H1). apply length_remove. lia.
  - exact Hmenu'.
  - intros H i. rewrite (Hkey1 H). apply nth_error_remove.
  - intros [H1 H2]. rewrite (Hkey1 H1). apply length_remove. lia.
  - exact Hkey'.
Qed.

Lemma deletion_removes_one_segment_witness :
  noOverlap (manualSegments (onManualContextMenu exampleEditor (mkHit 0 None))).
Proof.
  exact (proj1 (deletion_removes_one_segment exampleEditor (mkHit 0 None)
                  exampleEditor_noOverlap)).
Defined.

Example delete_first_segment :
  manualSegments (onManualContextMenu exampleEditor (mkHit 0 None))
  = [mkSegment (mkSpan 3 4) 5]
  /\ manualSegments (onDeleteKey exampleEditor) = [mkSegment (mkSpan 3 4) 5]
  /\ manualSegments (onManualContextMenu exampleEditor (mkHit 7 None))
     = manualSegments exampleEditor.
Proof. repeat split; reflexivity. Qed.

(** ** Editing the bounds of the selected segment by number *)

Lemma selectedSegment_nth (ed : Editor) (sel : Segment) :
  selectedSegment ed = Some sel ->
  (0 <= manualSelectedIdx ed)%Z
  /\ nth_error (manualSegments ed) (Z.to_nat (manualSelectedIdx ed)) = Some sel.
Proof.
  unfold selectedSegment.
  destruct (Z.ltb_spec (manualSelectedIdx ed) 0) as [Hneg|Hpos]; [discriminate|].
  intro Hsel. split; assumption.
Qed.

(** Replacing the segment at index [k] by a candidate that overlaps none of
    the others. *)
Lemma replace_selected_nth (arr : list Segment) (k : Z) (g : Segment -> Segment) (i : nat) :
  nth_error (mapi (fun (seg : Segment) j => if (Z.of_nat j =? k)%Z then g seg else seg) arr) i
  = option_map (fun seg => if (Z.of_nat i =? k)%Z then g seg else seg) (nth_error arr i).
Proof. unfold mapi. rewrite nth_error_mapi_from. reflexivity. Qed.

Lemma replace_selected_apart (arr : list Segment) (k : Z) (g : Segment -> Segment)
  (sel cand : Segment) :
  (0 <= k)%Z -> nth_error arr (Z.to_nat k) = Some sel -> g sel = cand ->
  somei (fun (seg : Segment) i => negb (Z.of_nat i =? k)%Z && segmentsOverlap cand seg) arr
  = false ->
  noOverlap arr ->
  noOverlap (mapi (fun (seg : Segment) j => if (Z.of_nat j =? k)%Z then g seg else seg) arr).
Proof.
  intros Hk Hsel Hg Hsome Hno i j a b Hij Ha Hb.
  rewrite replace_selected_nth in Ha, Hb.
  destruct (nth_error arr i) as [sa|] eqn:Ei; [|discriminate].
  destruct (nth_error arr j) as [sb|] eqn:Ej; [|discriminate].
  cbn in Ha, Hb. inversion Ha as [Ha']; inversion Hb as [Hb']; clear Ha Hb.
  assert (Hother : forall m c, Z.of_nat m <> k -> nth_error arr m = Some c ->
                               segmentsOverlap cand c = false).
  { intros m c Hm Hc. unfold somei in Hsome.
    pose proof (somei_from_false _ _ _ Hsome m c Hc) as E. cbn in E.
    destruct (Z.eqb_spec (Z.of_nat m) k); [contradiction|exact E]. }
  assert (Hat : forall m c, Z.of_nat m = k -> nth_error arr m = Some c -> g c = cand).
  { intros m c Hm Hc. replace m with (Z.to_nat k) in Hc by lia. congruence. }
  destruct (Z.eqb_spec (Z.of_nat i) k) as [Hi|Hi];
    destruct (Z.eqb_spec (Z.of_nat j) k) as [Hj|Hj].
  - lia.
  - rewrite (Hat i sa Hi Ei). apply (Hother j sb Hj Ej).
  - rewrite (Hat j sb Hj Ej). rewrite segmentsOverlap_sym. apply (Hother i sa Hi Ei).
  - apply (Hno i j sa sb Hij Ei Ej).
Qed.

Lemma replace_selected_Forall (P : Segment -> Prop) (arr : list Segment) (k : Z)
  (g : Segment -> Segment) (sel : Segment) :
  (0 <= k)%Z -> nth_error arr (Z.to_nat k) = Some sel ->
  Forall P arr -> P (g sel) ->
  Forall P (mapi (fun (seg : Segment) j => if (Z.of_nat j =? k)%Z then g seg else seg) arr).
Proof.
  intros Hk Hsel H Hg. rewrite Forall_nth_error in *. intros i x Hi.
  rewrite replace_selected_nth in Hi.
  destruct (nth_error arr i) as [seg|] eqn:E; [|discriminate].
  cbn in Hi. inversion Hi as [Hx].
  destruct (Z.eqb_spec (Z.of_nat i) k) as [Hik|Hik]; [|apply (H i seg E)].
  replace i with (Z.to_nat k) in E by lia.
  assert (seg = sel) by congruence. subst seg. exact Hg.
Qed.

(** X4: typing a number in the Start Position or the End Position field of
    the selected segment ([onChange]) keeps the segments pairwise apart, and
    keeps every segment with [startCm < endCm] and ending inside the tube;
    when nothing is selected the editor is left as it was. *)
Theorem numeric_edits_keep_invariant :
  forall (ed : Editor) (numValue : Q),
    noOverlap (manualSegments ed) ->
    Forall (fun a : Segment => segmentOk (manualTubeLengthCm ed) a) (manualSegments ed) ->
    (noOverlap (manualSegments (onStartChange ed numValue))
     /\ Forall (fun a : Segment => segmentOk (manualTubeLengthCm ed) a)
          (manualSegments (onStartChange ed numValue)))
    /\ (noOverlap (manualSegments (onEndChange ed numValue))
        /\ Forall (fun a : Segment => segmentOk (manualTubeLengthCm ed) a)
             (manualSegments (onEndChange ed numValue)))
    /\ (selectedSegment ed = None ->
        onStartChange ed numValue = ed /\ onEndChange ed numValue = ed).
Proof.
  intros ed v Hno Hok.
  assert (Hgap : 0 < (if snapToGrid ed then 1 else 1 # 10)) by (destruct (snapToGrid ed); lra).
  split; [|split].
  - unfold onStartChange. destruct (selectedSegment ed) as [sel|] eqn:Es; [|split; assumption].
    destruct (selectedSegment_nth _ _ Es) as [Hk Hsel].
    cbv zeta. destruct (somei _ (manualSegments ed)) eqn:Hsome; cbn [negb];
      [split; assumption|].
    cbn [manualSegments withSegments].
    set (minGap := if snapToGrid ed then 1 else 1 # 10) in *.
    assert (Hselok : segmentOk (manualTubeLengthCm ed) sel).
    { rewrite Forall_forall in Hok. apply Hok. apply nth_error_In with (1 := Hsel). }
    split.
    + apply (replace_selected_apart (manualSegments ed) (manualSelectedIdx ed)
               (fun seg : Segment =>
                  mkSegment (mkSpan (Qmin v (endCm sel - minGap)) (endCm seg))
                    (densityLevel seg))
               sel _ Hk Hsel eq_refl Hsome Hno).
    + apply (replace_selected_Forall _ _ _ _ sel Hk Hsel Hok).
      destruct Hselok as [Hw Ht]. unfold segmentOk. cbn [startCm endCm span].
      split; [|exact Ht].
      apply Qle_lt_trans with (endCm sel - minGap); [apply Q.le_min_r|lra].
  - unfold onEndChange. destruct (selectedSegment ed) as [sel|] eqn:Es; [|split; assumption].
    destruct (selectedSegment_nth _ _ Es) as [Hk Hsel].
    cbv zeta. destruct (somei _ (manualSegments ed)) eqn:Hsome; cbn [negb];
      [split; assumption|].
    cbn [manualSegments withSegments].
    set (minGap := if snapToGrid ed then 1 else 1 # 10) in *.
    assert (Hselok : segmentOk (manualTubeLengthCm ed) sel).
    { rewrite Forall_forall in Hok. apply Hok. apply nth_error_In with (1 := Hsel). }
    split.
    + apply (replace_selected_apart (manualSegments ed) (manualSelectedIdx ed)
               (fun seg : Segment =>
                  mkSegment (mkSpan (startCm seg)
                               (Qmin (Qmax v (startCm sel + minGap)) (manualTubeLengthCm ed)))
                    (densityLevel seg))
               sel _ Hk Hsel eq_refl Hsome Hno).
    + apply (replace_selected_Forall _ _ _ _ sel Hk Hsel Hok).
      destruct Hselok as [Hw Ht]. unfold segmentOk. cbn [startCm endCm span].
      split; [|apply Q.le_min_r].
      apply Q.min_glb_lt; [|lra].
      apply Qlt_le_trans with (startCm sel + minGap); [lra|apply Q.le_max_r].
  - intro Hnone. unfold onStartChange, onEndChange. rewrite Hnone. split; reflexivity.
Qed.

Lemma numeric_edits_keep_invariant_witness :
  noOverlap (manualSegments (onStartChange exampleEditor (1 # 2)))
  /\ noOverlap (manualSegments (onEndChange exampleEditor 7)).
Proof.
  assert (Hok : Forall (fun a : Segment => segmentOk (manualTubeLengthCm exampleEditor) a)
                  (manualSegments exampleEditor))
    by (repeat constructor; cbn; discriminate).
  split.
  - exact (proj1 (proj1 (numeric_edits_keep_invariant exampleEditor (1 # 2)
                           exampleEditor_noOverlap Hok))).
  - exact (proj1 (proj1 (proj2 (numeric_edits_keep_invariant exampleEditor 7
                                  exampleEditor_noOverlap Hok)))).
Defined.

Example numeric_edits_example :
  manualSegments (onStartChange exampleEditor (1 # 2))
  = [mkSegment (mkSpan (1 # 2) 2) 5; mkSegment (mkSpan 3 4) 5]
  /\ manualSegments (onEndChange exampleEditor 7) = manualSegments exampleEditor
  /\ manualSegments (onEndChange exampleEditor (5 # 2))
     = [mkSegment (mkSpan 0 (5 # 2)) 5; mkSegment (mkSpan 3 4) 5].
Proof. repeat split; reflexivity. Qed.

Lemma segment_mutations_keep_segments_ok_witness :
  Forall (fun a : Segment => segmentOk 10 a)
    (manualSegments (onManualPointerDown exampleEditor (mkHit (-1) None) 240))
  /\ Forall (fun a : Segment => segmentOk 10 a)
       (manualSegments (onManualPointerMove exampleEditor 240)).
Proof.
  apply (segment_mutations_keep_segments_ok exampleEditor (mkHit (-1) None) 240).
  repeat constructor; cbn; discriminate.
Defined.

(** ** What a drag changes *)

Lemma mapi_length {A B : Type} (f : A -> nat -> B) (l : list A) :
  length (mapi f l) = length l.
Proof.
  unfold mapi. generalize 0%nat.
  induction l as [|a l IH]; intro n; cbn; [reflexivity|]. now rewrite IH.
Qed.

Lemma dragCandidate_shape (ed : Editor) (pos : Q) (seg : Segment) :
  densityLevel (dragCandidate ed pos seg) = densityLevel seg
  /\ (manualDraggingHandle ed = None ->
      endCm (dragCandidate ed pos seg) - startCm (dragCandidate ed pos seg)
      == endCm seg - startCm seg)
  /\ (manualDraggingHandle ed = Some HandleStart ->
      endCm (dragCandidate ed pos seg) = endCm seg)
  /\ (manualDraggingHandle ed = Some HandleEnd ->
      startCm (dragCandidate ed pos seg) = startCm seg).
Proof.
  unfold dragCandidate. destruct (manualDraggingHandle ed) as [[|]|];
    cbn [densityLevel startCm endCm span]; repeat split; try discriminate; try reflexivity.
  intros _. ring.
Qed.

(** X6: a pointer move keeps the number of segments and the density level
    of each; dragging a whole segment keeps its length, dragging the start
    handle keeps its end and dragging the end handle keeps its start. *)
Theorem drag_keeps_density_and_length :
  forall (ed : Editor) (x : Q) (i : nat) (seg : Segment),
    nth_error (manualSegments ed) i = Some seg ->
    length (manualSegments (onManualPointerMove ed x)) = length (manualSegments ed)
    /\ exists seg' : Segment,
         nth_error (manualSegments (onManualPointerMove ed x)) i = Some seg'
         /\ densityLevel seg' = densityLevel seg
         /\ (manualDraggingHandle ed = None ->
             endCm seg' - startCm seg' == endCm seg - startCm seg)
         /\ (manualDraggingHandle ed = Some HandleStart -> endCm seg' = endCm seg)
         /\ (manualDraggingHandle ed = Some HandleEnd -> startCm seg' = startCm seg).
Proof.
  intros ed x i seg Hi.
  assert (Hsame : exists seg' : Segment, Some seg = Some seg'
            /\ densityLevel seg' = densityLevel seg
            /\ (manualDraggingHandle ed = None ->
                endCm seg' - startCm seg' == endCm seg - startCm seg)
            /\ (manualDraggingHandle ed = Some HandleStart -> endCm seg' = endCm seg)
            /\ (manualDraggingHandle ed = Some HandleEnd -> startCm seg' = startCm seg)).
  { exists seg. repeat split; reflexivity. }
  destruct (Z.ltb_spec (manualDraggingIdx ed) 0) as [Hneg|Hpos].
  { unfold onManualPointerMove. apply Z.ltb_lt in Hneg. rewrite Hneg.
    split; [reflexivity|]. rewrite Hi. exact Hsame. }
  split.
  - unfold onManualPointerMove.
    destruct (Z.ltb_spec (manualDraggingIdx ed) 0) as [Hneg|_]; [lia|].
    cbn [manualSegments withSegments]. apply mapi_length.
  - rewrite pointerMove_nth by exact Hpos. rewrite Hi. cbn [option_map].
    destruct (negb (Z.of_nat i =? manualDraggingIdx ed)%Z); [exact Hsame|].
    destruct (negb (hasOverlap _ _ _)); [|exact Hsame].
    eexists. split; [reflexivity|]. apply dragCandidate_shape.
Qed.

Lemma drag_keeps_density_and_length_witness :
  length (manualSegments (onManualPointerMove exampleEditor 240))
  = length (manualSegments exampleEditor).
Proof.
  exact (proj1 (drag_keeps_density_and_length exampleEditor 240 0
                  (mkSegment (mkSpan 0 2) 5) eq_refl)).
Defined.

(** ** Hit test *)

Lemma combine_seq_nth {A : Type} (l : list A) :
  forall k i x, In (i, x) (combine (seq k (length l)) l) ->
                (k <= i)%nat /\ nth_error l (i - k) = Some x.
Proof.
  induction l as [|y l IH]; intros k i x Hin; cbn in Hin; [contradiction|].
  destruct Hin as [E|Hin].
  - inversion E; subst. split; [lia|]. rewrite Nat.sub_diag. reflexivity.
  - destruct (IH (S k) i x Hin) as [Hle Hn]. split; [lia|].
    replace (i - k)%nat with (S (i - S k)) by lia. exact Hn.
Qed.

Lemma hitScan_sound (ed : Editor) (x y : Q) (l : list (nat * Segment)) :
  Forall (fun p => nth_error (manualSegments ed) (fst p) = Some (snd p)) l ->
  (hitScan ed x y l = mkHit (-1) None)
  \/ (exists (i : nat) (seg : Segment),
        hitScan ed x y l = mkHit (Z.of_nat i) (handle (hitScan ed x y l))
        /\ nth_error (manualSegments ed) i = Some seg
        /\ (handle (hitScan ed x y l) <> None -> Z.of_nat i = manualSelectedIdx ed)
        /\ 37 <= y <= 78).
Proof.
  induction l as [|[i seg] rest IH]; intro Hall; [now left|].
  inversion Hall as [|? ? Hhd Htl]; subst. cbn [fst snd] in Hhd.
  cbn [hitScan]. cbv zeta.
  match goal with
  | |- context [if ?c1 then mkHit _ (Some HandleStart)
                else if ?c2 then mkHit _ (Some HandleEnd)
                else if ?c3 then mkHit _ None else _] =>
      destruct c1 eqn:E1; [|destruct c2 eqn:E2; [|destruct c3 eqn:E3]]
  end.
  - right. exists i, seg. cbn [handle]. split; [reflexivity|]. split; [exact Hhd|].
    rewrite !andb_true_iff in E1. destruct E1 as [Esel [[_ _] [Ey1 Ey2]]].
    apply Qle_bool_iff in Ey1, Ey2. apply Z.eqb_eq in Esel.
    assert (E60 : 120 / 2 == 60) by reflexivity. rewrite E60 in Ey1, Ey2.
    split; [intros _; exact Esel|]. lra.
  - right. exists i, seg. cbn [handle]. split; [reflexivity|]. split; [exact Hhd|].
    rewrite !andb_true_iff in E2. destruct E2 as [Esel [[_ _] [Ey1 Ey2]]].
    apply Qle_bool_iff in Ey1, Ey2. apply Z.eqb_eq in Esel.
    assert (E60 : 120 / 2 == 60) by reflexivity. rewrite E60 in Ey1, Ey2.
    split; [intros _; exact Esel|]. lra.
  - right. exists i, seg. cbn [handle]. split; [reflexivity|]. split; [exact Hhd|].
    rewrite !andb_true_iff in E3. destruct E3 as [[[_ _] Ey1] Ey2].
    apply Qle_bool_iff in Ey1, Ey2.
    assert (E60 : 120 / 2 == 60) by reflexivity. rewrite E60 in Ey1, Ey2.
    split; [intro H; now contradiction H|]. lra.
  - apply IH. exact Htl.
Qed.

(** X7: the hit test returns either no segment (index -1, no handle) or
    the index of a segment of the array; it reports a handle only for the
    selected segment, and only for a pointer between 37 and 78 pixels down
    the canvas does it report anything. *)
Theorem hitTest_returns_valid_index :
  forall (ed : Editor) (x y : Q),
    let hit := hitTestManualSegment ed x y in
    (hit = mkHit (-1) None)
    \/ (exists (i : nat) (seg : Segment),
          segmentIdx hit = Z.of_nat i
          /\ nth_error (manualSegments ed) i = Some seg
          /\ (handle hit <> None -> Z.of_nat i = manualSelectedIdx ed)
          /\ 37 <= y <= 78).
Proof.
  intros ed x y hit.
  destruct (hitScan_sound ed x y
              (rev (combine (seq 0 (length (manualSegments ed))) (manualSegments ed))))
    as [H|[i [seg [H1 H2]]]].
  - apply Forall_forall. intros [i seg] Hin. apply in_rev in Hin.
    apply combine_seq_nth in Hin. destruct Hin as [_ Hn].
    rewrite Nat.sub_0_r in Hn. exact Hn.
  - left. exact H.
  - right. exists i, seg. split; [|exact H2].
    unfold hit, hitTestManualSegment. rewrite H1. reflexivity.
Qed.

Example hitTest_examples :
  hitTestManualSegment exampleEditor 40 60 = mkHit 0 None
  /\ hitTestManualSegment exampleEditor 0 45 = mkHit 0 (Some HandleStart)
  /\ hitTestManualSegment exampleEditor 160 45 = mkHit 1 None
  /\ hitTestManualSegment exampleEditor 300 60 = mkHit (-1) None
  /\ hitTestManualSegment exampleEditor 40 90 = mkHit (-1) None.
Proof. repeat split; reflexivity. Qed.

(** ** The compiler: number of steps *)

Lemma compileLoop_length_bound (feed : Q) (maxSteps : Z) (cal : option Calibration.t) :
  forall (sorted : list Segment) (steps : list Step.t) (c : Q),
    (Z.of_nat (length (fst (compileLoop sorted feed maxSteps cal steps c)))
     <= Z.max (Z.of_nat (length steps)) (maxSteps + 1))%Z.
Proof.
  induction sorted as [|seg rest IH]; intros steps c; cbn [compileLoop].
  - cbn [fst]. lia.
  - destruct (Z.ltb_spec (Z.of_nat (length steps)) maxSteps) as [Hlt|Hge]; [|cbn [fst]; lia].
    etransitivity; [apply IH|].
    destruct (Qltb c (startCm seg)); rewrite ?length_app; cbn [length]; lia.
Qed.

Lemma compileLoop_grows (feed : Q) (maxSteps : Z) (cal : option Calibration.t) :
  forall (sorted : list Segment) (steps : list Step.t) (c : Q),
    (length steps <= length (fst (compileLoop sorted feed maxSteps cal steps c)))%nat.
Proof.
  induction sorted as [|seg rest IH]; intros steps c; cbn [compileLoop]; [cbn; lia|].
  destruct (Z.of_nat (length steps) <? maxSteps)%Z; [|cbn; lia].
  etransitivity; [|apply IH].
  destruct (Qltb c (startCm seg)); rewrite ?length_app; cbn [length]; lia.
Qed.

(** X8: the compiler returns at most [maxSteps + 2] steps (the cap is
    checked before a segment, which may push a gap step and its own step,
    and the trailing rest step is pushed after the loop), and at least one
    step whenever [maxSteps >= 1]. *)
Theorem compiled_step_count :
  forall (segments : option (list Segment)) (feedSpeedMmPerSec : Q) (maxSteps : Z)
         (calibration : option Calibration.t) (tubeLengthCm : Q),
    (1 <= maxSteps)%Z ->
    let steps :=
      segmentsToEHDSteps segments feedSpeedMmPerSec maxSteps calibration tubeLengthCm in
    (1 <= Z.of_nat (length steps) <= maxSteps + 2)%Z.
Proof.
  intros segments feed maxSteps cal tube Hm steps. subst steps.
  destruct segments as [[|s0 segs]|]; cbn [segmentsToEHDSteps]; try (cbn [length]; lia).
  pose proof (compileLoop_length_bound feed maxSteps cal (sortByStart (s0 :: segs)) [] 0) as Hb.
  assert (Hpos : (1 <= length (fst (compileLoop (sortByStart (s0 :: segs)) feed maxSteps
                                      cal [] 0)))%nat).
  { pose proof (sortByStart_length (s0 :: segs)) as Hl.
    destruct (sortByStart (s0 :: segs)) as [|seg rest]; [discriminate|].
    cbn [compileLoop length Z.of_nat].
    destruct (Z.ltb_spec 0 maxSteps) as [_|Hge]; [|lia].
    etransitivity; [|apply compileLoop_grows].
    destruct (Qltb 0 (startCm seg)); rewrite ?length_app; cbn [length]; lia. }
  destruct (compileLoop (sortByStart (s0 :: segs)) feed maxSteps cal [] 0) as [steps pos].
  cbn [fst length Z.of_nat] in *.
  destruct (Qltb pos tube); rewrite ?length_app; cbn [length]; lia.
Qed.

Lemma compiled_step_count_witness :
  (1 <= Z.of_nat (length (segmentsToEHDSteps
                            (Some [mkSegment (mkSpan 1 5) 10; mkSegment (mkSpan 6 10) 1])
                            10 1 None 15)) <= 1 + 2)%Z.
Proof.
  apply (compiled_step_count
           (Some [mkSegment (mkSpan 1 5) 10; mkSegment (mkSpan 6 10) 1]) 10 1 None 15).
  lia.
Defined.

(** The bound is reached: with [maxSteps = 1] a segment after a gap gives
    the gap step, its own step and the trailing rest step. *)
Example compiled_step_count_reached :
  length (segmentsToEHDSteps
            (Some [mkSegment (mkSpan 1 5) 10; mkSegment (mkSpan 6 10) 1]) 10 1 None 15)
  = 3%nat.
Proof. reflexivity. Qed.

(** ** Density level to channel level *)

Lemma Math_round_mono (x y : Q) : x <= y -> Math_round x <= Math_round y.
Proof.
  intro H. unfold Math_round, Math_roundZ. rewrite <- Zle_Qle.
  apply Qfloor_resp_le. lra.
Qed.

Lemma ratio_bounds (d : Q) : 0 <= (clamp d 1 10 - 1) / 9 <= 1.
Proof.
  assert (H : 1 <= clamp d 1 10 <= 10) by (apply clamp_bounds; lra).
  set (v := clamp d 1 10) in *.
  setoid_replace ((v - 1) / 9) with ((v - 1) * (1 # 9)) by (field). lra.
Qed.

Lemma ratio_mono (d1 d2 : Q) :
  d1 <= d2 -> (clamp d1 1 10 - 1) / 9 <= (clamp d2 1 10 - 1) / 9.
Proof.
  intro H.
  assert (Hc : clamp d1 1 10 <= clamp d2 1 10).
  { unfold clamp. apply Q.max_le_compat_l. apply Q.min_le_compat_l. exact H. }
  setoid_replace ((clamp d1 1 10 - 1) / 9) with ((clamp d1 1 10 - 1) * (1 # 9)) by field.
  setoid_replace ((clamp d2 1 10 - 1) / 9) with ((clamp d2 1 10 - 1) * (1 # 9)) by field.
  lra.
Qed.

Lemma lerp_mono (a b t1 t2 : Q) : a <= b -> t1 <= t2 -> lerp a b t1 <= lerp a b t2.
Proof. intros Hab Ht. unfold lerp. nra. Qed.

Lemma lerp_between (a b t : Q) :
  0 <= t <= 1 -> Qmin a b <= lerp a b t <= Qmax a b.
Proof.
  intros [H0 H1]. unfold lerp.
  destruct (Qlt_le_dec a b) as [Hab|Hba].
  - rewrite (Q.min_l a b), (Q.max_r a b) by lra. nra.
  - rewrite (Q.min_r a b), (Q.max_l a b) by lra. nra.
Qed.

Lemma lerp_anti (a b t1 t2 : Q) : b <= a -> t1 <= t2 -> lerp a b t2 <= lerp a b t1.
Proof. intros Hab Ht. unfold lerp. nra. Qed.

Lemma Math_round_min (a b : Q) :
  Qmin (Math_round a) (Math_round b) <= Math_round (Qmin a b).
Proof.
  destruct (Qlt_le_dec a b) as [H|H].
  - apply Qle_trans with (Math_round a); [apply Q.le_min_l|].
    apply Math_round_mono. rewrite (Q.min_l a b) by lra. lra.
  - apply Qle_trans with (Math_round b); [apply Q.le_min_r|].
    apply Math_round_mono. rewrite (Q.min_r a b) by lra. lra.
Qed.

Lemma Math_round_max (a b : Q) :
  Math_round (Qmax a b) <= Qmax (Math_round a) (Math_round b).
Proof.
  destruct (Qlt_le_dec a b) as [H|H].
  - apply Qle_trans with (Math_round b); [|apply Q.le_max_r].
    apply Math_round_mono. rewrite (Q.max_r a b) by lra. lra.
  - apply Qle_trans with (Math_round a); [|apply Q.le_max_l].
    apply Math_round_mono. rewrite (Q.max_l a b) by lra. lra.
Qed.

(** X9: whatever the calibration, the channel level of a density level
    lies between the rounded Sparse and Dense presets, and levels outside
    [[1, 10]] act as 1 and 10, which give the rounded Sparse and the rounded
    Dense preset.  The channel level rises with the density level when the
    Dense preset is at least the Sparse one, and falls when the presets are
    the other way round. *)
Theorem density_level_is_monotone_and_bounded :
  forall (calibration : option Calibration.t) (d1 d2 : Q),
    let sparse := Params.ch0 (sparseParamsOf calibration) in
    let dense := Params.ch0 (denseParamsOf calibration) in
    let ch0 := fun d => Params.ch0 (densityLevelToEHDParams d calibration) in
    Qmin (Math_round sparse) (Math_round dense) <= ch0 d1
      <= Qmax (Math_round sparse) (Math_round dense)
    /\ (d1 <= 1 -> ch0 d1 = Math_round sparse)
    /\ (10 <= d1 -> ch0 d1 = Math_round dense)
    /\ (sparse <= dense -> d1 <= d2 -> ch0 d1 <= ch0 d2)
    /\ (dense <= sparse -> d1 <= d2 -> ch0 d2 <= ch0 d1).
Proof.
  intros cal d1 d2 s d ch0. unfold ch0, densityLevelToEHDParams. cbn [Params.ch0].
  fold s d.
  pose proof (ratio_bounds d1) as Hr.
  split; [|split; [|split; [|split]]].
  - pose proof (lerp_between s d _ Hr) as [Hlo Hhi]. split.
    + apply Qle_trans with (1 := Math_round_min s d). apply Math_round_mono. exact Hlo.
    + apply Qle_trans with (2 := Math_round_max s d). apply Math_round_mono. exact Hhi.
  - intro Hle. unfold Math_round. f_equal. unfold Math_roundZ. apply Qfloor_comp.
    assert (Hc : clamp d1 1 10 == 1).
    { unfold clamp. apply Q.max_l. apply Qle_trans with d1; [apply Q.le_min_r|exact Hle]. }
    unfold lerp. rewrite Hc. field.
  - intro Hge. unfold Math_round. f_equal. unfold Math_roundZ. apply Qfloor_comp.
    assert (Hc : clamp d1 1 10 == 10).
    { unfold clamp. rewrite (Q.min_l 10 d1 Hge). apply Q.max_r. lra. }
    unfold lerp. rewrite Hc. field.
  - intros Hsd Hd. apply Math_round_mono.
    apply lerp_mono; [exact Hsd|apply ratio_mono; exact Hd].
  - intros Hds Hd. apply Math_round_mono.
    apply lerp_anti; [exact Hds|apply ratio_mono; exact Hd].
Qed.

(** ** Compiled steps meet the wire contract *)









(** At feed speed 0 no duration is a whole number: a segment of positive
    length and the gaps around it last [Infinity]. *)
Example zero_feed_steps_are_not_finite :
  segmentsToEHDSteps (Some [mkSegment (mkSpan 2 3) 5]) 0 50 None 10
  = [Step.mk 0 70 PosInfinity; Step.mk 76 70 PosInfinity; Step.mk 0 70 PosInfinity].
Proof. reflexivity. Qed.

(** ** Export and import of the manual pattern *)






(** A file whose calibration has feed speed 0 is read without complaint,
    but the steps built from its segments last [Infinity] or [NaN] and the
    validation drops them all. *)
Example import_with_zero_feed_keeps_no_step :
  let json :=
    Json.mk None None
      (Some [mkSegment (mkSpan 2 3) 5; mkSegment (mkSpan 4 4) 5]) (Some 10)
      (Some (JsonCalibration.mk None None None None None None None (Some 0))) in
  map JsonStep.duration (buildStepsFromSegments defaultCalibration json)
  = [Some PosInfinity; Some PosInfinity; Some PosInfinity; Some NaN; Some PosInfinity]
  /\ extractStepsFromJson defaultCalibration json = [].
Proof. split; reflexivity. Qed.

(** ** Import of a step list *)

Lemma normalize_whole_step (cal0 : Calibration.t) (t : Z * Z * Z) :
  tripleInContract t ->
  normalizeStep cal0 (jsonStepOf t) = normStepOf t
  /\ validateStep (Some (normStepOf t)) = true.
Proof.
  destruct t as [[c0 c1] d]. intros [[H0a H0b] [[H1a H1b] Hd]].
  assert (Hin : forall z : Z, (0 <= z <= 100)%Z -> 0 <= inject_Z z <= 100).
  { intros z [Ha Hb]. change 0 with (inject_Z 0). change 100 with (inject_Z 100).
    rewrite <- !Zle_Qle. lia. }
  assert (Hd' : 1 <= inject_Z d).
  { change 1 with (inject_Z 1). rewrite <- Zle_Qle. exact Hd. }
  assert (Hch : forall z : Z, (0 <= z <= 100)%Z ->
                  Math_round (Qmax 0 (Qmin 100 (inject_Z z))) = inject_Z z).
  { intros z Hz. destruct (Hin z Hz) as [Ha Hb]. apply Math_round_eq.
    rewrite (Q.min_r _ _ Hb). apply Q.max_r. exact Ha. }
  split.
  - unfold normalizeStep, jsonStepOf, normStepOf, js_clamp.
    cbn [JsonStep.ch0 JsonStep.ch1 JsonStep.duration nullish Math_min Math_max js_round].
    rewrite (Hch c0), (Hch c1) by lia.
    rewrite (Math_round_eq (Qmax 1 (inject_Z d)) d) by (apply Q.max_r; exact Hd').
    reflexivity.
  - apply validateStep_spec. unfold normStepOf.
    exists (inject_Z c0), (inject_Z c1), (inject_Z d).
    split; [reflexivity|]. split; [apply Hin; lia|]. split; [apply Hin; lia|exact Hd'].
Qed.

Lemma import_whole_steps (cal0 : Calibration.t) (l : list (Z * Z * Z)) :
  Forall tripleInContract l ->
  filter (fun s => validateStep (Some s)) (map (normalizeStep cal0) (map jsonStepOf l))
  = map normStepOf l.
Proof.
  induction 1 as [|t l Ht _ IH]; [reflexivity|].
  cbn [map filter]. destruct (normalize_whole_step cal0 t Ht) as [E V].
  rewrite E, V. f_equal. exact IH.
Qed.

(** X12: a file whose [steps] array is not empty and holds whole-number
    steps within the contract is imported as it is: nothing is dropped,
    nothing is changed, and the embedded segments are not looked at. *)
Theorem valid_step_list_is_imported_unchanged :
  forall (calibrationParams : Calibration.t) (steps : list (Z * Z * Z))
         (generated : option (list JsonStep.t)) (segments : option (list Segment))
         (tubeLengthCm : option Q) (calibration : option JsonCalibration.t),
    steps <> [] ->
    Forall tripleInContract steps ->
    extractStepsFromJson calibrationParams
      (Json.mk (Some (map jsonStepOf steps)) generated segments tubeLengthCm calibration)
    = map normStepOf steps.
Proof.
  intros cal steps generated segments tube calibration Hne Hall.
  unfold extractStepsFromJson, candidateSteps. cbn [Json.steps].
  destruct steps as [|t steps]; [congruence|].
  exact (import_whole_steps cal (t :: steps) Hall).
Qed.

Lemma valid_step_list_is_imported_unchanged_witness :
  extractStepsFromJson defaultCalibration
    (Json.mk (Some (map jsonStepOf [(80, 70, 1500); (0, 70, 2000)]%Z)) None None None None)
  = map normStepOf [(80, 70, 1500); (0, 70, 2000)]%Z.
Proof.
  apply valid_step_list_is_imported_unchanged.
  - discriminate.
  - repeat constructor; cbn; lia.
Defined.

(** ** AM *)

Lemma am_fold_drops (P : Synth.t) (f : list Q) (idxs : list nat) :
  forall (drops : list Drop.t) (g : list Q),
    fst (fold_left (fun st j => amBody P f j st) idxs (drops, g))
    = drops ++ map (fun i => dropAt P i (midWidthMm P) (clamp (nth i f 0) 0 1)) idxs.
Proof.
  induction idxs as [|i idxs IH]; intros drops g; cbn [fold_left map].
  - now rewrite app_nil_r.
  - unfold amBody at 2. rewrite IH. rewrite <- app_assoc. reflexivity.
Qed.

(** X13: in AM mode one droplet is emitted for every [stepIdx]-th sample;
    all have the same width, the middle of the width range, and the
    amplitude of each is the clamped intensity at its sample index, a value
    in [[0, 1]]. *)
Theorem am_width_and_amplitude :
  forall (P : Synth.t) (f : list Q),
    Synth.mode P = AM ->
    fst (synthesize P f)
    = map (fun i => dropAt P i (midWidthMm P) (clamp (nth i f 0) 0 1))
        (emissionIndices (length f) (stepIdx P))
    /\ Forall (fun d => Drop.width_mm d = midWidthMm P
                        /\ 0 <= Drop.amplitude d <= 1)
         (fst (synthesize P f)).
Proof.
  intros P f Hmode.
  assert (Hdrops : fst (synthesize P f)
                   = map (fun i => dropAt P i (midWidthMm P) (clamp (nth i f 0) 0 1))
                       (emissionIndices (length f) (stepIdx P))).
  { unfold synthesize. rewrite Hmode.
    rewrite strideLoop_emission by apply stepIdx_pos.
    rewrite am_fold_drops. reflexivity. }
  split; [exact Hdrops|]. rewrite Hdrops. apply Forall_forall. intros d Hd.
  apply in_map_iff in Hd. destruct Hd as [i [<- _]]. cbn [dropAt Drop.width_mm Drop.amplitude].
  split; [reflexivity|]. apply clamp_bounds. lra.
Qed.

Lemma am_width_and_amplitude_witness :
  Forall (fun d => Drop.width_mm d = midWidthMm amSynth /\ 0 <= Drop.amplitude d <= 1)
    (fst (synthesize amSynth [1 # 4; 3; -1; 1 # 2])).
Proof.
  exact (proj2 (am_width_and_amplitude amSynth [1 # 4; 3; -1; 1 # 2] eq_refl)).
Defined.

(** ** The synthesized signal *)

Lemma setNth_Forall {A : Type} (P : A -> Prop) (i : nat) (v : A) (l : list A) :
  Forall P l -> P v -> Forall P (setNth i v l).
Proof.
  intros Hl Hv. revert i. induction Hl as [|x l Hx Hl IH]; intros [|i]; cbn;
    constructor; auto.
Qed.

Lemma fold_signal_shape (body : nat -> SynthState -> SynthState) (n : nat) :
  (forall i drops g,
      length (snd (body i (drops, g))) = length g
      /\ (Forall (fun q => 0 <= q <= 1) g ->
          Forall (fun q => 0 <= q <= 1) (snd (body i (drops, g))))) ->
  forall (idxs : list nat) (st : SynthState),
    length (snd st) = n -> Forall (fun q => 0 <= q <= 1) (snd st) ->
    length (snd (fold_left (fun st j => body j st) idxs st)) = n
    /\ Forall (fun q => 0 <= q <= 1) (snd (fold_left (fun st j => body j st) idxs st)).
Proof.
  intros Hbody. induction idxs as [|i idxs IH]; intros [drops g] Hlen Hall; cbn [fold_left].
  - split; assumption.
  - destruct (Hbody i drops g) as [H1 H2]. cbn [snd] in *.
    apply IH; [rewrite H1; exact Hlen|apply H2; exact Hall].
Qed.

Lemma repeat_zero_unit (n : nat) : Forall (fun q => 0 <= q <= 1) (repeat 0 n).
Proof. induction n; cbn; constructor; auto. split; discriminate. Qed.

Lemma dither_result (P : Synth.t) (f : list Q) :
  Synth.mode P = DITHER ->
  synthesize P f
  = (map (fun i => dropAt P i (midWidthMm P) 1) (filter (ditherEmits P f) (seq 0 (length f))),
     map (quantizedAt (Synth.threshold P) f) (seq 0 (length f))).
Proof.
  intro Hmode. unfold synthesize. rewrite Hmode. rewrite strideLoop_every.
  destruct (dither_rounds P f (length f) (Nat.le_refl _)) as [fc [Hst _]].
  rewrite Hst. cbn [snd]. rewrite Nat.sub_diag. cbn [repeat]. rewrite app_nil_r.
  reflexivity.
Qed.

(** X14: in every mode the synthesized signal [g] has one entry per
    sample and every entry lies in [[0, 1]]. *)
Theorem synthesized_signal_shape :
  forall (P : Synth.t) (f : list Q),
    length (snd (synthesize P f)) = length f
    /\ Forall (fun q => 0 <= q <= 1) (snd (synthesize P f)).
Proof.
  intros P f. destruct (Synth.mode P) eqn:Hmode.
  - unfold synthesize. rewrite Hmode. rewrite strideLoop_emission by apply stepIdx_pos.
    apply fold_signal_shape; cbn [snd];
      [|apply repeat_length|apply repeat_zero_unit].
    intros i drops g. unfold pwmBody. cbn [snd]. split; [apply setNth_length|].
    intro Hg. apply setNth_Forall; [exact Hg|].
    destruct (Qltb 0 (Qmax 0 (widthMaxPx P - widthMinPx P))) eqn:E; [|split; discriminate].
    apply Qltb_lt in E.
    set (r := Qmax 0 (widthMaxPx P - widthMinPx P)) in *.
    pose proof (clamp_bounds (nth i f 0) 0 1 ltac:(lra)) as Hv.
    set (v := clamp (nth i f 0) 0 1) in *.
    setoid_replace ((widthMinPx P + v * r - widthMinPx P) / r) with v by (field; lra).
    exact Hv.
  - unfold synthesize. rewrite Hmode. rewrite strideLoop_emission by apply stepIdx_pos.
    apply fold_signal_shape; cbn [snd];
      [|apply repeat_length|apply repeat_zero_unit].
    intros i drops g. unfold amBody. cbn [snd]. split; [apply setNth_length|].
    intro Hg. apply setNth_Forall; [exact Hg|]. apply clamp_bounds. lra.
  - rewrite (dither_result P f Hmode). cbn [snd].
    split; [rewrite length_map, length_seq; reflexivity|].
    apply Forall_forall. intros q Hq. apply in_map_iff in Hq. destruct Hq as [i [<- _]].
    destruct (quantOut_cases (Synth.threshold P)
                (diffusedValue (nth i f 0) (errorsBefore (Synth.threshold P) f i)))
      as [E|E]; unfold quantizedAt; rewrite E; split; discriminate.
Qed.

(** ** The emission grid *)

Lemma StronglySorted_filter {A : Type} (R : A -> A -> Prop) (p : A -> bool) (l : list A) :
  StronglySorted R l -> StronglySorted R (filter p l).
Proof.
  induction 1 as [|a l Hl IH Ha]; cbn; [constructor|].
  destruct (p a); [|exact IH]. constructor; [exact IH|].
  rewrite Forall_forall in *. intros x Hx. apply filter_In in Hx. apply Ha. tauto.
Qed.

Lemma StronglySorted_seq (a n : nat) : StronglySorted lt (seq a n).
Proof.
  revert a. induction n as [|n IH]; intro a; cbn; constructor; [apply IH|].
  apply Forall_forall. intros x Hx. apply in_seq in Hx. lia.
Qed.

Lemma emissionIndices_grid (n step : nat) :
  (1 <= step)%nat ->
  StronglySorted lt (emissionIndices n step)
  /\ Forall (fun i => (i < n)%nat /\ (i mod step = 0)%nat) (emissionIndices n step).
Proof.
  intro Hstep. unfold emissionIndices. split.
  - assert (H : forall a c, StronglySorted lt (map (fun k => (k * step)%nat) (seq a c))).
    { intros a c. revert a. induction c as [|c IH]; intro a; cbn; constructor; [apply IH|].
      apply Forall_forall. intros x Hx. apply in_map_iff in Hx.
      destruct Hx as [k [<- Hk]]. apply in_seq in Hk. nia. }
    apply H.
  - apply Forall_forall. intros x Hx. apply in_map_iff in Hx.
    destruct Hx as [k [<- Hk]]. apply in_seq in Hk. split.
    + unfold emissionCount in Hk.
      pose proof (Nat.Div0.mul_div_le (n + step - 1) step) as Hdiv.
      set (c := ((n + step - 1) / step)%nat) in *. nia.
    + apply Nat.Div0.mod_mul.
Qed.

(** X15: in every mode the droplets lie on the emission grid: their
    positions [s_px] are those of sample indices that increase strictly
    along the list, are below the number of samples and are multiples of
    [stepIdx]; so two droplets are never closer than [stepIdx] samples. *)
Theorem droplets_lie_on_the_grid :
  forall (P : Synth.t) (f : list Q),
    exists idxs : list nat,
      map Drop.s_px (fst (synthesize P f))
      = map (fun i => inject_Z (Z.of_nat i) * Synth.sampleStepPx P) idxs
      /\ StronglySorted lt idxs
      /\ Forall (fun i => (i < length f)%nat /\ (i mod stepIdx P = 0)%nat) idxs.
Proof.
  intros P f. pose proof (stepIdx_pos P) as Hs.
  destruct (Synth.mode P) eqn:Hmode.
  - exists (emissionIndices (length f) (stepIdx P)).
    split; [|apply emissionIndices_grid; exact Hs].
    unfold synthesize. rewrite Hmode. rewrite strideLoop_emission by exact Hs.
    rewrite pwm_fold_drops. cbn [app]. rewrite map_map. reflexivity.
  - exists (emissionIndices (length f) (stepIdx P)).
    split; [|apply emissionIndices_grid; exact Hs].
    unfold synthesize. rewrite Hmode. rewrite strideLoop_emission by exact Hs.
    rewrite am_fold_drops. cbn [app]. rewrite map_map. reflexivity.
  - exists (filter (ditherEmits P f) (seq 0 (length f))).
    rewrite (dither_result P f Hmode). cbn [fst]. rewrite map_map.
    split; [reflexivity|]. split.
    + apply StronglySorted_filter. apply StronglySorted_seq.
    + apply Forall_forall. intros i Hi. apply filter_In in Hi. destruct Hi as [Hin He].
      apply in_seq in Hin. split; [lia|].
      unfold ditherEmits in He. apply andb_true_iff in He. destruct He as [He _].
      apply Nat.eqb_eq in He. exact He.
Qed.

(** X16: the grid step in pixels, [stepIdx * sampleStepPx], is at least
    one sample step and differs from [max(minSpacingPx, sampleStepPx)] by at
    most half a sample step (the rounding in [stepIdx]); it can therefore
    fall short of the minimum spacing, by less than half a sample step. *)
Theorem grid_step_close_to_min_spacing :
  forall P : Synth.t,
    0 < Synth.sampleStepPx P ->
    let stepPx := Qmax (minSpacingPx P) (Synth.sampleStepPx P) in
    let grid := inject_Z (Z.of_nat (stepIdx P)) * Synth.sampleStepPx P in
    Synth.sampleStepPx P <= grid
    /\ stepPx - Synth.sampleStepPx P / 2 < grid
    /\ grid <= stepPx + Synth.sampleStepPx P / 2.
Proof.
  intros P Hs stepPx grid.
  set (s := Synth.sampleStepPx P) in *.
  assert (Hstep : s <= stepPx) by apply Q.le_max_r.
  set (r := stepPx / s).
  assert (Hr : 1 <= r).
  { unfold r. apply Qle_shift_div_l; [exact Hs|]. lra. }
  assert (Hrs : r * s == stepPx) by (unfold r; field; lra).
  assert (Hk : stepIdx P = Z.to_nat (Math_roundZ r)).
  { unfold stepIdx. fold stepPx s r. f_equal.
    apply Z.max_r. unfold Math_roundZ. apply Qfloor_ge_Z. change (inject_Z 1) with 1. lra. }
  assert (Hpos : (1 <= Math_roundZ r)%Z).
  { unfold Math_roundZ. apply Qfloor_ge_Z. change (inject_Z 1) with 1. lra. }
  assert (Hgrid : grid == inject_Z (Math_roundZ r) * s).
  { unfold grid. rewrite Hk. rewrite Z2Nat.id by lia. reflexivity. }
  assert (Hlo : r - (1 # 2) < inject_Z (Math_roundZ r)).
  { unfold Math_roundZ. pose proof (Qlt_floor (r + (1 # 2))) as H.
    rewrite inject_Z_plus in H. change (inject_Z 1) with 1 in H. lra. }
  assert (Hhi : inject_Z (Math_roundZ r) <= r + (1 # 2)).
  { unfold Math_roundZ. apply Qfloor_le. }
  assert (H1 : 1 <= inject_Z (Math_roundZ r)).
  { change 1 with (inject_Z 1). rewrite <- Zle_Qle. exact Hpos. }
  rewrite Hgrid. rewrite <- Hrs.
  setoid_replace (s / 2) with ((1 # 2) * s) by field.
  repeat split; nra.
Qed.

Lemma grid_step_close_to_min_spacing_witness :
  Synth.sampleStepPx tightSynth
  <= inject_Z (Z.of_nat (stepIdx tightSynth)) * Synth.sampleStepPx tightSynth.
Proof.
  refine (proj1 (grid_step_close_to_min_spacing tightSynth _)). reflexivity.
Defined.

(** With a minimum spacing of 2.8 px on samples 2 px apart, a droplet is
    emitted at every sample, 2 px apart. *)
Example grid_step_below_min_spacing :
  minSpacingPx tightSynth == 28 # 10 /\ stepIdx tightSynth = 1%nat.
Proof. split; reflexivity. Qed.

(** ** DITHER on blank and on saturated signals *)

Lemma diffused_zero_errors (x : Q) (ws prev : list Q) :
  Forall (fun e => e == 0) prev ->
  fold_right (fun c acc => acc + c) x (map (fun ew => fst ew * snd ew) (combine prev ws))
  == x.
Proof.
  intro H. revert ws. induction H as [|e prev He _ IH]; intros ws; [reflexivity|].
  destruct ws as [|w ws]; [reflexivity|].
  cbn [combine map fold_right fst snd]. rewrite IH, He. ring.
Qed.

Lemma clamp_low (v : Q) : v <= 0 -> clamp v 0 1 == 0.
Proof.
  intro H. unfold clamp. apply Q.max_l. apply Qle_trans with v; [apply Q.le_min_r|exact H].
Qed.

Lemma clamp_high (v : Q) : 1 <= v -> clamp v 0 1 == 1.
Proof.
  intro H. unfold clamp. rewrite (Q.min_l 1 v H). apply Q.max_r. lra.
Qed.

Lemma nth_Forall_default (P : Q -> Prop) (l : list Q) (d : Q) (i : nat) :
  Forall P l -> P d -> P (nth i l d).
Proof.
  intros Hl Hd. revert i. induction Hl as [|x l Hx _ IH]; intros [|i]; cbn; auto.
Qed.

Lemma blank_errors (thr : Q) (f : list Q) :
  0 < thr -> Forall (fun x => x <= 0) f ->
  forall i, Forall (fun e => e == 0) (errorsBefore thr f i)
            /\ quantizedAt thr f i = 0.
Proof.
  intros Hthr Hf.
  assert (Hq : forall i, Forall (fun e => e == 0) (errorsBefore thr f i) ->
                 quantOut thr (diffusedValue (nth i f 0) (errorsBefore thr f i)) = 0
                 /\ clamp (diffusedValue (nth i f 0) (errorsBefore thr f i)) 0 1 == 0).
  { intros i Hprev.
    assert (Hraw : diffusedValue (nth i f 0) (errorsBefore thr f i) <= 0).
    { unfold diffusedValue. rewrite diffused_zero_errors by exact Hprev.
      apply (nth_Forall_default (fun x => x <= 0)); [exact Hf|lra]. }
    pose proof (clamp_low _ Hraw) as Hc. split; [|exact Hc].
    unfold quantOut, Qgeb.
    destruct (Qle_bool thr _) eqn:E; [|reflexivity].
    apply Qle_bool_iff in E. lra. }
  assert (Herr : forall i, Forall (fun e => e == 0) (errorsBefore thr f i)).
  { induction i as [|i IH]; cbn [errorsBefore]; constructor; [|exact IH].
    destruct (Hq i IH) as [Ho Hc]. unfold quantErr. rewrite Ho, Hc. ring. }
  intro i. split; [apply Herr|]. apply (Hq i (Herr i)).
Qed.

Lemma saturated_errors (thr : Q) (f : list Q) :
  thr <= 1 -> Forall (fun x => 1 <= x) f ->
  forall i, (i < length f)%nat ->
            Forall (fun e => e == 0) (errorsBefore thr f i)
            /\ quantizedAt thr f i = 1.
Proof.
  intros Hthr Hf.
  assert (Hq : forall i, (i < length f)%nat ->
                 Forall (fun e => e == 0) (errorsBefore thr f i) ->
                 quantOut thr (diffusedValue (nth i f 0) (errorsBefore thr f i)) = 1
                 /\ clamp (diffusedValue (nth i f 0) (errorsBefore thr f i)) 0 1 == 1).
  { intros i Hi Hprev.
    assert (Hraw : 1 <= diffusedValue (nth i f 0) (errorsBefore thr f i)).
    { unfold diffusedValue. rewrite diffused_zero_errors by exact Hprev.
      rewrite Forall_forall in Hf. apply Hf. apply nth_In. exact Hi. }
    pose proof (clamp_high _ Hraw) as Hc. split; [|exact Hc].
    unfold quantOut, Qgeb.
    destruct (Qle_bool thr _) eqn:E; [reflexivity|].
    apply Qle_bool_false in E. lra. }
  assert (Herr : forall i, (i <= length f)%nat ->
                           Forall (fun e => e == 0) (errorsBefore thr f i)).
  { induction i as [|i IH]; intro Hi; cbn [errorsBefore]; constructor; [|apply IH; lia].
    destruct (Hq i ltac:(lia) (IH ltac:(lia))) as [Ho Hc].
    unfold quantErr. rewrite Ho, Hc. ring. }
  intros i Hi. split; [apply Herr; lia|]. apply (Hq i Hi). apply Herr. lia.
Qed.

Lemma map_const_repeat {A B : Type} (g : A -> B) (v : B) (l : list A) :
  (forall i, In i l -> g i = v) -> map g l = repeat v (length l).
Proof.
  induction l as [|a l IH]; intro H; [reflexivity|].
  cbn [map length repeat]. rewrite (H a) by (now left). f_equal.
  apply IH. intros i Hi. apply H. now right.
Qed.

(** X17: in DITHER mode a signal with no ink (every intensity at most 0)
    and a positive threshold gives no droplet and an all-zero signal [g]. *)
Theorem dither_blank_signal_emits_nothing :
  forall (P : Synth.t) (f : list Q),
    Synth.mode P = DITHER ->
    0 < Synth.threshold P ->
    Forall (fun x => x <= 0) f ->
    synthesize P f = ([], repeat 0 (length f)).
Proof.
  intros P f Hmode Hthr Hf. rewrite (dither_result P f Hmode). f_equal.
  - replace (filter (ditherEmits P f) (seq 0 (length f))) with (@nil nat); [reflexivity|].
    symmetry. generalize (seq 0 (length f)). intro l.
    induction l as [|i l IH]; [reflexivity|]. cbn [filter].
    unfold ditherEmits at 1.
    rewrite (proj2 (blank_errors _ f Hthr Hf i)). rewrite andb_false_r. exact IH.
  - generalize 0%nat. induction (length f) as [|n IH]; intro a; [reflexivity|].
    cbn [seq map repeat]. rewrite (proj2 (blank_errors _ f Hthr Hf a)). f_equal. apply IH.
Qed.

Lemma dither_blank_signal_emits_nothing_witness :
  synthesize ditherSynth [0; -1; 0; 0; 0] = ([], repeat 0 5).
Proof.
  apply (dither_blank_signal_emits_nothing ditherSynth [0; -1; 0; 0; 0]).
  - reflexivity.
  - reflexivity.
  - repeat constructor; discriminate.
Defined.

(** X18: in DITHER mode a saturated signal (every intensity at least 1)
    with a threshold of at most 1 is "on" at every sample and gives one
    droplet at every sample of the emission grid. *)
Theorem dither_saturated_signal_fills_the_grid :
  forall (P : Synth.t) (f : list Q),
    Synth.mode P = DITHER ->
    Synth.threshold P <= 1 ->
    Forall (fun x => 1 <= x) f ->
    synthesize P f
    = (map (fun i => dropAt P i (midWidthMm P) 1)
         (filter (fun i => (i mod stepIdx P =? 0)%nat) (seq 0 (length f))),
       repeat 1 (length f)).
Proof.
  intros P f Hmode Hthr Hf. rewrite (dither_result P f Hmode).
  assert (Hall : forall i, In i (seq 0 (length f)) ->
                           quantizedAt (Synth.threshold P) f i = 1).
  { intros i Hi. apply in_seq in Hi. apply (saturated_errors _ f Hthr Hf i). lia. }
  f_equal.
  - f_equal. apply filter_ext_in. intros i Hi. unfold ditherEmits.
    rewrite (Hall i Hi). apply andb_true_r.
  - rewrite (map_const_repeat _ 1 _ Hall). rewrite length_seq. reflexivity.
Qed.

Lemma dither_saturated_signal_fills_the_grid_witness :
  synthesize ditherSynth [1; 2; 1; 1; 1; 1; 1]
  = (map (fun i => dropAt ditherSynth i (midWidthMm ditherSynth) 1)
       (filter (fun i => (i mod stepIdx ditherSynth =? 0)%nat) (seq 0 7)),
     repeat 1 7).
Proof.
  apply (dither_saturated_signal_fills_the_grid ditherSynth [1; 2; 1; 1; 1; 1; 1]).
  - reflexivity.
  - discriminate.
  - repeat constructor; discriminate.
Defined.

(** ** Intensity range *)

Lemma dataAt_In (data : list Z) (idx v : Z) : dataAt data idx = Some v -> In v data.
Proof.
  unfold dataAt. destruct (idx <? 0)%Z; [discriminate|]. apply nth_error_In.
Qed.

(** X19: on a raster whose bytes are in [[0, 255]], [grayscaleAt] returns a
    value in [[0, 1]] at every coordinate pair, so the ink intensity
    [1 - grayscaleAt] taken by [recompute] is in [[0, 1]] as well. *)
Theorem grayscaleAt_in_unit_interval :
  forall (imageData : ImageData.t) (x y : Q),
    rasterOk imageData ->
    Forall (fun b => (0 <= b <= 255)%Z) (ImageData.data imageData) ->
    exists v : Q,
      grayscaleAt imageData x y = Some v /\ 0 <= v <= 1 /\ 0 <= 1 - v <= 1.
Proof.
  intros imageData x y Hok Hbytes.
  pose proof (pixelIndex_inside imageData x y Hok) as [Hi0 Hi3].
  set (idx := pixelIndex imageData x y) in *.
  set (data := ImageData.data imageData) in *.
  destruct (dataAt_inside data idx) as [r Hr]; [lia|].
  destruct (dataAt_inside data (idx + 1)) as [g Hg]; [lia|].
  destruct (dataAt_inside data (idx + 2)) as [b Hb]; [lia|].
  rewrite Forall_forall in Hbytes.
  pose proof (Hbytes r (dataAt_In _ _ _ Hr)) as [Hr0 Hr1].
  pose proof (Hbytes g (dataAt_In _ _ _ Hg)) as [Hg0 Hg1].
  pose proof (Hbytes b (dataAt_In _ _ _ Hb)) as [Hb0 Hb1].
  assert (Hq : forall z : Z, (0 <= z <= 255)%Z -> 0 <= inject_Z z <= 255).
  { intros z [Ha Hc]. change 0 with (inject_Z 0). change 255 with (inject_Z 255).
    rewrite <- !Zle_Qle. lia. }
  pose proof (Hq r (conj Hr0 Hr1)) as Hqr. pose proof (Hq g (conj Hg0 Hg1)) as Hqg.
  pose proof (Hq b (conj Hb0 Hb1)) as Hqb.
  eexists. split.
  - unfold grayscaleAt. fold data idx. rewrite Hr, Hg, Hb. reflexivity.
  - set (R := inject_Z r) in *. set (G := inject_Z g) in *. set (B := inject_Z b) in *.
    setoid_replace (((299 # 1000) * R + (587 # 1000) * G + (114 # 1000) * B) / 255)
      with (((299 # 1000) * R + (587 # 1000) * G + (114 # 1000) * B) * (1 # 255))
      by field.
    split; split; lra.
Qed.

Lemma grayscaleAt_in_unit_interval_witness :
  exists v : Q,
    grayscaleAt exampleRaster 5 (-3) = Some v /\ 0 <= v <= 1 /\ 0 <= 1 - v <= 1.
Proof.
  apply grayscaleAt_in_unit_interval.
  - unfold rasterOk. cbn. lia.
  - repeat constructor; cbn; lia.
Defined.

(** ** The manual schedule as droplets *)

Lemma manualDrop_bounds (tube mpp feed : Q) (seg : Segment) :
  let d := manualDrop tube mpp feed seg in
  0 <= Drop.width_mm d /\ 0 <= Drop.amplitude d <= 1
  /\ 0 <= Drop.s_mm d <= Qmax 0 (tube * 10).
Proof.
  cbv zeta. unfold manualDrop. cbn [Drop.width_mm Drop.amplitude Drop.s_mm].
  set (hi := Qmax 0 (tube * 10)).
  assert (Hhi : 0 <= hi) by apply Q.le_max_l.
  pose proof (clamp_bounds (startCm seg * 10) 0 hi Hhi) as [Hs0 Hs1].
  set (startMm := clamp (startCm seg * 10) 0 hi) in *.
  pose proof (clamp_bounds (endCm seg * 10) startMm hi Hs1) as [He0 He1].
  set (endMm := clamp (endCm seg * 10) startMm hi) in *.
  split; [lra|]. split; [apply clamp_bounds; lra|].
  setoid_replace ((startMm + endMm) / 2) with ((startMm + endMm) * (1 # 2)) by field.
  split; lra.
Qed.

(** X20: the droplets shown for the manual schedule, one per segment, have
    a width that is not negative, an amplitude in [[0, 1]] and a position in
    [[0, max(0, 10 tubeLengthCm)]], whatever the segments are; segments or
    parts of segments outside the tube are clamped away. *)
Theorem manual_droplets_are_clamped_to_the_tube :
  forall (segments : list Segment) (tubeLengthCm mmPerPixel feedSpeed : Q),
    length (manualDropSchedule segments tubeLengthCm mmPerPixel feedSpeed) = length segments
    /\ Forall (fun d => 0 <= Drop.width_mm d /\ 0 <= Drop.amplitude d <= 1
                        /\ 0 <= Drop.s_mm d <= Qmax 0 (tubeLengthCm * 10))
         (manualDropSchedule segments tubeLengthCm mmPerPixel feedSpeed).
Proof.
  intros segments tube mpp feed. unfold manualDropSchedule. split.
  - rewrite length_map. apply sortByStart_length.
  - apply Forall_forall. intros d Hd. apply in_map_iff in Hd.
    destruct Hd as [seg [<- _]]. apply manualDrop_bounds.
Qed.

(** X21: for a well-formed segment inside the tube, the droplet shown for
    it is as wide as the segment (in mm), sits at its middle and has the
    amplitude [densityLevel / 10] when the level is in [[0, 10]]. *)
Theorem manual_droplet_of_segment_inside :
  forall (tubeLengthCm mmPerPixel feedSpeed : Q) (seg : Segment),
    wellFormed seg -> insideTube tubeLengthCm seg ->
    0 <= densityLevel seg <= 10 ->
    let d := manualDrop tubeLengthCm mmPerPixel feedSpeed seg in
    Drop.width_mm d == (endCm seg - startCm seg) * 10
    /\ Drop.s_mm d == (startCm seg + endCm seg) * 5
    /\ Drop.amplitude d == densityLevel seg / 10.
Proof.
  intros tube mpp feed seg Hw [H0 H1] [Hd0 Hd1]. unfold wellFormed in Hw.
  cbv zeta. unfold manualDrop. cbn [Drop.width_mm Drop.amplitude Drop.s_mm].
  assert (Ehi : Qmax 0 (tube * 10) == tube * 10) by (apply Q.max_r; lra).
  assert (Es : clamp (startCm seg * 10) 0 (Qmax 0 (tube * 10)) == startCm seg * 10).
  { unfold clamp. rewrite Ehi. rewrite Q.min_r by lra. apply Q.max_r. lra. }
  assert (Ee : clamp (endCm seg * 10) (clamp (startCm seg * 10) 0 (Qmax 0 (tube * 10)))
                 (Qmax 0 (tube * 10)) == endCm seg * 10).
  { unfold clamp at 1. rewrite Es, Ehi. rewrite Q.min_r by lra. apply Q.max_r. lra. }
  assert (Ea : clamp (densityLevel seg / 10) 0 1 == densityLevel seg / 10).
  { assert (Hq : 0 <= densityLevel seg / 10 <= 1).
    { setoid_replace (densityLevel seg / 10) with (densityLevel seg * (1 # 10)) by field.
      lra. }
    unfold clamp. rewrite Q.min_r by tauto. apply Q.max_r. tauto. }
  rewrite Ee, Es, Ea. repeat split; try reflexivity; field.
Qed.

Lemma manual_droplet_of_segment_inside_witness :
  Drop.width_mm (manualDrop 10 (2 # 10) 80 (mkSegment (mkSpan 3 4) 5)) == (4 - 3) * 10.
Proof.
  refine (proj1 (manual_droplet_of_segment_inside 10 (2 # 10) 80
                   (mkSegment (mkSpan 3 4) 5) _ _ _)).
  - reflexivity.
  - split; discriminate.
  - split; discriminate.
Defined.

(** ** Millimetres and pixels *)

(** X22: [pxToMm] and [mmToPx] undo each other for a scale that is not 0;
    with the rounding of the size fields, a whole number of pixels shown in
    millimetres and typed back gives the same number of pixels. *)
Theorem mm_px_round_trip :
  forall (v mmPerPixel : Q) (w : Z),
    ~ mmPerPixel == 0 ->
    pxToMm (mmToPx v mmPerPixel) mmPerPixel == v
    /\ mmToPx (pxToMm v mmPerPixel) mmPerPixel == v
    /\ Math_round (mmToPx (pxToMm (inject_Z w) mmPerPixel) mmPerPixel) = inject_Z w.
Proof.
  intros v k w Hk. unfold pxToMm, mmToPx.
  split; [field; exact Hk|]. split; [field; exact Hk|].
  apply Math_round_eq. field. exact Hk.
Qed.

Lemma mm_px_round_trip_witness :
  pxToMm (mmToPx 180 (2 # 10)) (2 # 10) == 180.
Proof.
  refine (proj1 (mm_px_round_trip 180 (2 # 10) 0 _)). discriminate.
Defined.

(** ** Spline sampling and resampling of whole polylines *)

Section PathConstruction.
Local Open Scope R_scope.
Import Geometry.
Import PathOps.

Lemma catmullRom_at_0 (p0 p1 p2 p3 : Point.t) : catmullRom p0 p1 p2 p3 0 = p1.
Proof. destruct p1 as [x1 y1]. unfold catmullRom. cbn [Point.x Point.y]. f_equal; lra. Qed.

Lemma catmullRom_at_1 (p0 p1 p2 p3 : Point.t) : catmullRom p0 p1 p2 p3 1 = p2.
Proof. destruct p2 as [x2 y2]. unfold catmullRom. cbn [Point.x Point.y]. f_equal; lra. Qed.

Lemma flat_map_block_length {A : Type} (F : nat -> list A) (b : nat) :
  (forall i, length (F i) = b) ->
  forall m a, length (flat_map F (seq a m)) = (m * b)%nat.
Proof.
  intros HF. induction m as [|m IH]; intro a; cbn [seq flat_map]; [reflexivity|].
  rewrite length_app, HF, IH. reflexivity.
Qed.

Lemma flat_map_block_nth {A : Type} (F : nat -> list A) (b : nat) (d : A) :
  (forall i, length (F i) = b) ->
  forall m a i j, (i < m)%nat -> (j < b)%nat ->
    nth (i * b + j) (flat_map F (seq a m)) d = nth j (F (a + i)%nat) d.
Proof.
  intros HF. induction m as [|m IH]; intros a i j Hi Hj; [lia|].
  cbn [seq flat_map]. destruct i as [|i].
  - cbn [Nat.mul Nat.add]. rewrite app_nth1 by (rewrite HF; exact Hj).
    rewrite Nat.add_0_r. reflexivity.
  - rewrite app_nth2 by (rewrite HF; nia). rewrite HF.
    replace (S i * b + j - b)%nat with (i * b + j)%nat by nia.
    rewrite IH by lia. f_equal. f_equal. lia.
Qed.

Lemma spanSamples_length (points : list Point.t) (sps i : nat) :
  length (spanSamples points sps i) = sps.
Proof. unfold spanSamples. rewrite length_map, length_seq. reflexivity. Qed.

Lemma spanSamples_first (points : list Point.t) (sps i : nat) (d : Point.t) :
  (1 <= sps)%nat -> nth 0 (spanSamples points sps i) d = pointAtIndex points i.
Proof.
  intro Hs. unfold spanSamples. destruct sps as [|sps]; [lia|].
  cbn [seq map nth]. change (INR 0) with 0. unfold Rdiv. rewrite Rmult_0_l.
  apply catmullRom_at_0.
Qed.

(** X23: [sampleCatmullRom] returns its input when there are fewer than
    two control points; otherwise, with [samplesPerSegment >= 1], it returns
    [(n - 1) * samplesPerSegment + 1] points and passes through every
    control point: the sample of index [i * samplesPerSegment] is the
    [i]-th control point, so the path starts at the first control point and
    ends at the last. *)
Theorem sampleCatmullRom_interpolates :
  forall (points : list Point.t) (samplesPerSegment : nat),
    (1 <= samplesPerSegment)%nat ->
    ((length points < 2)%nat -> sampleCatmullRom points samplesPerSegment = points)
    /\ ((2 <= length points)%nat ->
        length (sampleCatmullRom points samplesPerSegment)
        = ((length points - 1) * samplesPerSegment + 1)%nat
        /\ forall i : nat, (i < length points)%nat ->
             nth (i * samplesPerSegment) (sampleCatmullRom points samplesPerSegment)
               (Point.mk 0 0)
             = nth i points (Point.mk 0 0)).
Proof.
  intros points sps Hs. unfold sampleCatmullRom. split.
  - intro Hn. apply Nat.ltb_lt in Hn. rewrite Hn. reflexivity.
  - intro Hn. destruct (Nat.ltb_spec (length points) 2) as [Hlt|_]; [lia|].
    pose proof (flat_map_block_length (spanSamples points sps) sps
                  (spanSamples_length points sps) (length points - 1) 0) as Hlen.
    split.
    + rewrite length_app, Hlen. reflexivity.
    + intros i Hi. destruct (Nat.eq_dec i (length points - 1)) as [->|Hne].
      * rewrite app_nth2 by (rewrite Hlen; lia). rewrite Hlen, Nat.sub_diag. reflexivity.
      * rewrite app_nth1 by (rewrite Hlen; nia).
        replace (i * sps)%nat with (i * sps + 0)%nat by lia.
        rewrite (flat_map_block_nth _ sps _ (spanSamples_length points sps)) by lia.
        cbn [Nat.add]. apply spanSamples_first. exact Hs.
Qed.

Lemma sampleCatmullRom_interpolates_witness :
  length (sampleCatmullRom [origin; fiveRight; origin] 24) = 49%nat.
Proof.
  refine (proj1 (proj2 (sampleCatmullRom_interpolates [origin; fiveRight; origin] 24 _) _));
    cbn; lia.
Defined.

(** X24: the spline span between [p1] and [p2] starts at [p1] and ends at
    [p2], whatever the outer control points [p0] and [p3] are, so that
    consecutive spans join at the control points. *)
Theorem catmullRom_joins_control_points :
  forall p0 p1 p2 p3 : Point.t,
    catmullRom p0 p1 p2 p3 0 = p1 /\ catmullRom p0 p1 p2 p3 1 = p2.
Proof.
  intros. split; [apply catmullRom_at_0|apply catmullRom_at_1].
Qed.

(** *** Resampling across the joins of a polyline *)

Lemma polylineLoop_from (rest : list Point.t) :
  forall a L, polylineLoop a rest L = L + polylineLoop a rest 0.
Proof.
  induction rest as [|b rest IH]; intros a L; cbn [polylineLoop]; [ring|].
  rewrite (IH b (L + dist a b)), (IH b (0 + dist a b)). ring.
Qed.

Lemma polylineLoop_nonneg (rest : list Point.t) :
  forall a, 0 <= polylineLoop a rest 0.
Proof.
  induction rest as [|b rest IH]; intro a; cbn [polylineLoop]; [lra|].
  rewrite polylineLoop_from. pose proof (dist_nonneg a b). pose proof (IH b). lra.
Qed.

Lemma wholeSteps_add (z s : R) (n : nat) :
  0 <= z -> 0 < s -> wholeSteps (z + INR n * s) s = (wholeSteps z s + n)%nat.
Proof.
  intros Hz Hs. unfold wholeSteps.
  destruct (base_Int_part (z / s)) as [H1 H2].
  assert (Hq : 0 <= z / s) by (apply Rmult_le_pos; [lra|left; apply Rinv_0_lt_compat; lra]).
  assert (Hip : (0 <= Int_part (z / s))%Z).
  { assert (H3 : IZR (-1) < IZR (Int_part (z / s))) by lra.
    apply lt_IZR in H3. lia. }
  replace ((z + INR n * s) / s) with (z / s + INR n) by (field; lra).
  rewrite <- (Int_part_spec (z / s + INR n) (Int_part (z / s) + Z.of_nat n)).
  - rewrite Z2Nat.inj_add by lia. rewrite Nat2Z.id. reflexivity.
  - rewrite plus_IZR, <- INR_IZR_INZ. lra.
Qed.

Lemma wholeSteps_small (z s : R) : 0 <= z < s -> wholeSteps z s = 0%nat.
Proof.
  intros [H0 H1]. unfold wholeSteps.
  rewrite <- (Int_part_spec (z / s) 0); [reflexivity|].
  assert (Hs : 0 < s) by lra.
  assert (Hq : 0 <= z / s) by (apply Rmult_le_pos; [lra|left; apply Rinv_0_lt_compat; lra]).
  assert (Hq1 : z / s < 1).
  { apply Rmult_lt_reg_r with s; [exact Hs|]. replace (z / s * s) with z by (field; lra). lra. }
  lra.
Qed.

Lemma fmod_carry (x s : R) :
  0 <= x -> 0 < s ->
  fmod x s = x - INR (wholeSteps x s) * s /\ 0 <= fmod x s < s.
Proof.
  intros Hx Hs.
  assert (Hq : 0 <= x / s) by (apply Rmult_le_pos; [lra|left; apply Rinv_0_lt_compat; lra]).
  assert (Hip : (0 <= Int_part (x / s))%Z).
  { destruct (base_Int_part (x / s)) as [H1 H2].
    assert (H3 : IZR (-1) < IZR (Int_part (x / s))) by lra.
    apply lt_IZR in H3. lia. }
  assert (E : fmod x s = x - INR (wholeSteps x s) * s).
  { unfold fmod, trunc, wholeSteps. destruct (Rle_dec 0 (x / s)) as [_|Hn]; [|contradiction].
    rewrite INR_IZR_INZ, Z2Nat.id by exact Hip. ring. }
  split; [exact E|]. rewrite E.
  pose proof (wholeSteps_spec x s Hx Hs). lra.
Qed.

(** The [while] loop started [t0] after the previous point, [0 < t0 <= s]. *)
Lemma emitLoop_length (a b : Point.t) (L s t0 : R) :
  0 < s -> 0 <= L -> 0 < t0 <= s ->
  forall (fuel k : nat),
    (wholeSteps (L + (s - t0)) s - k <= fuel)%nat ->
    length (emitLoop fuel a b L s (t0 + INR k * s)) = (wholeSteps (L + (s - t0)) s - k)%nat.
Proof.
  intros Hs HL Ht.
  pose proof (wholeSteps_spec (L + (s - t0)) s ltac:(lra) Hs) as [Hlo Hhi].
  set (m := wholeSteps (L + (s - t0)) s) in *.
  induction fuel as [|fuel IH]; intros k Hfuel.
  - cbn. lia.
  - cbn [emitLoop]. destruct (Rle_dec (t0 + INR k * s) L) as [Hle|Hgt].
    + assert (Hk : (k < m)%nat).
      { assert (H : INR (S k) < INR (S m)).
        { rewrite !S_INR. apply Rmult_lt_reg_r with s; [exact Hs|]. lra. }
        apply INR_lt in H. lia. }
      cbn [length].
      replace (t0 + INR k * s + s) with (t0 + INR (S k) * s) by (rewrite S_INR; ring).
      rewrite IH by lia. lia.
    + assert (Hk : (m <= k)%nat).
      { assert (H : INR m < INR (S k)).
        { rewrite S_INR. apply Rmult_lt_reg_r with s; [exact Hs|]. lra. }
        apply INR_lt in H. lia. }
      cbn [length]. lia.
Qed.

Lemma emitFuel_enough (L s t0 : R) :
  0 < s -> 0 <= L -> 0 < t0 <= s ->
  (wholeSteps (L + (s - t0)) s <= emitFuel L s t0)%nat.
Proof.
  intros Hs HL Ht. unfold emitFuel.
  pose proof (wholeSteps_spec (L + (s - t0)) s ltac:(lra) Hs) as [Hlo _].
  set (m := wholeSteps (L + (s - t0)) s) in *.
  destruct m as [|m]; [lia|].
  destruct (archimed ((L - t0) / s)) as [Hup _].
  assert (Hm : INR m <= (L - t0) / s).
  { apply Rmult_le_reg_r with s; [exact Hs|].
    replace ((L - t0) / s * s) with (L - t0) by (field; lra).
    rewrite S_INR in Hlo. lra. }
  assert (Hz : (Z.of_nat m < up ((L - t0) / s))%Z).
  { apply lt_IZR. rewrite <- INR_IZR_INZ. lra. }
  lia.
Qed.

Lemma walk_length (s : R) :
  0 < s ->
  forall (rest : list Point.t) (a : Point.t) (acc : R),
    0 <= acc < s ->
    length (walk a rest s acc) = wholeSteps (acc + polylineLoop a rest 0) s.
Proof.
  intros Hs. induction rest as [|b rest IH]; intros a acc Hacc.
  - cbn [walk polylineLoop length]. rewrite Rplus_0_r. symmetry.
    apply wholeSteps_small. exact Hacc.
  - cbn [walk polylineLoop]. rewrite length_app.
    pose proof (dist_nonneg a b) as HL.
    replace (s - acc) with ((s - acc) + INR 0 * s) by (cbn; ring).
    rewrite (emitLoop_length a b (dist a b) s (s - acc) Hs HL ltac:(lra))
      by (rewrite Nat.sub_0_r; replace (s - acc + INR 0 * s) with (s - acc) by (cbn; ring);
          apply emitFuel_enough; lra).
    rewrite Nat.sub_0_r.
    replace (dist a b + (s - (s - acc))) with (dist a b + acc) by ring.
    destruct (fmod_carry (dist a b + acc) s ltac:(lra) Hs) as [Ef Hf].
    rewrite (IH b _ Hf). rewrite Ef.
    rewrite (polylineLoop_from rest b (0 + dist a b)).
    pose proof (polylineLoop_nonneg rest b) as Hrest.
    pose proof (wholeSteps_spec (dist a b + acc) s ltac:(lra) Hs) as [Hlo _].
    set (n1 := wholeSteps (dist a b + acc) s) in *.
    replace (acc + (0 + dist a b + polylineLoop b rest 0))
      with ((dist a b + acc - INR n1 * s + polylineLoop b rest 0) + INR n1 * s) by ring.
    rewrite wholeSteps_add by lra. lia.
Qed.

(** X25: on any polyline and for any step [s > 0], [resampleUniform]
    returns the first point followed by [floor(length / s)] points, where
    [length] is [polylineLength] of the polyline: the remainder carried from
    one segment to the next makes the count that of the whole arc length,
    not of the segments one by one.  The empty polyline gives no point. *)
Theorem resampleUniform_counts_arc_length :
  forall (p0 : Point.t) (rest : list Point.t) (s : R),
    0 < s ->
    length (resampleUniform (p0 :: rest) s)
    = S (wholeSteps (polylineLength (p0 :: rest)) s)
    /\ nth 0 (resampleUniform (p0 :: rest) s) (Point.mk 0 0) = p0
    /\ resampleUniform [] s = []
    /\ 0 <= polylineLength (p0 :: rest).
Proof.
  intros p0 rest s Hs. unfold resampleUniform, polylineLength. cbn [length nth].
  split; [|split; [reflexivity|split; [reflexivity|apply polylineLoop_nonneg]]].
  rewrite (walk_length s Hs rest p0 0) by lra. rewrite Rplus_0_l. reflexivity.
Qed.

Lemma resampleUniform_counts_arc_length_witness :
  length (resampleUniform [origin; fiveRight; origin] 2)
  = S (wholeSteps (polylineLength [origin; fiveRight; origin]) 2).
Proof.
  refine (proj1 (resampleUniform_counts_arc_length origin [fiveRight; origin] 2 _)). lra.
Defined.
(** *** The folded pattern *)

Lemma generateParallelPattern_nth (startPoint endPoint : Point.t) (topFolds i : nat) :
  (i <= 2 * topFolds)%nat ->
  nth i (generateParallelPattern startPoint endPoint topFolds) (Point.mk 0 0)
  = Point.mk
      (Point.x startPoint
       + ((Point.x endPoint - Point.x startPoint) * INR i) / INR (topFolds * 2))
      (if Nat.even i then Point.y startPoint else Point.y endPoint).
Proof.
  intro Hi. unfold generateParallelPattern. cbv zeta.
  set (f := fun i0 : nat => _).
  rewrite (nth_indep _ (Point.mk 0 0) (f 0%nat)) by (rewrite length_map, length_seq; lia).
  rewrite (map_nth f), seq_nth by lia. cbn [plus]. unfold f.
  f_equal.
  destruct (Nat.even i) eqn:E.
  - apply Nat.even_spec in E. destruct E as [k ->].
    replace ((2 * k) mod 2)%nat with 0%nat; [reflexivity|].
    symmetry. rewrite Nat.mul_comm. apply Nat.Div0.mod_mul.
  - assert (O : Nat.odd i = true) by (rewrite <- Nat.negb_even, E; reflexivity).
    apply Nat.odd_spec in O. destruct O as [k ->].
    replace ((2 * k + 1) mod 2)%nat with 1%nat; [reflexivity|].
    symmetry. rewrite Nat.add_comm, Nat.mul_comm, Nat.Div0.mod_add. reflexivity.
Qed.

(** X26: with at least one fold and the end point not left of the start
    point, [generateParallelPattern] returns [2 * topFolds + 1] points that
    zigzag between the two heights: the points of even index are at the
    start height and those of odd index at the end height, the first point
    is the start point, the last one is at the end abscissa and back at the
    START height, the abscissas advance by the same amount
    [width / (2 * topFolds)] from each point to the next and stay between
    those of the two given points. *)
Theorem generateParallelPattern_zigzag :
  forall (startPoint endPoint : Point.t) (topFolds : nat),
    (1 <= topFolds)%nat ->
    Point.x startPoint <= Point.x endPoint ->
    let pts := generateParallelPattern startPoint endPoint topFolds in
    let at_ := fun i => nth i pts (Point.mk 0 0) in
    length pts = (2 * topFolds + 1)%nat
    /\ at_ 0%nat = startPoint
    /\ at_ (2 * topFolds)%nat = Point.mk (Point.x endPoint) (Point.y startPoint)
    /\ (forall i : nat, (i <= 2 * topFolds)%nat ->
          Point.y (at_ i) = (if Nat.even i then Point.y startPoint else Point.y endPoint)
          /\ Point.x startPoint <= Point.x (at_ i) <= Point.x endPoint)
    /\ (forall i : nat, (i < 2 * topFolds)%nat ->
          Point.x (at_ (S i)) - Point.x (at_ i)
          = (Point.x endPoint - Point.x startPoint) / INR (2 * topFolds)).
Proof.
  intros startPoint endPoint topFolds Hf Hx pts at_. subst at_ pts. cbv beta.
  assert (Hn : 0 < INR (topFolds * 2)).
  { apply lt_0_INR. lia. }
  assert (E2 : (2 * topFolds = topFolds * 2)%nat) by lia.
  split; [|split; [|split; [|split]]].
  - unfold generateParallelPattern. cbv zeta. rewrite length_map, length_seq. lia.
  - rewrite generateParallelPattern_nth by lia. destruct startPoint as [sx sy].
    cbn [Point.x Point.y Nat.even INR]. f_equal. field. lra.
  - rewrite generateParallelPattern_nth by lia.
    assert (Ev : Nat.even (2 * topFolds) = true) by (apply Nat.even_spec; exists topFolds; reflexivity).
    rewrite Ev. f_equal. rewrite E2. field. lra.
  - intros i Hi. rewrite generateParallelPattern_nth by lia. cbn [Point.x Point.y].
    split; [reflexivity|].
    assert (Hi0 : 0 <= INR i) by apply pos_INR.
    assert (Hi1 : INR i <= INR (topFolds * 2)) by (apply le_INR; lia).
    set (w := Point.x endPoint - Point.x startPoint) in *.
    assert (Hw : 0 <= w) by (unfold w; lra).
    assert (Hq0 : 0 <= w * INR i / INR (topFolds * 2)).
    { apply Rmult_le_pos; [apply Rmult_le_pos; lra|left; apply Rinv_0_lt_compat; lra]. }
    assert (Hq1 : w * INR i / INR (topFolds * 2) <= w).
    { apply Rmult_le_reg_r with (INR (topFolds * 2)); [exact Hn|].
      replace (w * INR i / INR (topFolds * 2) * INR (topFolds * 2)) with (w * INR i)
        by (field; lra).
      apply Rmult_le_compat_l; lra. }
    unfold w in *. lra.
  - intros i Hi. rewrite !generateParallelPattern_nth by lia. cbn [Point.x].
    rewrite S_INR, E2. field. lra.
Qed.

Lemma generateParallelPattern_zigzag_witness :
  length (generateParallelPattern origin fiveRight 10) = 21%nat.
Proof.
  refine (proj1 (generateParallelPattern_zigzag origin fiveRight 10 _ _)).
  - lia.
  - cbn. lra.
Defined.
End PathConstruction.
